(** * golf: a shallow embedding of the one-liner driver and its prelude

    The development follows the layout of the repository:
    - [GoInt], [Utf8], [Unicode], [Strings], [Strconv]: the parts of the Go
      runtime and standard library the program calls, written after their
      documented behaviour on 64-bit platforms;
    - [Prelude]: package prelude (GAtoi, Warn, Die, GSplit, Field,
      BackupName and the runtime variables);
    - [Flag]: the standard flag package as golf configures it;
    - [Golf]: command golf (decluster, main's flag post-processing, do, run);
    - [Scaffold]: the File loop of the program template.

    Go strings are byte sequences: they are modelled by [string], whose
    characters are 8-bit.  Go's [int] is a 64-bit two's complement integer:
    it is modelled by [Z] with the wrap-around written at each operation. *)

From Stdlib Require Import ZArith List Bool Lia.
From Stdlib Require Import Strings.String Strings.Ascii.
Import ListNotations.

Open Scope string_scope.
Open Scope list_scope.
Open Scope Z_scope.

(** String concatenation, Go's [+] on strings. *)
Infix "+++" := String.append (at level 60, right associativity).

(* ------------------------------------------------------------------ *)
(** ** Machine integers *)

Module GoInt.

Definition minInt : Z := - 2 ^ 63.
Definition maxInt : Z := 2 ^ 63 - 1.

(** Two's complement wrap-around of a mathematical integer to 64 bits. *)
Definition wrap (z : Z) : Z := (z + 2 ^ 63) mod 2 ^ 64 - 2 ^ 63.

Definition add (a b : Z) : Z := wrap (a + b).
Definition sub (a b : Z) : Z := wrap (a - b).
Definition mul (a b : Z) : Z := wrap (a * b).
Definition neg (a : Z) : Z := wrap (- a).

Definition in_range (z : Z) : Prop := minInt <= z <= maxInt.

(** [len] of a slice or of a string. *)
Definition len {A : Type} (l : list A) : Z := Z.of_nat (List.length l).
Definition slen (s : string) : Z := Z.of_nat (String.length s).

End GoInt.

(* ------------------------------------------------------------------ *)
(** ** Effects: diagnostics, exits and run-time panics *)

Inductive NumErrKind := ErrSyntax | ErrRange.

(** The error values that reach the program, and the arguments of the
    variadic printing functions. [ErrGolf] is the package variable
    [errGolf] and [ErrHelp] is [flag.ErrHelp]: both are compared by
    identity, so each is a constructor of its own. *)
Inductive error :=
| NumError (Func Num : string) (Err : NumErrKind)
| PathError (Op Path Msg : string)
| ExitError (code : Z)
| Errorf (format : string) (args : list Value)
| ErrGolf
| ErrHelp
with Value :=
| VString (s : string)
| VInt (n : Z)
| VBool (b : bool)
| VError (e : error)
| VStrings (l : list string).

(** An output handle: the process's standard output or a created file. *)
Inductive Handle :=
| Stdout
| FileOut (name : string).

(** What the program does to the outside world, in order. *)
Inductive Event :=
| StderrPrintf (format : string) (args : list Value)
| StderrPrintln (args : list Value)
| StderrPrintDefaults
| OutPrint (h : Handle) (args : list Value)
| OutPrintln (h : Handle) (args : list Value)
| OutClose (h : Handle).

(** How a call ends: it returns, the process exits ([os.Exit]), or the
    runtime panics. *)
Inductive Result (A : Type) :=
| Ret (a : A)
| Exit (code : Z)
| Panic (msg : string).
Arguments Ret {A} a.
Arguments Exit {A} code.
Arguments Panic {A} msg.

Definition Eff (A : Type) : Type := list Event * Result A.

Definition ret {A} (a : A) : Eff A := ([], Ret a).
Definition emit (e : Event) : Eff unit := ([e], Ret tt).
Definition exit {A} (code : Z) : Eff A := ([], Exit code).
Definition panic {A} (msg : string) : Eff A := ([], Panic msg).

Definition bind {A B} (m : Eff A) (f : A -> Eff B) : Eff B :=
  match m with
  | (ev, Ret a) => let (ev', r) := f a in (ev ++ ev', r)
  | (ev, Exit c) => (ev, Exit c)
  | (ev, Panic msg) => (ev, Panic msg)
  end.

Notation "x <- m ;; k" := (bind m (fun x => k))
  (at level 61, m at next level, right associativity).
Notation "m ;;; k" := (bind m (fun _ => k))
  (at level 61, right associativity).

Definition events {A} (m : Eff A) : list Event := fst m.
Definition result {A} (m : Eff A) : Result A := snd m.

Definition is_fatal {A} (r : Result A) : bool :=
  match r with Ret _ => false | _ => true end.

(* ------------------------------------------------------------------ *)
(** ** Bytes and strings *)

Definition byteZ (c : ascii) : Z := Z.of_nat (nat_of_ascii c).

(** [s[i:]] and [s[:i]] for indices already known to be in range. *)
Fixpoint sdrop (n : nat) (s : string) : string :=
  match n, s with
  | O, _ => s
  | S n', String _ t => sdrop n' t
  | S _, EmptyString => EmptyString
  end.

Fixpoint stake (n : nat) (s : string) : string :=
  match n, s with
  | O, _ => EmptyString
  | S n', String c t => String c (stake n' t)
  | S _, EmptyString => EmptyString
  end.

(** [s[i]] as a byte value; callers check the bound first. *)
Definition sbyte (s : string) (i : nat) : Z :=
  match String.get i s with
  | Some c => byteZ c
  | None => 0
  end.

Module Utf8.

Definition RuneError : Z := 65533.
Definition RuneSelf : Z := 128.

(** The table [first] together with [acceptRanges]: for a leading byte,
    the length of the sequence and the range allowed for the second
    byte; [None] for bytes that cannot start a sequence. *)
Definition first (b : Z) : option (nat * Z * Z) :=
  if b <? 194 then None
  else if b <? 224 then Some (2%nat, 128, 191)
  else if b =? 224 then Some (3%nat, 160, 191)
  else if b <? 237 then Some (3%nat, 128, 191)
  else if b =? 237 then Some (3%nat, 128, 159)
  else if b <? 240 then Some (3%nat, 128, 191)
  else if b =? 240 then Some (4%nat, 144, 191)
  else if b <? 244 then Some (4%nat, 128, 191)
  else if b =? 244 then Some (4%nat, 128, 143)
  else None.

Definition continuation (b : Z) : bool := (128 <=? b) && (b <=? 191).

(** [utf8.DecodeRuneInString]: the rune and its width in bytes; an
    invalid encoding gives ([RuneError], 1). *)
Definition DecodeRuneInString (s : string) : Z * nat :=
  match s with
  | EmptyString => (RuneError, 0%nat)
  | String c0 _ =>
    let s0 := byteZ c0 in
    if s0 <? RuneSelf then (s0, 1%nat)
    else
      match first s0 with
      | None => (RuneError, 1%nat)
      | Some (sz, lo, hi) =>
        if (String.length s <? sz)%nat then (RuneError, 1%nat)
        else
          let s1 := sbyte s 1 in
          if (s1 <? lo) || (hi <? s1) then (RuneError, 1%nat)
          else if (sz <=? 2)%nat then
            (Z.lor (Z.shiftl (Z.land s0 31) 6) (Z.land s1 63), 2%nat)
          else
            let s2 := sbyte s 2 in
            if negb (continuation s2) then (RuneError, 1%nat)
            else if (sz <=? 3)%nat then
              (Z.lor (Z.lor (Z.shiftl (Z.land s0 15) 12)
                            (Z.shiftl (Z.land s1 63) 6))
                     (Z.land s2 63), 3%nat)
            else
              let s3 := sbyte s 3 in
              if negb (continuation s3) then (RuneError, 1%nat)
              else
                (Z.lor (Z.lor (Z.lor (Z.shiftl (Z.land s0 7) 18)
                                     (Z.shiftl (Z.land s1 63) 12))
                              (Z.shiftl (Z.land s2 63) 6))
                       (Z.land s3 63), 4%nat)
      end
  end.

(** The string cut into its runes, each paired with its bytes: what a
    [for _, r := range s] loop visits. The fuel is the byte length, and
    every step consumes at least one byte. *)
Fixpoint runes_fuel (fuel : nat) (s : string) : list (Z * string) :=
  match fuel with
  | O => []
  | S f =>
    match s with
    | EmptyString => []
    | _ =>
      let (r, w) := DecodeRuneInString s in
      (r, stake w s) :: runes_fuel f (sdrop w s)
    end
  end.

Definition runes (s : string) : list (Z * string) :=
  runes_fuel (String.length s) s.

End Utf8.

Module Unicode.

(** [unicode.IsSpace]: the Latin-1 spaces and the White_Space property
    above Latin-1. *)
Definition IsSpace (r : Z) : bool :=
  if r <=? 255 then
    ((9 <=? r) && (r <=? 13)) || (r =? 32) || (r =? 133) || (r =? 160)
  else
    (r =? 5760) || ((8192 <=? r) && (r <=? 8202)) || (r =? 8232)
    || (r =? 8233) || (r =? 8239) || (r =? 8287) || (r =? 12288).

End Unicode.

Module Strings.

(** [strings.HasPrefix] and [strings.HasSuffix]. *)
Definition HasPrefix (s pre : string) : bool := String.prefix pre s.

Definition HasSuffix (s suffix : string) : bool :=
  (String.length suffix <=? String.length s)%nat
  && (sdrop (String.length s - String.length suffix) s =? suffix)%string.

(** [strings.Index]: the position of the first instance of [substr],
    [None] where Go answers -1. *)
Fixpoint Index (s substr : string) : option nat :=
  if String.prefix substr s then Some O
  else
    match s with
    | EmptyString => None
    | String _ t =>
      match Index t substr with
      | Some i => Some (S i)
      | None => None
      end
    end.

Definition Contains (s substr : string) : bool :=
  match Index s substr with
  | Some _ => true
  | None => false
  end.

(** [strings.Join]. *)
Fixpoint Join (elems : list string) (sep : string) : string :=
  match elems with
  | [] => ""
  | a :: rest =>
    match rest with
    | [] => a
    | _ => a +++ sep +++ Join rest sep
    end
  end.

(** [explode] with no limit: the string cut into its UTF-8 sequences,
    an invalid byte standing for itself. *)
Definition explode (s : string) : list string :=
  map snd (Utf8.runes s).

(** The loop of [genSplit] for a non-empty separator. Go first counts
    the instances of [sep] to bound the loop; the byte length bounds that
    count, and the loop leaves at the first failed [Index]. *)
Fixpoint split_loop (fuel : nat) (s sep : string) : list string :=
  match fuel with
  | O => [s]
  | S f =>
    match Index s sep with
    | None => [s]
    | Some m =>
      stake m s :: split_loop f (sdrop (m + String.length sep) s) sep
    end
  end.

(** [strings.Split]. *)
Definition Split (s sep : string) : list string :=
  if (sep =? "")%string then explode s
  else split_loop (String.length s) s sep.

(** The loop of [strings.FieldsFunc]: [cur] is the field being read,
    [None] while [start < 0]. *)
Fixpoint fields_loop (f : Z -> bool) (cur : option string)
         (rs : list (Z * string)) : list string :=
  match rs with
  | [] =>
    match cur with
    | Some w => [w]
    | None => []
    end
  | (r, bytes) :: rs' =>
    if f r then
      match cur with
      | Some w => w :: fields_loop f None rs'
      | None => fields_loop f None rs'
      end
    else
      match cur with
      | Some w => fields_loop f (Some (w +++ bytes)) rs'
      | None => fields_loop f (Some bytes) rs'
      end
  end.

Definition FieldsFunc (s : string) (f : Z -> bool) : list string :=
  fields_loop f None (Utf8.runes s).

(** [strings.Fields]: the ASCII fast path of the library agrees with
    [FieldsFunc] on [unicode.IsSpace], which is what is kept here. *)
Definition Fields (s : string) : list string :=
  FieldsFunc s Unicode.IsSpace.

(** The loop of [strings.Replace] for a non-empty [old]. *)
Fixpoint replace_loop (fuel : nat) (s old new : string) : string :=
  match fuel with
  | O => s
  | S f =>
    match Index s old with
    | None => s
    | Some j =>
      stake j s +++ new
      +++ replace_loop f (sdrop (j + String.length old) s) old new
    end
  end.

(** [strings.ReplaceAll]. With an empty [old], [new] is inserted before
    every rune and at the end. *)
Definition ReplaceAll (s old new : string) : string :=
  if (old =? new)%string then s
  else if (old =? "")%string then
    new +++ String.concat "" (map (fun r => r +++ new) (explode s))
  else replace_loop (String.length s) s old new.

End Strings.

Module Strconv.

Definition maxUint64 : Z := 2 ^ 64 - 1.

Definition syntaxError (fn str : string) : error := NumError fn str ErrSyntax.
Definition rangeError (fn str : string) : error := NumError fn str ErrRange.

(** The digit loop of [ParseUint] in base 10 with 64 bits: it returns at
    the first byte that is not a digit, and at the first overflow without
    looking at the bytes that follow. *)
Fixpoint parseUint_loop (s0 : string) (n : Z) (s : string)
  : Z * option error :=
  match s with
  | EmptyString => (n, None)
  | String c t =>
    let b := byteZ c in
    if (48 <=? b) && (b <=? 57) then
      let d := b - 48 in
      if n >=? maxUint64 / 10 + 1 then
        (maxUint64, Some (rangeError "ParseUint" s0))
      else
        let n := (n * 10) mod 2 ^ 64 in
        let n1 := (n + d) mod 2 ^ 64 in
        if (n1 <? n) || (n1 >? maxUint64) then
          (maxUint64, Some (rangeError "ParseUint" s0))
        else parseUint_loop s0 n1 t
    else (0, Some (syntaxError "ParseUint" s0))
  end.

Definition ParseUint10 (s : string) : Z * option error :=
  if (s =? "")%string then (0, Some (syntaxError "ParseUint" s))
  else parseUint_loop s 0 s.

(** [ParseInt(s, 10, 0)]. A value out of range comes back as the
    largest magnitude of its sign, with [ErrRange]. *)
Definition ParseInt10 (s : string) : Z * option error :=
  match s with
  | EmptyString => (0, Some (syntaxError "ParseInt" s))
  | String c t =>
    let neg := (byteZ c =? 45) in
    let digits := if (byteZ c =? 43) || neg then t else s in
    match ParseUint10 digits with
    | (_, Some (NumError _ _ ErrSyntax)) =>
      (0, Some (syntaxError "ParseInt" s))
    | (un, _) =>
      let cutoff := 2 ^ 63 in
      if negb neg && (un >=? cutoff) then
        (cutoff - 1, Some (rangeError "ParseInt" s))
      else if neg && (un >? cutoff) then
        (- cutoff, Some (rangeError "ParseInt" s))
      else (if neg then GoInt.neg (GoInt.wrap un) else GoInt.wrap un, None)
    end
  end.

(** The fast path of [Atoi]: fewer than 19 bytes cannot overflow. *)
Fixpoint atoi_fast_loop (s0 : string) (n : Z) (s : string)
  : Z * option error :=
  match s with
  | EmptyString => (n, None)
  | String c t =>
    let ch := (byteZ c - 48) mod 256 in
    if ch >? 9 then (0, Some (syntaxError "Atoi" s0))
    else atoi_fast_loop s0 (GoInt.add (GoInt.mul n 10) ch) t
  end.

Definition setFunc (fn : string) (e : option error) : option error :=
  match e with
  | Some (NumError _ num k) => Some (NumError fn num k)
  | other => other
  end.

(** [strconv.Atoi]. *)
Definition Atoi (s : string) : Z * option error :=
  let sLen := String.length s in
  if ((0 <? sLen) && (sLen <? 19))%nat then
    match s with
    | EmptyString => (0, Some (syntaxError "Atoi" s))
    | String c t =>
      let signed := (byteZ c =? 45) || (byteZ c =? 43) in
      let digits := if signed then t else s in
      if signed && (String.length digits <? 1)%nat then
        (0, Some (syntaxError "Atoi" s))
      else
        match atoi_fast_loop s 0 digits with
        | (n, None) => (if byteZ c =? 45 then GoInt.neg n else n, None)
        | (_, Some e) => (0, Some e)
        end
    end
  else
    let (i64, err) := ParseInt10 s in
    (i64, setFunc "Atoi" err).

(** [strconv.ParseBool]. *)
Definition ParseBool (str : string) : option bool :=
  if existsb (String.eqb str) ["1"; "t"; "T"; "TRUE"; "true"; "True"]
  then Some true
  else if existsb (String.eqb str) ["0"; "f"; "F"; "FALSE"; "false"; "False"]
  then Some false
  else None.

End Strconv.

(** The line terminator: string literals here have no escapes. *)
Definition nl : string := String (ascii_of_nat 10) EmptyString.
Definition tab : string := String (ascii_of_nat 9) EmptyString.
Definition dquote : string := String (ascii_of_nat 34) EmptyString.

(* ------------------------------------------------------------------ *)
(** ** The regular expression engine

    Package regexp is outside the repository: the prelude only chooses
    when to call it. Its two entry points are parameters of the prelude. *)

Record RegexpEngine := {
  Regexp : Type;
  (** [regexp.Compile] *)
  Compile : string -> Regexp + error;
  (** the method [Split] of a compiled expression *)
  ReSplit : Regexp -> string -> Z -> list string
}.

(* ------------------------------------------------------------------ *)
(** ** Package prelude *)

Module Prelude.

(** The package variables; [CurOut] is the writer behind Print. *)
Record Globals := {
  Filename : string;
  LineNum : Z;
  Line : string;
  Fields : list string;
  IFS : string;
  OFS : string;
  Warnings : bool;
  GolfFlgL : bool;
  GolfInPlace : bool;
  GolfInPlaceBak : string;
  CurOut : Handle
}.

(** The variables as the package initialises them. *)
Definition initial : Globals := {|
  Filename := "";
  LineNum := 0;
  Line := "";
  Fields := [];
  IFS := " ";
  OFS := " ";
  Warnings := false;
  GolfFlgL := false;
  GolfInPlace := false;
  GolfInPlaceBak := "";
  CurOut := Stdout
|}.

(** [Print]. *)
Definition Print (g : Globals) (xs : list Value) : Eff unit :=
  let xs := match xs with [] => [VString (Line g)] | _ => xs end in
  if GolfFlgL g then emit (OutPrintln (CurOut g) xs)
  else emit (OutPrint (CurOut g) xs).

(** [Warn]. *)
Definition Warn (xs : list Value) : Eff unit :=
  let xs :=
    match xs with
    | [] => [VString ("Something went wrong while golfing" +++ nl)]
    | _ => xs
    end in
  match xs with
  | VString s :: ((_ :: _) as rest) =>
    let s := if negb (Strings.HasSuffix s nl) then s +++ nl else s in
    emit (StderrPrintf s rest)
  | _ => emit (StderrPrintln xs)
  end.

(** [Die]. *)
Definition Die {A} (xs : list Value) : Eff A :=
  Warn xs ;;; exit 1.

(** [GAtoi]. *)
Definition GAtoi (g : Globals) (s : string) : Eff Z :=
  let (i, err) := Strconv.Atoi s in
  (match err with
   | Some e => if Warnings g then Warn [VError e] else ret tt
   | None => ret tt
   end) ;;;
  ret i.

(** [Field]. *)
Definition Field (g : Globals) (n : Z) : Eff string :=
  if n =? 0 then ret (Strings.Join (Fields g) (OFS g))
  else
    let n :=
      if n <? 0 then GoInt.add (GoInt.len (Fields g)) n
      else GoInt.sub n 1 in
    if (n <? 0) || (n >? GoInt.sub (GoInt.len (Fields g)) 1) then
      (if Warnings g
       then Warn [VString "undefined field: %d: %v"; VInt n;
                  VStrings (Fields g)]
       else ret tt) ;;;
      ret ""
    else
      match nth_error (Fields g) (Z.to_nat n) with
      | Some f => ret f
      | None => panic "index out of range"
      end.

(** [BackupName]. *)
Definition BackupName (orig ext : string) : string :=
  if Strings.Contains ext "*" then Strings.ReplaceAll ext "*" orig
  else orig +++ ext.

Section WithRegexp.

Variable re : RegexpEngine.

(** [sep[1 : len(sep)-1]] *)
Definition inner (sep : string) : string :=
  stake (String.length sep - 2) (sdrop 1 sep).

(** [GSplit]. *)
Definition GSplit (sep input : string) : Eff (list string) :=
  if (sep =? " ")%string then ret (Strings.Fields input)
  else if (1 <? String.length sep)%nat
          && (sbyte sep 0 =? 47)
          && (sbyte sep (String.length sep - 1) =? 47) then
    match Compile re (inner sep) with
    | inr err =>
      Die [VString "Invalid GSplit regexp separator (check -F flag): %v";
           VError err]
    | inl r => ret (ReSplit re r input (-1))
    end
  else ret (Strings.Split input sep).

End WithRegexp.

End Prelude.

(* ------------------------------------------------------------------ *)
(** ** Package flag, with the error handling of [flag.CommandLine] *)

Module Flag.

Section FlagSet.

(** The variables the flags write to. *)
Variable V : Type.

(** A registered flag: its name, whether its value is a boolean flag
    (so that it takes no argument) and the [Set] method of its value. *)
Record Flag := {
  Name : string;
  IsBoolFlag : bool;
  SetValue : string -> V -> V + error
}.

Variable formal : list Flag.

Fixpoint lookup (fs : list Flag) (name : string) : option Flag :=
  match fs with
  | [] => None
  | f :: fs' => if (Name f =? name)%string then Some f else lookup fs' name
  end.

(** [actual] is a map keyed by name: a name is recorded once. *)
Definition record_actual (name : string) (actual : list string)
  : list string :=
  if existsb (String.eqb name) actual then actual else name :: actual.

(** The scan for [=] in [parseOne], which starts at index 1: the name,
    and the value when there is one. *)
Fixpoint cut_equals (name : string) (i : nat) : string * option string :=
  match i with
  | O => (name, None)
  | S i' =>
    let k := (String.length name - i)%nat in
    if sbyte name k =? 61
    then (stake k name, Some (sdrop (S k) name))
    else cut_equals name i'
  end.

Definition split_value (name : string) : string * option string :=
  cut_equals name (String.length name - 1).

(** One round of [parseOne] on the first argument [s]; [next] is the
    argument after it, when there is one. *)
Inductive Step :=
| NotAFlag                    (* (false, nil), arguments untouched *)
| Terminator                  (* (false, nil) after dropping "--" *)
| Seen (vars : V) (name : string) (usedNext : bool)
| Failed (err : error).

Definition parseOne (s : string) (next : option string) (vars : V)
  : Step :=
  if (String.length s <? 2)%nat || negb (sbyte s 0 =? 45) then NotAFlag
  else
    let numMinuses := if sbyte s 1 =? 45 then 2%nat else 1%nat in
    if (sbyte s 1 =? 45) && (String.length s =? 2)%nat then Terminator
    else
      let name := sdrop numMinuses s in
      if (String.length name =? 0)%nat || (sbyte name 0 =? 45)
         || (sbyte name 0 =? 61) then
        Failed (Errorf "bad flag syntax: %s" [VString s])
      else
        let (name, value) := split_value name in
        match lookup formal name with
        | None =>
          if (name =? "help")%string || (name =? "h")%string
          then Failed ErrHelp
          else Failed (Errorf "flag provided but not defined: -%s"
                              [VString name])
        | Some flag =>
          if IsBoolFlag flag then
            match value with
            | Some value =>
              match SetValue flag value vars with
              | inr err =>
                Failed (Errorf "invalid boolean value %q for -%s: %v"
                               [VString value; VString name; VError err])
              | inl vars' => Seen vars' name false
              end
            | None =>
              match SetValue flag "true" vars with
              | inr err =>
                Failed (Errorf "invalid boolean flag %s: %v"
                               [VString name; VError err])
              | inl vars' => Seen vars' name false
              end
            end
          else
            let (value, usedNext) :=
              match value, next with
              | Some value, _ => (Some value, false)
              | None, Some nxt => (Some nxt, true)
              | None, None => (None, false)
              end in
            match value with
            | None =>
              Failed (Errorf "flag needs an argument: -%s" [VString name])
            | Some value =>
              match SetValue flag value vars with
              | inr err =>
                Failed (Errorf "invalid value %q for flag -%s: %v"
                               [VString value; VString name; VError err])
              | inl vars' => Seen vars' name usedNext
              end
            end
        end.

(** What [failf] and the default usage function print, then the exit
    of [ExitOnError]: status 0 for [ErrHelp], 2 otherwise. *)
Definition fail {A} (argv0 : string) (err : error) : Eff A :=
  (match err with
   | ErrHelp => ret tt
   | _ => emit (StderrPrintln [VError err])
   end) ;;;
  emit (StderrPrintf ("Usage of %s:" +++ nl) [VString argv0]) ;;;
  emit StderrPrintDefaults ;;;
  match err with
  | ErrHelp => exit 0
  | _ => exit 2
  end.

(** The result of a parse: the variables, the names that were set and
    the arguments left over ([flag.Args]). *)
Record Parsed := {
  vars : V;
  actual : list string;
  args : list string
}.

(** [Parse]: [parseOne] repeated until it sees no flag. *)
Fixpoint Parse (argv0 : string) (arguments : list string) (vs : V)
         (act : list string) : Eff Parsed :=
  match arguments with
  | [] => ret {| vars := vs; actual := act; args := [] |}
  | s :: rest =>
    match parseOne s (hd_error rest) vs with
    | NotAFlag => ret {| vars := vs; actual := act; args := arguments |}
    | Terminator => ret {| vars := vs; actual := act; args := rest |}
    | Failed err => fail argv0 err
    | Seen vs' name usedNext =>
      match usedNext, rest with
      | true, _ :: rest' => Parse argv0 rest' vs' (record_actual name act)
      | _, _ => Parse argv0 rest vs' (record_actual name act)
      end
    end
  end.

End FlagSet.

Arguments Name {V} f.
Arguments IsBoolFlag {V} f.
Arguments SetValue {V} f.
Arguments vars {V} p.
Arguments actual {V} p.
Arguments args {V} p.

(** The [Set] methods of the three kinds of value golf registers. *)
Definition errParse : error := Errorf "parse error" [].

Definition boolValue {V} (set : bool -> V -> V) (s : string) (v : V)
  : V + error :=
  match Strconv.ParseBool s with
  | Some b => inl (set b v)
  | None => inr errParse
  end.

Definition stringValue {V} (set : string -> V -> V) (s : string) (v : V)
  : V + error :=
  inl (set s v).

End Flag.

(* ------------------------------------------------------------------ *)
(** ** Command golf *)

(** [sort.Strings]: the increasing arrangement of the slice (byte-wise
    order, the order of Go's string comparison). *)
Fixpoint insert_sorted (x : string) (l : list string) : list string :=
  match l with
  | [] => [x]
  | y :: t => if String.leb x y then x :: l else y :: insert_sorted x t
  end.

Definition sort_Strings (l : list string) : list string :=
  fold_right insert_sorted [] l.

(** Running an external command to completion, as package os/exec
    reports it. *)
Inductive CmdOutcome :=
| NotStarted (err : error)
| Exited (code : Z) (output : string).

(** The operating system as the driver sees it during one run. *)
Record OS := {
  os_MkdirTemp : string -> string -> string + error;
  filepath_Abs : string -> string + error;
  filepath_Join : string -> string -> string;
  os_Getwd : string + error;
  os_Chdir : string -> option error;
  os_WriteFile : string -> string -> option error;
  os_RemoveAll : string -> option error;
  exec_Command : string -> list string -> CmdOutcome
}.

Module Golf.

(** The package-level flag variables. *)
Record FlagVars := {
  rawSrc : string;
  flgN : bool;
  flgL : bool;
  flgP : bool;
  flgG : bool;
  flgA : bool;
  flgF : string;
  inplace : bool;
  inplaceBak : string;
  flgKeep : bool;
  warnings : bool;
  goVer : string;
  help : bool;
  modules : list string;
  beginSrc : list string;
  endSrc : list string
}.

(** The defaults given at registration. *)
Definition defaults : FlagVars := {|
  rawSrc := "";
  flgN := false;
  flgL := false;
  flgP := false;
  flgG := false;
  flgA := false;
  flgF := " ";
  inplace := false;
  inplaceBak := "";
  flgKeep := false;
  warnings := false;
  goVer := "1.17";
  help := false;
  modules := [];
  beginSrc := [];
  endSrc := []
|}.

Definition set_rawSrc (x : string) (v : FlagVars) : FlagVars :=
  {| rawSrc := x; flgN := flgN v; flgL := flgL v; flgP := flgP v;
     flgG := flgG v; flgA := flgA v; flgF := flgF v; inplace := inplace v;
     inplaceBak := inplaceBak v; flgKeep := flgKeep v;
     warnings := warnings v; goVer := goVer v; help := help v;
     modules := modules v; beginSrc := beginSrc v; endSrc := endSrc v |}.
Definition set_flgN (x : bool) (v : FlagVars) : FlagVars :=
  {| rawSrc := rawSrc v; flgN := x; flgL := flgL v; flgP := flgP v;
     flgG := flgG v; flgA := flgA v; flgF := flgF v; inplace := inplace v;
     inplaceBak := inplaceBak v; flgKeep := flgKeep v;
     warnings := warnings v; goVer := goVer v; help := help v;
     modules := modules v; beginSrc := beginSrc v; endSrc := endSrc v |}.
Definition set_flgL (x : bool) (v : FlagVars) : FlagVars :=
  {| rawSrc := rawSrc v; flgN := flgN v; flgL := x; flgP := flgP v;
     flgG := flgG v; flgA := flgA v; flgF := flgF v; inplace := inplace v;
     inplaceBak := inplaceBak v; flgKeep := flgKeep v;
     warnings := warnings v; goVer := goVer v; help := help v;
     modules := modules v; beginSrc := beginSrc v; endSrc := endSrc v |}.
Definition set_flgP (x : bool) (v : FlagVars) : FlagVars :=
  {| rawSrc := rawSrc v; flgN := flgN v; flgL := flgL v; flgP := x;
     flgG := flgG v; flgA := flgA v; flgF := flgF v; inplace := inplace v;
     inplaceBak := inplaceBak v; flgKeep := flgKeep v;
     warnings := warnings v; goVer := goVer v; help := help v;
     modules := modules v; beginSrc := beginSrc v; endSrc := endSrc v |}.
Definition set_flgG (x : bool) (v : FlagVars) : FlagVars :=
  {| rawSrc := rawSrc v; flgN := flgN v; flgL := flgL v; flgP := flgP v;
     flgG := x; flgA := flgA v; flgF := flgF v; inplace := inplace v;
     inplaceBak := inplaceBak v; flgKeep := flgKeep v;
     warnings := warnings v; goVer := goVer v; help := help v;
     modules := modules v; beginSrc := beginSrc v; endSrc := endSrc v |}.
Definition set_flgA (x : bool) (v : FlagVars) : FlagVars :=
  {| rawSrc := rawSrc v; flgN := flgN v; flgL := flgL v; flgP := flgP v;
     flgG := flgG v; flgA := x; flgF := flgF v; inplace := inplace v;
     inplaceBak := inplaceBak v; flgKeep := flgKeep v;
     warnings := warnings v; goVer := goVer v; help := help v;
     modules := modules v; beginSrc := beginSrc v; endSrc := endSrc v |}.
Definition set_flgF (x : string) (v : FlagVars) : FlagVars :=
  {| rawSrc := rawSrc v; flgN := flgN v; flgL := flgL v; flgP := flgP v;
     flgG := flgG v; flgA := flgA v; flgF := x; inplace := inplace v;
     inplaceBak := inplaceBak v; flgKeep := flgKeep v;
     warnings := warnings v; goVer := goVer v; help := help v;
     modules := modules v; beginSrc := beginSrc v; endSrc := endSrc v |}.
Definition set_inplace (x : bool) (v : FlagVars) : FlagVars :=
  {| rawSrc := rawSrc v; flgN := flgN v; flgL := flgL v; flgP := flgP v;
     flgG := flgG v; flgA := flgA v; flgF := flgF v; inplace := x;
     inplaceBak := inplaceBak v; flgKeep := flgKeep v;
     warnings := warnings v; goVer := goVer v; help := help v;
     modules := modules v; beginSrc := beginSrc v; endSrc := endSrc v |}.
Definition set_inplaceBak (x : string) (v : FlagVars) : FlagVars :=
  {| rawSrc := rawSrc v; flgN := flgN v; flgL := flgL v; flgP := flgP v;
     flgG := flgG v; flgA := flgA v; flgF := flgF v; inplace := inplace v;
     inplaceBak := x; flgKeep := flgKeep v;
     warnings := warnings v; goVer := goVer v; help := help v;
     modules := modules v; beginSrc := beginSrc v; endSrc := endSrc v |}.
Definition set_flgKeep (x : bool) (v : FlagVars) : FlagVars :=
  {| rawSrc := rawSrc v; flgN := flgN v; flgL := flgL v; flgP := flgP v;
     flgG := flgG v; flgA := flgA v; flgF := flgF v; inplace := inplace v;
     inplaceBak := inplaceBak v; flgKeep := x;
     warnings := warnings v; goVer := goVer v; help := help v;
     modules := modules v; beginSrc := beginSrc v; endSrc := endSrc v |}.
Definition set_warnings (x : bool) (v : FlagVars) : FlagVars :=
  {| rawSrc := rawSrc v; flgN := flgN v; flgL := flgL v; flgP := flgP v;
     flgG := flgG v; flgA := flgA v; flgF := flgF v; inplace := inplace v;
     inplaceBak := inplaceBak v; flgKeep := flgKeep v;
     warnings := x; goVer := goVer v; help := help v;
     modules := modules v; beginSrc := beginSrc v; endSrc := endSrc v |}.
Definition set_goVer (x : string) (v : FlagVars) : FlagVars :=
  {| rawSrc := rawSrc v; flgN := flgN v; flgL := flgL v; flgP := flgP v;
     flgG := flgG v; flgA := flgA v; flgF := flgF v; inplace := inplace v;
     inplaceBak := inplaceBak v; flgKeep := flgKeep v;
     warnings := warnings v; goVer := x; help := help v;
     modules := modules v; beginSrc := beginSrc v; endSrc := endSrc v |}.
Definition set_help (x : bool) (v : FlagVars) : FlagVars :=
  {| rawSrc := rawSrc v; flgN := flgN v; flgL := flgL v; flgP := flgP v;
     flgG := flgG v; flgA := flgA v; flgF := flgF v; inplace := inplace v;
     inplaceBak := inplaceBak v; flgKeep := flgKeep v;
     warnings := warnings v; goVer := goVer v; help := x;
     modules := modules v; beginSrc := beginSrc v; endSrc := endSrc v |}.

(** [stringsValue.Set] on each of the three accumulating variables. *)
Definition append_modules (s : string) (v : FlagVars) : FlagVars + error :=
  inl {| rawSrc := rawSrc v; flgN := flgN v; flgL := flgL v;
         flgP := flgP v; flgG := flgG v; flgA := flgA v; flgF := flgF v;
         inplace := inplace v; inplaceBak := inplaceBak v;
         flgKeep := flgKeep v; warnings := warnings v; goVer := goVer v;
         help := help v; modules := modules v ++ [s];
         beginSrc := beginSrc v; endSrc := endSrc v |}.
Definition append_beginSrc (s : string) (v : FlagVars) : FlagVars + error :=
  inl {| rawSrc := rawSrc v; flgN := flgN v; flgL := flgL v;
         flgP := flgP v; flgG := flgG v; flgA := flgA v; flgF := flgF v;
         inplace := inplace v; inplaceBak := inplaceBak v;
         flgKeep := flgKeep v; warnings := warnings v; goVer := goVer v;
         help := help v; modules := modules v;
         beginSrc := beginSrc v ++ [s]; endSrc := endSrc v |}.
Definition append_endSrc (s : string) (v : FlagVars) : FlagVars + error :=
  inl {| rawSrc := rawSrc v; flgN := flgN v; flgL := flgL v;
         flgP := flgP v; flgG := flgG v; flgA := flgA v; flgF := flgF v;
         inplace := inplace v; inplaceBak := inplaceBak v;
         flgKeep := flgKeep v; warnings := warnings v; goVer := goVer v;
         help := help v; modules := modules v;
         beginSrc := beginSrc v; endSrc := endSrc v ++ [s] |}.

Definition boolFlag (name : string) (set : bool -> FlagVars -> FlagVars)
  : Flag.Flag FlagVars :=
  {| Flag.Name := name; Flag.IsBoolFlag := true;
     Flag.SetValue := Flag.boolValue set |}.
Definition stringFlag (name : string)
           (set : string -> FlagVars -> FlagVars) : Flag.Flag FlagVars :=
  {| Flag.Name := name; Flag.IsBoolFlag := false;
     Flag.SetValue := Flag.stringValue set |}.
Definition stringsFlag (name : string)
           (set : string -> FlagVars -> FlagVars + error)
  : Flag.Flag FlagVars :=
  {| Flag.Name := name; Flag.IsBoolFlag := false; Flag.SetValue := set |}.

(** The flags of [flag.CommandLine], in the order of registration: the
    package variables, then [init]. *)
Definition formal : list (Flag.Flag FlagVars) := [
  stringFlag "e" set_rawSrc;
  boolFlag "n" set_flgN;
  boolFlag "l" set_flgL;
  boolFlag "p" set_flgP;
  boolFlag "g" set_flgG;
  boolFlag "a" set_flgA;
  stringFlag "F" set_flgF;
  boolFlag "i" set_inplace;
  stringFlag "I" set_inplaceBak;
  boolFlag "k" set_flgKeep;
  boolFlag "w" set_warnings;
  stringFlag "goVer" set_goVer;
  boolFlag "help" set_help;
  boolFlag "h" set_help;
  stringsFlag "M" append_modules;
  stringsFlag "b" append_beginSrc;
  stringsFlag "BEGIN" append_beginSrc;
  stringsFlag "E" append_endSrc;
  stringsFlag "END" append_endSrc
].

(** A [map[string]bool] whose entries are all [true]: the keys. *)
Definition member (m : list string) (k : string) : bool :=
  existsb (String.eqb k) m.

(** The two maps [init] fills while visiting every flag. *)
Definition longFlags : list string :=
  map Flag.Name
      (filter (fun f => (1 <? String.length (Flag.Name f))%nat) formal).

Definition shortBoolFlags : list string :=
  map Flag.Name
      (filter (fun f => negb (1 <? String.length (Flag.Name f))%nat
                        && Flag.IsBoolFlag f) formal).

(** The inner loop of [decluster], over the letters of the cluster [v]. *)
Fixpoint cluster_loop (v : string) (i : Z) (vvs : list string)
         (res : list string) : Eff (list string) :=
  match vvs with
  | [] => ret res
  | vv :: vvs' =>
    if (i <? GoInt.sub (GoInt.slen v) 2) && negb (member shortBoolFlags vv)
    then
      Prelude.Warn [VString "-%s cannot be used inside a flag cluster";
                    VString vv] ;;;
      emit StderrPrintDefaults ;;;
      exit 1
    else cluster_loop v (i + 1) vvs' (res ++ ["-" +++ vv])
  end.

(** The outer loop of [decluster]: [i] is the index of [v] in
    [os.Args[1:]], and [Args] is [os.Args]. *)
Fixpoint decluster_loop (Args : list string) (i : nat) (rest : list string)
         (res : list string) : Eff (list string) :=
  match rest with
  | [] => ret res
  | v :: rest' =>
    match v with
    | EmptyString => panic "index out of range [0] with length 0"
    | String c0 v1 =>
      if negb (byteZ c0 =? 45) || member longFlags v1 then
        decluster_loop Args (S i) rest' (res ++ [v])
      else if (v =? "--")%string then ret (res ++ skipn i Args)
      else
        res' <- cluster_loop v 0 (Strings.Split v1 "") res ;;
        decluster_loop Args (S i) rest' res'
    end
  end.

(** [decluster]: the new value of [os.Args]. *)
Definition decluster (Args : list string) : Eff (list string) :=
  match Args with
  | [] => panic "index out of range [0] with length 0"
  | argv0 :: rest => decluster_loop Args 0 rest [argv0]
  end.

(** [dedupe]: the slice is sorted, then compacted in place; [w] is the
    write index and [r] the read index. *)
Fixpoint dedupe_loop (s : list string) (w r : nat) (n : nat)
  : list string * nat :=
  match n with
  | O => (s, w)
  | S n' =>
    let cur := nth r s "" in
    if (0 <? r)%nat && (cur =? nth (r - 1) s "")%string
    then dedupe_loop s w (S r) n'
    else dedupe_loop (firstn w s ++ cur :: skipn (S w) s) (S w) (S r) n'
  end.

Definition dedupe (s : list string) : list string :=
  let s := sort_Strings s in
  let (s', w) := dedupe_loop s 0 0 (List.length s) in
  firstn w s'.

Record Prog := {
  RawArgs : list string;
  BeginSrc : list string;
  RawSrc : string;
  EndSrc : list string;
  Src : string;
  Imports : list string;
  FlgN : bool;
  FlgP : bool;
  FlgL : bool;
  FlgA : bool;
  FlgF : string;
  InPlace : bool;
  InPlaceBak : string;
  Warnings : bool;
  Goimports : bool;
  Keep : bool;
  Prelude : string
}.

Definition helpString : string :=
  "Command golf provides some Go one-liner fun." +++ nl +++ nl
  +++ "Invoke it with a snippet of Go code in the -e flag, which will be compiled"
  +++ nl +++ "and run for you." +++ nl +++ nl
  +++ "  golf -e 'for _, v := range []string{" +++ dquote +++ "hi" +++ dquote
  +++ ", " +++ dquote +++ "bye" +++ dquote +++ "} { fmt.Println(v) }'"
  +++ nl +++ nl
  +++ "Additional flags such as -n turn on awk/perl-like line mode, which are useful"
  +++ nl
  +++ "in processing text data. See the examples and more in the Godoc for"
  +++ nl +++ "github.com/gaal/golf." +++ nl +++ nl.

(** [flag.Visit] with the function of [main]: only the flags that were
    set are visited, and the function reacts to the name F. *)
Definition visit_F (actual : list string) (v : FlagVars) : FlagVars :=
  fold_left
    (fun v name => if (name =? "F")%string then set_flgA true v else v)
    (sort_Strings actual) v.

(** [main] from its first statement to the construction of the [Prog]
    record; [preludeSrc] is what [prelude.Source] returns. The second
    component is the value of [goVer], which [run] reads. *)
Definition main_flags (preludeSrc : string) (Args : list string)
  : Eff (Prog * string) :=
  Args' <- decluster Args ;;
  parsed <- Flag.Parse FlagVars formal (hd "" Args') (tl Args')
                       defaults [] ;;
  let v := Flag.vars parsed in
  if help v then
    Prelude.Warn [VString helpString] ;;;
    emit StderrPrintDefaults ;;;
    exit 0
  else
    let v := visit_F (Flag.actual parsed) v in
    let v := set_flgN (flgN v || flgP v || flgA v) v in
    let v := set_inplace
               (inplace v || (0 <? String.length (inplaceBak v))%nat) v in
    let imps := ["io"; "os"; "regexp"; "strconv"; "strings"; "fmt"] in
    let imps := if flgN v then imps ++ ["bufio"] else imps in
    let imps := if (0 <? List.length (modules v))%nat
                then imps ++ modules v else imps in
    let imps := dedupe imps in
    ret ({| BeginSrc := beginSrc v;
            RawSrc := rawSrc v;
            EndSrc := endSrc v;
            RawArgs := Flag.args parsed;
            Src := "";
            Imports := imps;
            FlgN := flgN v;
            FlgP := flgP v;
            FlgL := flgL v;
            FlgA := flgA v;
            FlgF := flgF v;
            InPlace := inplace v;
            InPlaceBak := inplaceBak v;
            Warnings := warnings v;
            Goimports := flgG v;
            Keep := flgKeep v;
            Prelude := preludeSrc |}, goVer v).

(** [cmd.Run]: nil exactly when the command ran and exited with status
    zero; and [cmd.ProcessState.ExitCode]. *)
Definition cmd_Run (c : CmdOutcome) : option error :=
  match c with
  | NotStarted err => Some err
  | Exited code _ => if code =? 0 then None else Some (ExitError code)
  end.

Definition ExitCode (c : CmdOutcome) : Z :=
  match c with
  | NotStarted _ => -1
  | Exited code _ => code
  end.

Section Driver.

Variable os : OS.

(** [do]: the command runs with the driver's own stdio. *)
Definition do (c : string) (args : list string) : option error :=
  let cmd := exec_Command os c args in
  match cmd_Run cmd with
  | Some err => Some err
  | None => if negb (ExitCode cmd =? 0) then Some ErrGolf else None
  end.

(** [doQ]. *)
Definition doQ (c : string) (args : list string) : option error :=
  let cmd := exec_Command os c args in
  match cmd_Run cmd with
  | Some err => Some err
  | None =>
    if negb (ExitCode cmd =? 0) then
      Some (Errorf "%s"
              [VString match cmd with
                       | Exited _ out => out
                       | NotStarted _ => ""
                       end])
    else None
  end.

Definition is_ErrGolf (e : error) : bool :=
  match e with ErrGolf => true | _ => false end.

Definition binname : string := "golfing".

(** The body of [run] once the scratch directory exists. *)
Definition run_in (p : Prog) (goVersion : string) (tmpdir : string)
  : Eff Z :=
  match os_Getwd os with
  | inr err =>
    Prelude.Warn [VString ("golf: original dir: %v" +++ nl); VError err] ;;;
    ret 1
  | inl origdir =>
  match os_Chdir os tmpdir with
  | Some err => Prelude.Warn [VString "golf: %v"; VError err] ;;; ret 1
  | None =>
  let tmpfile := filepath_Join os tmpdir "golfe.go" in
  match os_WriteFile os tmpfile (Src p) with
  | Some err => Prelude.Warn [VString "golf: %v"; VError err] ;;; ret 1
  | None =>
  goimports <-
    (if Goimports p then
       Prelude.Warn [VString ">>goimports"] ;;;
       match doQ "goimports" ["-w"; "."] with
       | Some err =>
         Prelude.Warn [VString ("golf: goimports: %v" +++ nl);
                       VError err] ;;;
         ret false
       | None => ret true
       end
     else ret true) ;;
  if negb goimports then ret 1 else
  let needTidy := existsb (fun v => Strings.Contains v "/") (Imports p) in
  tidied <-
    (if needTidy then
       match doQ "go" ["mod"; "init"; "example.com/golf"] with
       | Some err =>
         emit (StderrPrintf ("golf: mod init: %v" +++ nl) [VError err]) ;;;
         ret false
       | None =>
         match doQ "go" ["mod"; "tidy"] with
         | Some err =>
           emit (StderrPrintf ("golf: mod tidy: %v" +++ nl)
                              [VError err]) ;;;
           ret false
         | None => ret true
         end
       end
     else
       let tidy := "module example.com/golf" +++ nl +++ nl +++ "go "
                   +++ goVersion +++ nl in
       match os_WriteFile os "go.mod" tidy with
       | Some err =>
         emit (StderrPrintf ("golf: writing mod file: %v" +++ nl)
                            [VError err]) ;;;
         ret true
       | None => ret true
       end) ;;
  if negb tidied then ret 1 else
  match do "go" ["build"; "-o"; binname; "."] with
  | Some err =>
    (if negb (is_ErrGolf err)
     then Prelude.Warn [VString "golf: %v"; VError err] else ret tt) ;;;
    ret 1
  | None =>
  match os_Chdir os origdir with
  | Some err =>
    Prelude.Warn [VString "golf: returning to original dir: %v";
                  VError err] ;;;
    ret 1
  | None =>
  match do (filepath_Join os tmpdir binname) (RawArgs p) with
  | Some err =>
    (if negb (is_ErrGolf err)
     then Prelude.Warn [VString "golf: %v"; VError err] else ret tt) ;;;
    ret 1
  | None => ret 0
  end end end end end end.

(** [Prog.run]: the value it returns is the exit status of golf. The
    deferred removal of the scratch directory runs after the body. *)
Definition run (p : Prog) (goVersion : string) : Eff Z :=
  match os_MkdirTemp os "" "golf-" with
  | inr err =>
    Prelude.Warn [VString ("golf: mkdir tmp: %v" +++ nl); VError err] ;;;
    ret 1
  | inl tmpdir =>
    match filepath_Abs os tmpdir with
    | inr err =>
      Prelude.Warn [VString ("golf: abs tmp: %v" +++ nl); VError err] ;;;
      ret 1
    | inl tmpdir =>
      (if Keep p then emit (StderrPrintln [VString tmpdir]) else ret tt) ;;;
      code <- run_in p goVersion tmpdir ;;
      (if Keep p then ret tt
       else
         match os_RemoveAll os tmpdir with
         | Some err =>
           Prelude.Warn [VString ("golf: rmall tmp: %v" +++ nl);
                         VError err]
         | None => ret tt
         end) ;;;
      ret code
    end
  end.

End Driver.

Section Main.

Variable os : OS.
(** The two library calls of [transform]: the execution of the template
    [program] on the record, and [format.Source]. *)
Variable execute : Prog -> string + error.
Variable format_Source : string -> string + error.

Definition with_Src (src : string) (p : Prog) : Prog :=
  {| RawArgs := RawArgs p; BeginSrc := BeginSrc p; RawSrc := RawSrc p;
     EndSrc := EndSrc p; Src := src; Imports := Imports p; FlgN := FlgN p;
     FlgP := FlgP p; FlgL := FlgL p; FlgA := FlgA p; FlgF := FlgF p;
     InPlace := InPlace p; InPlaceBak := InPlaceBak p;
     Warnings := Warnings p; Goimports := Goimports p; Keep := Keep p;
     Prelude := Prelude p |}.

(** [transform]: a formatting failure is passed over in silence. *)
Definition transform (p : Prog) : Prog + error :=
  match execute p with
  | inr err => inr err
  | inl s =>
    match format_Source s with
    | inr _ => inl (with_Src s p)
    | inl src => inl (with_Src src p)
    end
  end.

(** [main]: it ends in [os.Exit] on every path. *)
Definition main (preludeSrc : string) (Args : list string) : Eff unit :=
  pg <- main_flags preludeSrc Args ;;
  match transform (fst pg) with
  | inr err => Prelude.Warn [VString "golf: %v"; VError err] ;;; exit 1
  | inl p => code <- run os p (snd pg) ;; exit code
  end.

End Main.

End Golf.

(* ------------------------------------------------------------------ *)
(** ** The generated program: the scaffold of the template [program] *)

Module Scaffold.

Import Prelude.

(** An opened input as the scanner delivers it: its lines, and the error
    the scanner stops on, if any. *)
Record Input := {
  lines : list string;
  scanErr : option error
}.

(** The file system calls of the scaffold, with Go's result pairs. *)
Record FS := {
  os_Open : string -> Input * option error;
  os_Remove : string -> option error;
  os_Rename : string -> string -> option error;
  os_Create : string -> Handle * option error;
  file_Close : Handle -> option error
}.

(** How the user's snippet leaves: by falling through, or by a labelled
    [continue] or [break]. *)
Inductive Control :=
| FallThrough
| ContinueLine
| BreakLine
| ContinueFile
| BreakFile.

(** The variables of [main] and of the prelude the scaffold writes. *)
Record State := {
  globals : Globals;
  _golfPDirty : bool
}.

Definition with_CurOut (h : Handle) (g : Globals) : Globals :=
  {| Filename := Filename g; LineNum := LineNum g; Line := Line g;
     Fields := Fields g; IFS := IFS g; OFS := OFS g;
     Warnings := Warnings g; GolfFlgL := GolfFlgL g;
     GolfInPlace := GolfInPlace g; GolfInPlaceBak := GolfInPlaceBak g;
     CurOut := h |}.

Definition with_Filename (f : string) (g : Globals) : Globals :=
  {| Filename := f; LineNum := LineNum g; Line := Line g;
     Fields := Fields g; IFS := IFS g; OFS := OFS g;
     Warnings := Warnings g; GolfFlgL := GolfFlgL g;
     GolfInPlace := GolfInPlace g; GolfInPlaceBak := GolfInPlaceBak g;
     CurOut := CurOut g |}.

Definition with_LineNum (n : Z) (g : Globals) : Globals :=
  {| Filename := Filename g; LineNum := n; Line := Line g;
     Fields := Fields g; IFS := IFS g; OFS := OFS g;
     Warnings := Warnings g; GolfFlgL := GolfFlgL g;
     GolfInPlace := GolfInPlace g; GolfInPlaceBak := GolfInPlaceBak g;
     CurOut := CurOut g |}.

Definition with_Line (l : string) (g : Globals) : Globals :=
  {| Filename := Filename g; LineNum := LineNum g; Line := l;
     Fields := Fields g; IFS := IFS g; OFS := OFS g;
     Warnings := Warnings g; GolfFlgL := GolfFlgL g;
     GolfInPlace := GolfInPlace g; GolfInPlaceBak := GolfInPlaceBak g;
     CurOut := CurOut g |}.

Definition with_Fields (fs : list string) (g : Globals) : Globals :=
  {| Filename := Filename g; LineNum := LineNum g; Line := Line g;
     Fields := fs; IFS := IFS g; OFS := OFS g;
     Warnings := Warnings g; GolfFlgL := GolfFlgL g;
     GolfInPlace := GolfInPlace g; GolfInPlaceBak := GolfInPlaceBak g;
     CurOut := CurOut g |}.

Definition without_InPlace (g : Globals) : Globals :=
  {| Filename := Filename g; LineNum := LineNum g; Line := Line g;
     Fields := Fields g; IFS := IFS g; OFS := OFS g;
     Warnings := Warnings g; GolfFlgL := GolfFlgL g;
     GolfInPlace := false; GolfInPlaceBak := "";
     CurOut := CurOut g |}.

(** The assignments of the generated [init]. *)
Definition init (p : Golf.Prog) : Globals :=
  {| Filename := ""; LineNum := 0; Line := ""; Fields := [];
     IFS := Golf.FlgF p; OFS := " ";
     Warnings := Golf.Warnings p; GolfFlgL := Golf.FlgL p;
     GolfInPlace := Golf.InPlace p; GolfInPlaceBak := Golf.InPlaceBak p;
     CurOut := Stdout |}.

Definition handle_eqb (a b : Handle) : bool :=
  match a, b with
  | Stdout, Stdout => true
  | FileOut x, FileOut y => (x =? y)%string
  | _, _ => false
  end.

Section Program.

Variable fs : FS.
Variable re : RegexpEngine.
(** The template parameters the scaffold depends on. *)
Variable p : Golf.Prog.
(** The code given with -e, run with the prelude's variables in scope. *)
Variable snippet : Globals -> Eff (Globals * Control).

Definition _golfFlushP (st : State) : Eff State :=
  if _golfPDirty st then
    Print (globals st) [VString (Line (globals st))] ;;;
    ret {| globals := globals st; _golfPDirty := false |}
  else ret st.

Definition _golfCloseOut (st : State) : Eff State :=
  if handle_eqb (CurOut (globals st)) Stdout then ret st
  else
    emit (OutClose (CurOut (globals st))) ;;;
    (match file_Close fs (CurOut (globals st)) with
     | Some err =>
       Warn [VString "golf: can't close current output: %v"; VError err]
     | None => ret tt
     end) ;;;
    ret {| globals := with_CurOut Stdout (globals st);
           _golfPDirty := _golfPDirty st |}.

(** The head of the File loop body: from the flush of the previous
    file down to [LineNum = 0]. [err] is the variable declared by the
    call of [os.Open]. *)
Definition open_file (st : State) (name : string) : Eff (State * Input) :=
  let st := {| globals := with_Filename name (globals st);
               _golfPDirty := _golfPDirty st |} in
  st <- _golfFlushP st ;;
  st <- _golfCloseOut st ;;
  let g := globals st in
  let '(_golfFile, err) := os_Open fs (Filename g) in
  (match err with
   | Some e => Die [VError e]
   | None => ret tt
   end) ;;;
  g <-
    (if GolfInPlace g then
       (if (GolfInPlaceBak g =? "")%string then
          match os_Remove fs (Filename g) with
          | Some err =>
            Die [VString "golf: can't remove input file: %v"; VError err]
          | None => ret tt
          end
        else
          let bakname := BackupName (Filename g) (GolfInPlaceBak g) in
          let _ := os_Rename fs (Filename g) bakname in
          match err with
          | Some e => Die [VString "golf: in-place backup: %v"; VError e]
          | None => ret tt
          end) ;;;
       let '(out, err) := os_Create fs (Filename g) in
       match err with
       | Some e => Die [VString "golf: can't create output: %v"; VError e]
       | None => ret (with_CurOut out g)
       end
     else ret g) ;;
  ret ({| globals := with_LineNum 0 g; _golfPDirty := _golfPDirty st |},
       _golfFile).

(** The Line loop over the lines the scanner still holds. The control
    it returns is what reaches the File loop. *)
Fixpoint line_loop (ls : list string) (st : State)
  : Eff (State * Control) :=
  match ls with
  | [] => ret (st, FallThrough)
  | l :: ls' =>
    st <- _golfFlushP st ;;
    let g := globals st in
    let g := with_LineNum (GoInt.add (LineNum g) 1) g in
    let g := with_Line (if negb (Golf.FlgL p) then l +++ nl else l) g in
    let dirty := Golf.FlgP p in
    g <- (if Golf.FlgA p
          then fields <- GSplit re (IFS g) (Line g) ;;
               ret (with_Fields fields g)
          else ret g) ;;
    r <- snippet g ;;
    let st := {| globals := fst r; _golfPDirty := dirty |} in
    match snd r with
    | FallThrough | ContinueLine => line_loop ls' st
    | BreakLine => ret (st, BreakLine)
    | ContinueFile => ret (st, ContinueFile)
    | BreakFile => ret (st, BreakFile)
    end
  end.

(** One round of the File loop. *)
Definition file_body (st : State) (name : string)
  : Eff (State * Control) :=
  o <- open_file st name ;;
  r <- line_loop (lines (snd o)) (fst o) ;;
  match snd r with
  | ContinueFile => ret (fst r, ContinueFile)
  | BreakFile => ret (fst r, BreakFile)
  | BreakLine => ret (fst r, ContinueFile)
  | _ =>
    match scanErr (snd o) with
    | Some err =>
      Die [VString "%s: %v"; VString (Filename (globals (fst r)));
           VError err]
    | None => ret (fst r, ContinueFile)
    end
  end.

Fixpoint file_loop (names : list string) (st : State) : Eff State :=
  match names with
  | [] => ret st
  | name :: names' =>
    r <- file_body st name ;;
    match snd r with
    | BreakFile => ret (fst r)
    | _ => file_loop names' (fst r)
    end
  end.

(** The line-mode part of the generated [main], between the -b and
    the -E blocks; [args] is [os.Args[1:]] of the generated program. *)
Definition line_mode (g : Globals) (args : list string) : Eff State :=
  let st := {| globals := g; _golfPDirty := false |} in
  let '(names, st) :=
    if (List.length args =? 0)%nat
    then (["/dev/stdin"],
          {| globals := without_InPlace g; _golfPDirty := false |})
    else (args, st) in
  st <- file_loop names st ;;
  st <- _golfFlushP st ;;
  _golfCloseOut st.

End Program.

End Scaffold.

(* ------------------------------------------------------------------ *)
(** ** Reading aids for the proofs *)

Module Aux.

Import Golf.

(** The outer loop of [decluster] told by the argument that precedes
    [rest] in [os.Args] rather than by the index: [os.Args[i:]] is then
    [prev :: rest]. *)
Fixpoint decluster_from (prev : string) (rest : list string)
         (res : list string) : Eff (list string) :=
  match rest with
  | [] => ret res
  | v :: rest' =>
    match v with
    | EmptyString => panic "index out of range [0] with length 0"
    | String c0 v1 =>
      if negb (byteZ c0 =? 45) || member longFlags v1 then
        decluster_from v rest' (res ++ [v])
      else if (v =? "--")%string then ret (res ++ prev :: rest)
      else
        res' <- cluster_loop v 0 (Strings.Split v1 "") res ;;
        decluster_from v rest' res'
    end
  end.

(** A cluster given by its letters, and the same letters as separate
    one-letter flags. *)
Definition letter (c : ascii) : string := String c EmptyString.
Definition cluster (cs : list ascii) : string :=
  String "-" (string_of_list_ascii cs).
Definition separate (cs : list ascii) : list string :=
  map (fun c => "-" +++ letter c) cs.

(** The letters that are registered as boolean flags. *)
Definition no_value_flag (c : ascii) : Prop :=
  member shortBoolFlags (letter c) = true.

(** The relation between the separator variable and the set of flags
    that were given, kept by every round of [Parse]: as long as F was not
    given, the separator is the default. *)
Definition separator_untouched (vs : FlagVars) (act : list string) : Prop :=
  member act "F" = false -> flgF vs = " ".

(** The run gets as far as starting the generated program: the scratch
    directory, the source file, the optional goimports pass, the module
    file and the build all succeed, and the driver is back in the
    original directory. *)
Definition reaches_execution (os : OS) (p : Prog) (tmpdir origdir : string)
  : Prop :=
  (exists tmp, os_MkdirTemp os "" "golf-" = inl tmp
               /\ filepath_Abs os tmp = inl tmpdir)
  /\ os_Getwd os = inl origdir
  /\ os_Chdir os tmpdir = None
  /\ os_WriteFile os (filepath_Join os tmpdir "golfe.go") (Src p) = None
  /\ (Goimports p = true -> doQ os "goimports" ["-w"; "."] = None)
  /\ (existsb (fun v => Strings.Contains v "/") (Imports p) = true ->
      doQ os "go" ["mod"; "init"; "example.com/golf"] = None
      /\ doQ os "go" ["mod"; "tidy"] = None)
  /\ do os "go" ["build"; "-o"; binname; "."] = None
  /\ os_Chdir os origdir = None.

End Aux.

(* ------------------------------------------------------------------ *)
(** ** The specification's own words, as functions to compare with *)

Module Spec.

(** "the pattern contains a wildcard marker" *)
Fixpoint has_wildcard (pattern : string) : bool :=
  match pattern with
  | EmptyString => false
  | String c t => (c =? "*")%char || has_wildcard t
  end.

(** "every wildcard marker in the pattern is replaced with the original
    name" *)
Fixpoint replace_every_wildcard (orig pattern : string) : string :=
  match pattern with
  | EmptyString => EmptyString
  | String c t =>
    if (c =? "*")%char then orig +++ replace_every_wildcard orig t
    else String c (replace_every_wildcard orig t)
  end.

(** "if the configured pattern contains no wildcard marker, it is appended
    to the original name as a literal suffix; otherwise every wildcard
    marker in the pattern is replaced with the original name" *)
Definition backup_name (orig pattern : string) : string :=
  if has_wildcard pattern then replace_every_wildcard orig pattern
  else orig +++ pattern.

(** "split on any run of whitespace, discarding leading/trailing
    whitespace": the input is cut at every whitespace rune, and the empty
    pieces (between two neighbours of a run, before a leading and after a
    trailing whitespace) are discarded. *)
Fixpoint pieces (rs : list (Z * string)) : list string :=
  match rs with
  | [] => [""]
  | (r, bytes) :: rs' =>
    if Unicode.IsSpace r then "" :: pieces rs'
    else
      match pieces rs' with
      | s :: t => (bytes +++ s) :: t
      | [] => [bytes]
      end
  end.

Definition nonempty (s : string) : bool := negb (s =? "")%string.

Definition whitespace_fields (input : string) : list string :=
  filter nonempty (pieces (Utf8.runes input)).

(** "a separator wrapped in /.../" *)
Definition wrapped_in_slashes (sep : string) : Prop :=
  exists pat, sep = "/" +++ pat +++ "/".

(** "for every exit status the child process produces, golf's run
    function returns that same status" *)
Definition exit_status_propagated : Prop :=
  forall (os : OS) (p : Golf.Prog) (goVersion tmpdir origdir : string)
         (code : Z) (output : string),
    Aux.reaches_execution os p tmpdir origdir ->
    exec_Command os (filepath_Join os tmpdir Golf.binname) (Golf.RawArgs p)
    = Exited code output ->
    result (Golf.run os p goVersion) = Ret code.

End Spec.

(* ------------------------------------------------------------------ *)
(** ** Sample inputs *)

Definition sample_globals : Prelude.Globals :=
  Scaffold.with_Fields ["a"; "b"; "c"] Prelude.initial.

(** A machine on which every step of the driver succeeds and the generated
    program exits with status 2. *)
Definition sample_os : OS := {|
  os_MkdirTemp := fun _ _ => inl "/tmp/golf-1";
  filepath_Abs := fun path => inl path;
  filepath_Join := fun dir name => dir +++ "/" +++ name;
  os_Getwd := inl "/home/gopher";
  os_Chdir := fun _ => None;
  os_WriteFile := fun _ _ => None;
  os_RemoveAll := fun _ => None;
  exec_Command := fun c _ =>
    if (c =? "/tmp/golf-1/golfing")%string then Exited 2 "" else Exited 0 ""
|}.

Definition sample_prog : Golf.Prog := {|
  Golf.RawArgs := [];
  Golf.BeginSrc := [];
  Golf.RawSrc := "os.Exit(2)";
  Golf.EndSrc := [];
  Golf.Src := "package main";
  Golf.Imports := ["fmt"; "io"; "os"; "regexp"; "strconv"; "strings"];
  Golf.FlgN := false;
  Golf.FlgP := false;
  Golf.FlgL := false;
  Golf.FlgA := false;
  Golf.FlgF := " ";
  Golf.InPlace := false;
  Golf.InPlaceBak := "";
  Golf.Warnings := false;
  Golf.Goimports := false;
  Golf.Keep := false;
  Golf.Prelude := ""
|}.

(** A file system on which the input f opens and the output can be
    created, but the backup cannot be made: the directory named by the
    pattern does not exist. The file is then still linked under its name
    when [os.Create] truncates it, so the scanner that reads it afterwards
    delivers no line, whatever the file held. *)
Definition sample_fs : Scaffold.FS := {|
  Scaffold.os_Open := fun _ =>
    ({| Scaffold.lines := []; Scaffold.scanErr := None |}, None);
  Scaffold.os_Remove := fun _ => None;
  Scaffold.os_Rename := fun old new =>
    Some (PathError "rename" old "no such file or directory");
  Scaffold.os_Create := fun name => (FileOut name, None);
  Scaffold.file_Close := fun _ => None
|}.

(** An engine that knows the one expression [0-9] and splits by it as
    Go's does: at every decimal digit. *)
Fixpoint split_at_digits (cur s : string) : list string :=
  match s with
  | EmptyString => [cur]
  | String c t =>
    if (48 <=? byteZ c) && (byteZ c <=? 57)
    then cur :: split_at_digits "" t
    else split_at_digits (cur +++ String c "") t
  end.

Definition digit_engine : RegexpEngine := {|
  Regexp := unit;
  Compile := fun pat =>
    if (pat =? "[0-9]")%string then inl tt
    else inr (Errorf "error parsing regexp" [VString pat]);
  ReSplit := fun _ input _ => split_at_digits "" input
|}.

(** An engine that knows no expression: enough where -F is not used. *)
Definition no_regexp : RegexpEngine := {|
  Regexp := unit;
  Compile := fun pat => inr (Errorf "error parsing regexp" [VString pat]);
  ReSplit := fun _ input _ => [input]
|}.

(** The parameters of an in-place run in pipe mode on the file f, with a
    backup pattern that names a directory: missing/ followed by the
    wildcard. *)
Definition sample_inplace_prog : Golf.Prog := {|
  Golf.RawArgs := ["f"];
  Golf.BeginSrc := [];
  Golf.RawSrc := "";
  Golf.EndSrc := [];
  Golf.Src := "";
  Golf.Imports := ["bufio"; "fmt"; "io"; "os"; "regexp"; "strconv"; "strings"];
  Golf.FlgN := true;
  Golf.FlgP := true;
  Golf.FlgL := false;
  Golf.FlgA := false;
  Golf.FlgF := " ";
  Golf.InPlace := true;
  Golf.InPlaceBak := "missing/*";
  Golf.Warnings := false;
  Golf.Goimports := false;
  Golf.Keep := false;
  Golf.Prelude := ""
|}.

(** The empty snippet. *)
Definition empty_snippet (g : Prelude.Globals)
  : Eff (Prelude.Globals * Scaffold.Control) :=
  ret (g, Scaffold.FallThrough).

(* ------------------------------------------------------------------ *)
(** ** Further reading aids: imports, accumulating flags, the scratch run *)

From Stdlib Require Import Sorting.Sorted.

(** A slice without the elements that repeat their left neighbour;
    [prev] is the element before the slice, if any. *)
Fixpoint drop_repeats (prev : option string) (l : list string)
  : list string :=
  match l with
  | [] => []
  | x :: t =>
    match prev with
    | Some p =>
      if (x =? p)%string then drop_repeats (Some x) t
      else x :: drop_repeats (Some x) t
    | None => x :: drop_repeats (Some x) t
    end
  end.

(** Strictly before, in the byte-wise order of strings. *)
Definition strictly_before (a b : string) : Prop :=
  String.leb a b = true /\ a <> b.

(** The packages every generated program imports. *)
Definition baseline_imports : list string :=
  ["io"; "os"; "regexp"; "strconv"; "strings"; "fmt"].

(** An argument that is no flag: it is not empty and does not start
    with a dash. *)
Definition plain (v : string) : Prop :=
  exists c t, v = String c t /\ byteZ c <> 45.

(** An argument that holds no cluster: a plain argument, a long flag, or
    one dash and one ASCII letter. *)
Definition unclustered (v : string) : Prop :=
  plain v
  \/ (exists name, v = "-" +++ name
                   /\ Golf.member Golf.longFlags name = true)
  \/ (exists c, v = Aux.cluster [c]
                /\ (byteZ c <? Utf8.RuneSelf) = true /\ c <> "-"%char).

(** The spellings of the flags whose values accumulate. *)
Inductive AccFlag := AccM | Accb | AccBEGIN | AccE | AccEND.

Definition acc_name (k : AccFlag) : string :=
  match k with
  | AccM => "M"
  | Accb => "b"
  | AccBEGIN => "BEGIN"
  | AccE => "E"
  | AccEND => "END"
  end.

(** The arguments that give the values [items], each after its flag. *)
Definition acc_args (items : list (AccFlag * string)) : list string :=
  flat_map (fun kv => ["-" +++ acc_name (fst kv); snd kv]) items.

Definition is_module (k : AccFlag) : bool :=
  match k with AccM => true | _ => false end.
Definition is_begin (k : AccFlag) : bool :=
  match k with Accb | AccBEGIN => true | _ => false end.
Definition is_end (k : AccFlag) : bool :=
  match k with AccE | AccEND => true | _ => false end.

(** The values given with the flags that [sel] selects, in the order of
    the command line. *)
Definition values_of (sel : AccFlag -> bool) (items : list (AccFlag * string))
  : list string :=
  map snd (filter (fun kv => sel (fst kv)) items).

(** What [Set] does to the variables for one accumulating flag. *)
Definition acc_apply (vs : Golf.FlagVars) (kv : AccFlag * string)
  : Golf.FlagVars :=
  match (match fst kv with
         | AccM => Golf.append_modules (snd kv) vs
         | Accb | AccBEGIN => Golf.append_beginSrc (snd kv) vs
         | AccE | AccEND => Golf.append_endSrc (snd kv) vs
         end) with
  | inl vs' => vs'
  | inr _ => vs
  end.

(** The same machine with another answer to the removal of the scratch
    directory. *)
Definition with_RemoveAll (f : string -> option error) (os : OS) : OS :=
  {| os_MkdirTemp := os_MkdirTemp os;
     filepath_Abs := filepath_Abs os;
     filepath_Join := filepath_Join os;
     os_Getwd := os_Getwd os;
     os_Chdir := os_Chdir os;
     os_WriteFile := os_WriteFile os;
     os_RemoveAll := f;
     exec_Command := exec_Command os |}.

(* ------------------------------------------------------------------ *)
(** ** Reading aids for the scaffold *)

(** A snippet that only observes the variables of the prelude: it
    produces output that depends on them, changes none and falls through
    (as Print(LineNum, Line) does). *)
Definition observer (obs : Prelude.Globals -> list Event)
           (g : Prelude.Globals)
  : Eff (Prelude.Globals * Scaffold.Control) :=
  (obs g, Ret (g, Scaffold.FallThrough)).

(** The value of [Line] for a scanned line: with its terminator unless -l
    was given. *)
Definition shown (p : Golf.Prog) (l : string) : string :=
  if negb (Golf.FlgL p) then l +++ nl else l.

(** What [Print()] writes: the current line to the current output. *)
Definition print_event (g : Prelude.Globals) : Event :=
  if Prelude.GolfFlgL g
  then OutPrintln (Prelude.CurOut g) [VString (Prelude.Line g)]
  else OutPrint (Prelude.CurOut g) [VString (Prelude.Line g)].

(** The line that is owed to the output, if any. *)
Definition pending (st : Scaffold.State) : list Event :=
  if Scaffold._golfPDirty st then [print_event (Scaffold.globals st)]
  else [].

(** The closing of an output, when it is a file. *)
Definition closing (h : Handle) : list Event :=
  match h with
  | Stdout => []
  | FileOut _ => [OutClose h]
  end.

(** Where the output of a file goes: to its replacement in in-place
    mode, to standard output otherwise. *)
Definition destination (inpl : bool) (name : string) : Handle :=
  if inpl then FileOut name else Stdout.

(** The variables of the prelude during a run of the program generated
    for [p], where no snippet writes to them: only the file name, the line
    number, the line, the fields and the output vary. [inpl] and [bak] are
    the in-place settings in force. *)
Definition run_globals (p : Golf.Prog) (inpl : bool) (bak : string)
           (name : string) (k : Z) (line : string) (fields : list string)
           (h : Handle) : Prelude.Globals :=
  {| Prelude.Filename := name;
     Prelude.LineNum := k;
     Prelude.Line := line;
     Prelude.Fields := fields;
     Prelude.IFS := Golf.FlgF p;
     Prelude.OFS := " ";
     Prelude.Warnings := Golf.Warnings p;
     Prelude.GolfFlgL := Golf.FlgL p;
     Prelude.GolfInPlace := inpl;
     Prelude.GolfInPlaceBak := bak;
     Prelude.CurOut := h |}.

(** The variables as the snippet finds them at line number [k] of the
    file [name], the scanner having delivered [l]; [split] is what -a
    mode splits a line into. *)
Definition at_line (p : Golf.Prog) (inpl : bool) (bak : string)
           (split : string -> list string) (name : string) (h : Handle)
           (k : Z) (l : string) : Prelude.Globals :=
  run_globals p inpl bak name k (shown p l)
              (if Golf.FlgA p then split (shown p l) else []) h.

(** What the program does for the lines [ls] of the file [name], the
    first of them being line number [k]: the snippet sees each line, and in
    pipe mode the line is printed after it. *)
Fixpoint line_events (p : Golf.Prog) (inpl : bool) (bak : string)
         (split : string -> list string)
         (obs : Prelude.Globals -> list Event) (name : string) (h : Handle)
         (k : Z) (ls : list string) : list Event :=
  match ls with
  | [] => []
  | l :: ls' =>
    let g := at_line p inpl bak split name h k l in
    obs g ++ (if Golf.FlgP p then [print_event g] else [])
        ++ line_events p inpl bak split obs name h (k + 1) ls'
  end.

(** What the program does for a whole file, and for a list of files. *)
Definition file_events (p : Golf.Prog) (inpl : bool) (bak : string)
           (split : string -> list string)
           (obs : Prelude.Globals -> list Event)
           (content : string -> list string) (name : string) : list Event :=
  line_events p inpl bak split obs name (destination inpl name) 1
              (content name)
  ++ closing (destination inpl name).

Definition run_events (p : Golf.Prog) (inpl : bool) (bak : string)
           (split : string -> list string)
           (obs : Prelude.Globals -> list Event)
           (content : string -> list string) (names : list string)
  : list Event :=
  flat_map (file_events p inpl bak split obs content) names.

(** The files can be read: each opens, and the scanner delivers the
    lines [content] without error (fewer of them than an int counts). *)
Definition readable (fs : Scaffold.FS) (content : string -> list string)
           (names : list string) : Prop :=
  forall name, In name names ->
    Scaffold.os_Open fs name
    = ({| Scaffold.lines := content name; Scaffold.scanErr := None |}, None)
    /\ Z.of_nat (List.length (content name)) <= GoInt.maxInt.

(** The files can be replaced: the original can be unlinked where no
    backup is asked for, and the replacement can be created and closed. *)
Definition replaceable (fs : Scaffold.FS) (bak : string)
           (names : list string) : Prop :=
  forall name, In name names ->
    (bak = "" -> Scaffold.os_Remove fs name = None)
    /\ Scaffold.os_Create fs name = (FileOut name, None)
    /\ Scaffold.file_Close fs (FileOut name) = None.

(** What ends a round of the File loop: the diagnostic of a read error. *)
Definition scan_diag (name : string) (serr : option error) : list Event :=
  match serr with
  | Some err => [StderrPrintf ("%s: %v" +++ nl) [VString name; VError err]]
  | None => []
  end.

(** An output the program can close without a warning. *)
Definition closable (fs : Scaffold.FS) (h : Handle) : Prop :=
  h = Stdout \/ Scaffold.file_Close fs h = None.

(** -a mode splits without failing: [split] is what [GSplit] returns
    with the separator of the program. *)
Definition splits_with (re : RegexpEngine) (p : Golf.Prog)
           (split : string -> list string) : Prop :=
  Golf.FlgA p = true ->
  forall input, Prelude.GSplit re (Golf.FlgF p) input = ret (split input).

(** The bytes an output event writes to [h], for the calls the scaffold
    makes: [Fprint] writes a single string operand as it is, [Fprintln]
    adds a newline. *)
Definition written_by (h : Handle) (e : Event) : string :=
  match e with
  | OutPrint h' [VString s] =>
    if Scaffold.handle_eqb h' h then s else ""
  | OutPrintln h' [VString s] =>
    if Scaffold.handle_eqb h' h then s +++ nl else ""
  | _ => ""
  end.

Fixpoint written (h : Handle) (evs : list Event) : string :=
  match evs with
  | [] => ""
  | e :: evs' => written_by h e +++ written h evs'
  end.

(** The lines put together again, each with its terminator. *)
Fixpoint unlines (ls : list string) : string :=
  match ls with
  | [] => ""
  | l :: ls' => l +++ nl +++ unlines ls'
  end.

(** The lines that end up on [h]: those of the files whose output goes
    there. *)
Definition content_for (inpl : bool) (h : Handle)
           (content : string -> list string) (names : list string)
  : list string :=
  flat_map (fun name =>
              if Scaffold.handle_eqb (destination inpl name) h
              then content name else []) names.

(** The snippet Print(LineNum, Line), as an observer. *)
Definition numbering (g : Prelude.Globals) : list Event :=
  events (Prelude.Print g [VInt (Prelude.LineNum g);
                           VString (Prelude.Line g)]).

(** A file system on which the file a holds two lines and every other
    file one, and on which files can be renamed and replaced. *)
Definition two_files (name : string) : list string :=
  if (name =? "a")%string then ["x y"; "z"] else ["w"].

Definition two_files_fs : Scaffold.FS := {|
  Scaffold.os_Open := fun name =>
    ({| Scaffold.lines := two_files name; Scaffold.scanErr := None |}, None);
  Scaffold.os_Remove := fun _ => None;
  Scaffold.os_Rename := fun _ _ => None;
  Scaffold.os_Create := fun name => (FileOut name, None);
  Scaffold.file_Close := fun _ => None
|}.

(** The parameters of golf -lane in pipe mode. *)
Definition sample_pipe_prog : Golf.Prog := {|
  Golf.RawArgs := ["a"; "b"];
  Golf.BeginSrc := [];
  Golf.RawSrc := "";
  Golf.EndSrc := [];
  Golf.Src := "";
  Golf.Imports := ["bufio"; "fmt"; "io"; "os"; "regexp"; "strconv"; "strings"];
  Golf.FlgN := true;
  Golf.FlgP := true;
  Golf.FlgL := true;
  Golf.FlgA := true;
  Golf.FlgF := " ";
  Golf.InPlace := false;
  Golf.InPlaceBak := "";
  Golf.Warnings := false;
  Golf.Goimports := false;
  Golf.Keep := false;
  Golf.Prelude := ""
|}.

(** A file system on which every file yields two lines and then a read
    error. *)
Definition broken_fs : Scaffold.FS := {|
  Scaffold.os_Open := fun _ =>
    ({| Scaffold.lines := ["good"; "last"];
        Scaffold.scanErr := Some (Errorf "bufio.Scanner: token too long" []) |},
     None);
  Scaffold.os_Remove := fun _ => None;
  Scaffold.os_Rename := fun _ _ => None;
  Scaffold.os_Create := fun name => (FileOut name, None);
  Scaffold.file_Close := fun _ => None
|}.

(** How golf itself may end: through [os.Exit] with status 0, 1 or 2, or
    in a run-time panic; never by returning from [main]. *)
Definition golf_status (r : Result unit) : Prop :=
  match r with
  | Ret _ => False
  | Exit c => c = 0 \/ c = 1 \/ c = 2
  | Panic _ => True
  end.

(** A result that, if it is an exit, has one of the given statuses. *)
Definition exits_within {A} (codes : list Z) (r : Result A) : Prop :=
  match r with
  | Exit c => In c codes
  | _ => True
  end.

(** A result that is no panic. *)
Definition no_panic {A} (r : Result A) : Prop :=
  match r with
  | Panic _ => False
  | _ => True
  end.

(** A file system without files. *)
Definition empty_fs : Scaffold.FS := {|
  Scaffold.os_Open := fun name =>
    ({| Scaffold.lines := []; Scaffold.scanErr := None |},
     Some (PathError "open" name "no such file or directory"));
  Scaffold.os_Remove := fun name =>
    Some (PathError "remove" name "no such file or directory");
  Scaffold.os_Rename := fun old _ =>
    Some (PathError "rename" old "no such file or directory");
  Scaffold.os_Create := fun name => (FileOut name, None);
  Scaffold.file_Close := fun _ => None
|}.

(* ------------------------------------------------------------------ *)
(** ** prelude.Source *)

Definition start_marker : string := "// golf:prelude start" +++ nl.
Definition end_marker : string := "// golf:prelude end" +++ nl.

(** [Source]: the part of the embedded file [golflibsrc] from the start
    marker up to the end marker. [bytes.Index] answers as [strings.Index]
    does; the slice expression panics when its bounds are out of order. *)
Definition Source (golflibsrc : string) : Eff string :=
  let start := Strings.Index golflibsrc start_marker in
  let end_ := Strings.Index golflibsrc end_marker in
  match start with
  | None => Prelude.Die [VString "prelude.go missing start marker"]
  | Some start =>
    match end_ with
    | None => ret (sdrop start golflibsrc)
    | Some end_ =>
      if (end_ <? start)%nat then panic "slice bounds out of range"
      else ret (stake (end_ - start) (sdrop start golflibsrc))
    end
  end.

(** A file with both markers, and one with the markers out of order. *)
Definition sample_prelude_file : string :=
  "package prelude" +++ nl +++ start_marker +++ "var Line string" +++ nl
  +++ end_marker +++ "func Source() []byte" +++ nl.

Definition swapped_prelude_file : string :=
  end_marker +++ "var Line string" +++ nl +++ start_marker.

(** [x] is given as a value of the flag M in the arguments [args]: it is
    the argument after -M or --M, or what follows the equals sign of an
    argument -M=x or --M=x. *)
Definition given_with_M (args : list string) (x : string) : Prop :=
  (exists pre post, args = pre ++ "-M" :: x :: post)
  \/ (exists pre post, args = pre ++ "--M" :: x :: post)
  \/ In ("-M=" +++ x) args
  \/ In ("--M=" +++ x) args.

(** How a round of [parseOne] that sees a flag read it off the argument
    [s]: with its value behind an equals sign, alone as a boolean flag, or
    alone with the next argument as its value. *)
Definition read_as {V} (s : string) (next : option string)
           (flag : Flag.Flag V) (name value : string) (used : bool) : Prop :=
  exists dashes,
    (dashes = "-" \/ dashes = "--")
    /\ ((used = false /\ s = dashes +++ name +++ "=" +++ value)
        \/ (used = false /\ Flag.IsBoolFlag flag = true
            /\ s = dashes +++ name)
        \/ (used = true /\ Flag.IsBoolFlag flag = false
            /\ next = Some value /\ s = dashes +++ name)).

(** A string no proper prefix of which is also its suffix: an instance
    of it cannot begin inside another one. *)
Definition unbordered (m : string) : Prop :=
  forall (t : string) (j : nat),
    (0 < j < String.length m)%nat ->
    String.prefix m (sdrop j (m +++ t)) = false.
(* ================================================================== *)
(** * Properties *)

(** ** Integers and strings *)

Lemma wrap_id (z : Z) : GoInt.in_range z -> GoInt.wrap z = z.
Proof.
  unfold GoInt.in_range, GoInt.wrap, GoInt.minInt, GoInt.maxInt.
  intros H. rewrite Z.mod_small; lia.
Qed.

Lemma len_nonneg {A} (l : list A) : 0 <= GoInt.len l.
Proof. unfold GoInt.len. lia. Qed.

Lemma append_nil_r (s : string) : s +++ "" = s.
Proof. induction s; simpl; congruence. Qed.

Lemma append_assoc (a b c : string) : (a +++ b) +++ c = a +++ (b +++ c).
Proof. induction a; simpl; congruence. Qed.

Lemma length_append (a b : string) :
  String.length (a +++ b) = (String.length a + String.length b)%nat.
Proof. induction a; simpl; congruence. Qed.

Lemma stake_sdrop (n : nat) (s : string) : stake n s +++ sdrop n s = s.
Proof.
  revert s. induction n as [|n IH]; intros [|c s]; simpl; try reflexivity.
  now rewrite IH.
Qed.

Lemma sdrop_length (n : nat) (s : string) :
  String.length (sdrop n s) = (String.length s - n)%nat.
Proof.
  revert s. induction n as [|n IH]; intros [|c s]; simpl; auto using Nat.sub_0_r.
Qed.

Lemma stake_append (a b : string) : stake (String.length a) (a +++ b) = a.
Proof. induction a; simpl; [now destruct b|congruence]. Qed.

Lemma sdrop_append (a b : string) : sdrop (String.length a) (a +++ b) = b.
Proof. induction a; simpl; auto. Qed.

(** Case analysis on the condition of the first conditional of the goal. *)
Ltac case_if :=
  match goal with
  | |- context [if ?b then _ else _] => destruct b eqn:?
  end.

(** ** The effect monad *)

Lemma bind_ret_l {A B} (a : A) (f : A -> Eff B) : bind (ret a) f = f a.
Proof. unfold bind, ret. destruct (f a). reflexivity. Qed.

Lemma bind_result_ret {A B} (m : Eff A) (f : A -> Eff B) (b : B) :
  result (bind m f) = Ret b ->
  exists a, result m = Ret a /\ result (f a) = Ret b.
Proof.
  destruct m as [ev [a|c|msg]]; simpl; try discriminate.
  destruct (f a) as [ev' r] eqn:E. simpl. intros ->. exists a.
  rewrite E. auto.
Qed.

(** ** Field (C1) *)

Section FieldFacts.

Import Prelude.

Variable g : Globals.
Hypothesis len_fits : GoInt.len (Fields g) <= GoInt.maxInt.

Lemma Field_zero : Field g 0 = ret (Strings.Join (Fields g) (OFS g)).
Proof. reflexivity. Qed.

Lemma Field_positive (n : Z) :
  1 <= n <= GoInt.len (Fields g) ->
  exists f, nth_error (Fields g) (Z.to_nat (n - 1)) = Some f
            /\ Field g n = ret f.
Proof.
  intros Hn. pose proof len_fits as Hl.
  unfold GoInt.maxInt in Hl.
  destruct (nth_error (Fields g) (Z.to_nat (n - 1))) as [f|] eqn:E.
  - exists f. split; [reflexivity|].
    unfold Field, GoInt.sub.
    destruct (Z.eqb_spec n 0); [lia|].
    destruct (Z.ltb_spec n 0); [lia|].
    rewrite !wrap_id by (unfold GoInt.in_range, GoInt.minInt, GoInt.maxInt; lia).
    destruct (Z.ltb_spec (n - 1) 0); [lia|].
    destruct (Z.gtb_spec (n - 1) (GoInt.len (Fields g) - 1)); [lia|].
    simpl. now rewrite E.
  - apply nth_error_None in E. unfold GoInt.len in Hn. lia.
Qed.

Lemma Field_negative (n : Z) :
  - GoInt.len (Fields g) <= n <= -1 ->
  exists f,
    nth_error (Fields g) (Z.to_nat (GoInt.len (Fields g) + n)) = Some f
    /\ Field g n = ret f.
Proof.
  intros Hn. pose proof len_fits as Hl.
  unfold GoInt.maxInt in Hl.
  destruct (nth_error (Fields g) (Z.to_nat (GoInt.len (Fields g) + n)))
    as [f|] eqn:E.
  - exists f. split; [reflexivity|].
    unfold Field, GoInt.sub, GoInt.add.
    destruct (Z.eqb_spec n 0); [lia|].
    destruct (Z.ltb_spec n 0); [|lia].
    rewrite !wrap_id by (unfold GoInt.in_range, GoInt.minInt, GoInt.maxInt; lia).
    destruct (Z.ltb_spec (GoInt.len (Fields g) + n) 0); [lia|].
    destruct (Z.gtb_spec (GoInt.len (Fields g) + n)
                         (GoInt.len (Fields g) - 1)); [lia|].
    simpl. now rewrite E.
  - apply nth_error_None in E. unfold GoInt.len in Hn, E. lia.
Qed.

Lemma Field_last : Fields g <> [] -> Field g (-1) = Field g (GoInt.len (Fields g)).
Proof.
  intros Hne.
  assert (1 <= GoInt.len (Fields g)) as H1.
  { unfold GoInt.len. destruct (Fields g); [congruence|simpl; lia]. }
  destruct (Field_negative (-1)) as [f [Hf ->]]; [lia|].
  destruct (Field_positive (GoInt.len (Fields g))) as [f' [Hf' ->]]; [lia|].
  replace (GoInt.len (Fields g) + -1) with (GoInt.len (Fields g) - 1) in Hf by lia.
  congruence.
Qed.

(** Beyond the slice: the empty string, after at most one diagnostic. *)
Lemma Field_out_of_range (n : Z) :
  GoInt.in_range n ->
  Z.abs n > GoInt.len (Fields g) ->
  exists k,
    Field g n =
    ((if Warnings g
      then [StderrPrintf ("undefined field: %d: %v" +++ nl)
                         [VInt k; VStrings (Fields g)]]
      else []), Ret "").
Proof.
  intros Hr Hn. pose proof len_fits as Hl.
  pose proof (len_nonneg (Fields g)) as H0.
  unfold GoInt.in_range, GoInt.minInt, GoInt.maxInt in *.
  unfold Field, GoInt.sub, GoInt.add.
  destruct (Z.eqb_spec n 0); [lia|].
  destruct (Z.ltb_spec n 0).
  - rewrite !wrap_id by (unfold GoInt.in_range, GoInt.minInt, GoInt.maxInt; lia).
    destruct (Z.ltb_spec (GoInt.len (Fields g) + n) 0); [|lia].
    simpl. eexists. destruct (Warnings g); reflexivity.
  - rewrite !wrap_id by (unfold GoInt.in_range, GoInt.minInt, GoInt.maxInt; lia).
    destruct (Z.ltb_spec (n - 1) 0); [lia|].
    destruct (Z.gtb_spec (n - 1) (GoInt.len (Fields g) - 1)); [|lia].
    simpl. eexists. destruct (Warnings g); reflexivity.
Qed.

(** Whatever the index, the call returns: no exit, no panic. *)
Lemma Field_returns (n : Z) :
  GoInt.in_range n -> exists f, result (Field g n) = Ret f.
Proof.
  intros Hr.
  destruct (Z.eq_dec n 0) as [->|Hz]; [eexists; reflexivity|].
  destruct (Z_gt_le_dec (Z.abs n) (GoInt.len (Fields g))) as [Hout|Hin].
  - destruct (Field_out_of_range n Hr Hout) as [k ->]. eexists; reflexivity.
  - destruct (Z_lt_le_dec n 0).
    + destruct (Field_negative n) as [f [_ ->]]; [lia|]. eexists; reflexivity.
    + destruct (Field_positive n) as [f [_ ->]]; [lia|]. eexists; reflexivity.
Qed.

End FieldFacts.

(** C1. For every field sequence and every index [n] of type int:
    [Field(0)] is the sequence joined with OFS; for [1 <= n <= len] the
    result is the n-th element counted from one; for [-len <= n <= -1] it
    is the element at [len + n], so that on a non-empty sequence
    [Field(-1)] and [Field(len)] agree; when [|n|] exceeds the length
    (the empty sequence included) the result is the empty string, and the
    only output is a diagnostic on stderr, present exactly when warnings
    are on; and in every case the call returns, without exit or panic. *)
Theorem C1_Field_policy (g : Prelude.Globals) (n : Z) :
  GoInt.in_range n ->
  GoInt.len (Prelude.Fields g) <= GoInt.maxInt ->
  let len := GoInt.len (Prelude.Fields g) in
  Prelude.Field g 0
  = ret (Strings.Join (Prelude.Fields g) (Prelude.OFS g))
  /\ (1 <= n <= len ->
      exists f, nth_error (Prelude.Fields g) (Z.to_nat (n - 1)) = Some f
                /\ Prelude.Field g n = ret f)
  /\ (- len <= n <= -1 ->
      exists f, nth_error (Prelude.Fields g) (Z.to_nat (len + n)) = Some f
                /\ Prelude.Field g n = ret f)
  /\ (Prelude.Fields g <> [] -> Prelude.Field g (-1) = Prelude.Field g len)
  /\ (Z.abs n > len ->
      result (Prelude.Field g n) = Ret ""
      /\ (Prelude.Warnings g = false -> events (Prelude.Field g n) = [])
      /\ (Prelude.Warnings g = true ->
          exists k, events (Prelude.Field g n)
                    = [StderrPrintf ("undefined field: %d: %v" +++ nl)
                                    [VInt k; VStrings (Prelude.Fields g)]]))
  /\ (exists f, result (Prelude.Field g n) = Ret f).
Proof.
  intros Hr Hl len. subst len.
  split; [apply Field_zero|].
  split; [now apply Field_positive|].
  split; [now apply Field_negative|].
  split; [now apply Field_last|].
  split; [|now apply Field_returns].
  intros Hout. destruct (Field_out_of_range g Hl n Hr Hout) as [k ->].
  split; [reflexivity|]. split; intros ->; simpl; eauto.
Qed.

Lemma C1_Field_policy_witness :
  Prelude.Field sample_globals (-1) = Prelude.Field sample_globals 3
  /\ Prelude.Field sample_globals 10 = ret "".
Proof.
  assert (GoInt.in_range 10) as Hr
    by (unfold GoInt.in_range, GoInt.minInt, GoInt.maxInt; lia).
  assert (GoInt.len (Prelude.Fields sample_globals) <= GoInt.maxInt) as Hl
    by (unfold GoInt.maxInt, GoInt.len; simpl; lia).
  destruct (C1_Field_policy sample_globals 10 Hr Hl)
    as (_ & _ & _ & Hlast & _ & _).
  split; [apply Hlast; discriminate|reflexivity].
Defined.

(** ** BackupName (C9) *)

Lemma prefix_star (c : ascii) (t : string) :
  String.prefix "*" (String c t) = (c =? "*")%char.
Proof.
  change (String.prefix "*" (String c t))
    with (if ascii_dec "*" c then String.prefix "" t else false).
  destruct (ascii_dec "*" c) as [<-|Hne].
  - now destruct t.
  - symmetry. apply Ascii.eqb_neq. congruence.
Qed.

Lemma Contains_star (s : string) :
  Strings.Contains s "*" = Spec.has_wildcard s.
Proof.
  unfold Strings.Contains.
  induction s as [|c t IH]; [reflexivity|].
  cbn [Strings.Index Spec.has_wildcard]. rewrite prefix_star.
  destruct (c =? "*")%char; [reflexivity|]. simpl.
  destruct (Strings.Index t "*"); exact IH.
Qed.

Lemma Index_star_None (orig s : string) :
  Strings.Index s "*" = None -> Spec.replace_every_wildcard orig s = s.
Proof.
  induction s as [|c t IH]; [reflexivity|].
  cbn [Strings.Index Spec.replace_every_wildcard]. rewrite prefix_star.
  destruct (c =? "*")%char; [discriminate|].
  destruct (Strings.Index t "*"); [discriminate|].
  intros _. now rewrite IH.
Qed.

Lemma Index_star_Some (orig s : string) (j : nat) :
  Strings.Index s "*" = Some j ->
  Spec.replace_every_wildcard orig s
  = stake j s +++ orig +++ Spec.replace_every_wildcard orig (sdrop (j + 1) s)
  /\ (j < String.length s)%nat.
Proof.
  revert j. induction s as [|c t IH]; intros j; [discriminate|].
  cbn [Strings.Index Spec.replace_every_wildcard]. rewrite prefix_star.
  destruct (c =? "*")%char eqn:Ec.
  - intros [= <-]. simpl. split; [reflexivity|lia].
  - destruct (Strings.Index t "*") as [i|]; [|discriminate].
    intros [= <-]. destruct (IH i eq_refl) as [-> Hlt].
    simpl. split; [reflexivity|lia].
Qed.

Lemma replace_loop_star (orig : string) (fuel : nat) (s : string) :
  (String.length s <= fuel)%nat ->
  Strings.replace_loop fuel s "*" orig = Spec.replace_every_wildcard orig s.
Proof.
  revert s. induction fuel as [|f IH]; intros s Hlen.
  - destruct s; [reflexivity|simpl in Hlen; lia].
  - cbn [Strings.replace_loop].
    destruct (Strings.Index s "*") as [j|] eqn:E.
    + destruct (Index_star_Some orig s j E) as [-> Hlt].
      change (String.length "*") with 1%nat.
      rewrite IH; [reflexivity|]. rewrite sdrop_length. lia.
    + symmetry. now apply Index_star_None.
Qed.

Lemma replace_wildcard_by_itself (s : string) :
  Spec.replace_every_wildcard "*" s = s.
Proof.
  induction s as [|c t IH]; [reflexivity|]. simpl. rewrite IH.
  destruct (Ascii.eqb_spec c "*"); [now subst|reflexivity].
Qed.

Lemma ReplaceAll_star (s orig : string) :
  Strings.ReplaceAll s "*" orig = Spec.replace_every_wildcard orig s.
Proof.
  unfold Strings.ReplaceAll.
  destruct (String.eqb_spec "*" orig) as [<-|_].
  - symmetry. apply replace_wildcard_by_itself.
  - change ("*" =? "")%string with false. cbv iota.
    now apply replace_loop_star.
Qed.

(** C9. For every original name and pattern, [BackupName] is the function
    the specification describes: the pattern appended to the name when it
    holds no [*], and otherwise the pattern with every [*] replaced by the
    name. In particular it maps f and .bak to f.bak, and f and orig_* to
    orig_f. *)
Theorem C9_BackupName_policy (orig ext : string) :
  Prelude.BackupName orig ext = Spec.backup_name orig ext
  /\ Prelude.BackupName "f" ".bak" = "f.bak"
  /\ Prelude.BackupName "f" "orig_*" = "orig_f".
Proof.
  split; [|split; reflexivity].
  unfold Prelude.BackupName, Spec.backup_name.
  rewrite Contains_star, ReplaceAll_star. reflexivity.
Qed.

(** ** GAtoi (C6) *)

(** [GAtoi] never stops the program, and is silent unless warnings are on. *)
Lemma GAtoi_returns (g : Prelude.Globals) (s : string) :
  Prelude.GAtoi g s
  = ((match snd (Strconv.Atoi s) with
      | Some e => if Prelude.Warnings g then [StderrPrintln [VError e]] else []
      | None => []
      end), Ret (fst (Strconv.Atoi s))).
Proof.
  unfold Prelude.GAtoi. destruct (Strconv.Atoi s) as [i [e|]]; simpl.
  - destruct (Prelude.Warnings g); reflexivity.
  - reflexivity.
Qed.

Lemma parseUint_loop_syntax (s0 : string) (s : string) (n v : Z) fn num :
  Strconv.parseUint_loop s0 n s = (v, Some (NumError fn num ErrSyntax)) ->
  v = 0.
Proof.
  revert n. induction s as [|c t IH]; intros n;
    cbn [Strconv.parseUint_loop]; [discriminate|].
  cbv zeta. repeat case_if; try discriminate; [apply IH|now intros [= <-]].
Qed.

Lemma ParseInt10_syntax (s : string) (v : Z) fn num :
  Strconv.ParseInt10 s = (v, Some (NumError fn num ErrSyntax)) -> v = 0.
Proof.
  unfold Strconv.ParseInt10. destruct s as [|c t]; [now intros [= <-]|].
  destruct (Strconv.ParseUint10 _) as [un [[f' n' [|]| | | | |]|]];
    try (now intros [= <-]);
    repeat match goal with
           | |- context [if ?b then _ else _] => destruct b
           end; try discriminate; now intros [= <-].
Qed.

Lemma atoi_fast_loop_error (s0 s : string) (n v : Z) (e : error) :
  Strconv.atoi_fast_loop s0 n s = (v, Some e) -> v = 0.
Proof.
  revert n. induction s as [|c t IH]; intros n; simpl; [discriminate|].
  destruct ((byteZ c - 48) mod 256 >? 9); [now intros [= <-]|apply IH].
Qed.

(** On a syntax error [Atoi] gives zero, and so does [GAtoi]. *)
Lemma Atoi_syntax_zero (s : string) (v : Z) fn num :
  Strconv.Atoi s = (v, Some (NumError fn num ErrSyntax)) -> v = 0.
Proof.
  unfold Strconv.Atoi.
  destruct ((0 <? String.length s)%nat && (String.length s <? 19)%nat).
  - destruct s as [|c t]; [now intros [= <-]|].
    match goal with |- context [if ?b then _ else _] => destruct b end;
      [now intros [= <-]|].
    destruct (Strconv.atoi_fast_loop _ _ _) as [n [e|]]; [|discriminate].
    now intros [= <-].
  - destruct (Strconv.ParseInt10 s) as [i64 err] eqn:E.
    destruct err as [[f' n' k| | | | |]|]; simpl; try discriminate.
    intros [= <- _ _ ->]. eapply ParseInt10_syntax. exact E.
Qed.

(** C6, at the inputs where the code departs from it: a decimal numeral
    beyond int64, and a malformed string whose digits overflow before the
    bad byte is reached. [Atoi] reports an error for both, and [GAtoi]
    returns the largest int, not zero. *)
Theorem C6_GAtoi_range_error_not_zero (g : Prelude.Globals) :
  snd (Strconv.Atoi "9223372036854775808")
  = Some (NumError "Atoi" "9223372036854775808" ErrRange)
  /\ result (Prelude.GAtoi g "9223372036854775808") = Ret 9223372036854775807
  /\ snd (Strconv.Atoi "99999999999999999999x")
     = Some (NumError "Atoi" "99999999999999999999x" ErrRange)
  /\ result (Prelude.GAtoi g "99999999999999999999x")
     = Ret 9223372036854775807.
Proof.
  rewrite !GAtoi_returns. repeat split; vm_compute; reflexivity.
Qed.

(** ** decluster (C4, C5, C10) *)

Lemma skipn_cons_tail {A} (i : nat) (l : list A) (a : A) (t : list A) :
  skipn i l = a :: t -> skipn (S i) l = t.
Proof.
  revert l. induction i as [|i IH]; intros [|x l]; try discriminate.
  - now intros [= _ ->].
  - change (skipn (S i) (x :: l)) with (skipn i l).
    change (skipn (S (S i)) (x :: l)) with (skipn (S i) l). apply IH.
Qed.

(** The index [i] of the loop only serves to find the argument before
    the current one. *)
Lemma decluster_loop_from (Args : list string) (rest : list string) :
  forall (i : nat) (prev : string) (res : list string),
    skipn i Args = prev :: rest ->
    Golf.decluster_loop Args i rest res = Aux.decluster_from prev rest res.
Proof.
  induction rest as [|v rest' IH]; intros i prev res Hi; [reflexivity|].
  cbn [Golf.decluster_loop Aux.decluster_from].
  destruct v as [|c0 v1]; [reflexivity|].
  pose proof (skipn_cons_tail _ _ _ _ Hi) as Hi'.
  repeat case_if; try reflexivity.
  - now apply IH.
  - now rewrite Hi.
  - unfold bind.
    destruct (Golf.cluster_loop _ _ _ _) as [ev [res'| |]]; try reflexivity.
    now rewrite (IH _ _ res' Hi').
Qed.

Lemma decluster_from_argv0 (argv0 : string) (rest : list string) :
  Golf.decluster (argv0 :: rest) = Aux.decluster_from argv0 rest [argv0].
Proof. unfold Golf.decluster. now apply decluster_loop_from. Qed.

(** The one-letter boolean flags, as [init] collects them. *)
Lemma no_value_flag_cases (c : ascii) :
  Aux.no_value_flag c ->
  In c ["n"; "l"; "p"; "g"; "a"; "i"; "k"; "w"; "h"]%char.
Proof.
  unfold Aux.no_value_flag, Golf.member, Aux.letter.
  change Golf.shortBoolFlags
    with ["n"; "l"; "p"; "g"; "a"; "i"; "k"; "w"; "h"].
  cbn [existsb String.eqb]. intros H.
  repeat (apply orb_prop in H; destruct H as [H|H]);
    try discriminate;
    destruct (Ascii.eqb_spec c "n"); destruct (Ascii.eqb_spec c "l");
    destruct (Ascii.eqb_spec c "p"); destruct (Ascii.eqb_spec c "g");
    destruct (Ascii.eqb_spec c "a"); destruct (Ascii.eqb_spec c "i");
    destruct (Ascii.eqb_spec c "k"); destruct (Ascii.eqb_spec c "w");
    destruct (Ascii.eqb_spec c "h"); try discriminate; subst; simpl; tauto.
Qed.

Lemma no_value_flag_ascii (c : ascii) :
  Aux.no_value_flag c -> (byteZ c <? Utf8.RuneSelf) = true.
Proof.
  intros H. apply no_value_flag_cases in H. simpl in H.
  repeat (destruct H as [<-|H]; [reflexivity|]). contradiction.
Qed.

Lemma no_value_flag_not_dash (c : ascii) :
  Aux.no_value_flag c -> c <> "-"%char.
Proof. intros H ->. vm_compute in H. discriminate. Qed.

(** An ASCII string is cut into its bytes. *)
Lemma runes_fuel_ascii (cs : list ascii) :
  Forall (fun c => (byteZ c <? Utf8.RuneSelf) = true) cs ->
  forall fuel, (List.length cs <= fuel)%nat ->
  Utf8.runes_fuel fuel (string_of_list_ascii cs)
  = map (fun c => (byteZ c, Aux.letter c)) cs.
Proof.
  induction 1 as [|c cs Hc _ IH]; intros fuel Hlen.
  - destruct fuel; reflexivity.
  - destruct fuel as [|fuel]; [simpl in Hlen; lia|].
    cbn [Utf8.runes_fuel string_of_list_ascii Utf8.DecodeRuneInString].
    rewrite Hc. cbn [stake sdrop map]. f_equal.
    apply IH. simpl in Hlen. lia.
Qed.

Lemma length_string_of_list_ascii (cs : list ascii) :
  String.length (string_of_list_ascii cs) = List.length cs.
Proof. induction cs; simpl; congruence. Qed.

Lemma explode_ascii (cs : list ascii) :
  Forall (fun c => (byteZ c <? Utf8.RuneSelf) = true) cs ->
  Strings.Split (string_of_list_ascii cs) "" = map Aux.letter cs.
Proof.
  intros H. unfold Strings.Split, Strings.explode, Utf8.runes.
  cbn [String.eqb]. rewrite runes_fuel_ascii; auto.
  - rewrite map_map. reflexivity.
  - now rewrite length_string_of_list_ascii.
Qed.

Lemma no_value_flags_ascii (cs : list ascii) :
  Forall Aux.no_value_flag cs ->
  Forall (fun c => (byteZ c <? Utf8.RuneSelf) = true) cs.
Proof. apply Forall_impl. exact no_value_flag_ascii. Qed.

(** Letters that are boolean flags pass the check of the inner loop at
    every index. *)
Lemma cluster_loop_no_value (v : string) (cs : list ascii) :
  Forall Aux.no_value_flag cs ->
  forall (i : Z) (res : list string),
    Golf.cluster_loop v i (map Aux.letter cs) res
    = ret (res ++ Aux.separate cs).
Proof.
  induction 1 as [|c cs Hc _ IH]; intros i res.
  - simpl. now rewrite app_nil_r.
  - cbn [map Golf.cluster_loop]. red in Hc. rewrite Hc.
    rewrite andb_false_r. rewrite IH.
    unfold Aux.separate. cbn [map]. now rewrite <- app_assoc.
Qed.

(** No long flag is spelled with the letters of boolean flags only. *)
Lemma cluster_not_long (cs : list ascii) :
  Forall Aux.no_value_flag cs ->
  Golf.member Golf.longFlags (string_of_list_ascii cs) = false.
Proof.
  intros Hall.
  destruct (Golf.member Golf.longFlags (string_of_list_ascii cs)) eqn:E;
    [exfalso|reflexivity].
  unfold Golf.member in E.
  change Golf.longFlags with ["goVer"; "help"; "BEGIN"; "END"] in E.
  cbn [existsb] in E.
  repeat (apply orb_prop in E; destruct E as [E|E]); try discriminate;
    apply String.eqb_eq in E;
    apply (f_equal list_ascii_of_string) in E;
    rewrite list_ascii_of_string_of_list_ascii in E; subst cs;
    simpl in Hall;
    repeat match goal with
           | H : Forall _ (_ :: _) |- _ => inversion H; subst; clear H
           end;
    match goal with
    | H : Aux.no_value_flag "o" |- _ => vm_compute in H; discriminate
    | H : Aux.no_value_flag "e" |- _ => vm_compute in H; discriminate
    | H : Aux.no_value_flag "B" |- _ => vm_compute in H; discriminate
    | H : Aux.no_value_flag "E" |- _ => vm_compute in H; discriminate
    end.
Qed.

Lemma cluster_not_terminator (cs : list ascii) :
  Forall Aux.no_value_flag cs ->
  (Aux.cluster cs =? "--")%string = false.
Proof.
  intros Hall. apply String.eqb_neq. unfold Aux.cluster. intros [= E].
  destruct cs as [|c [|c' cs]]; try discriminate.
  injection E as ->. inversion Hall as [|? ? Hc _]; subst.
  now apply no_value_flag_not_dash in Hc.
Qed.

(** A cluster of boolean flags is replaced by its letters. *)
Lemma decluster_from_cluster (prev : string) (cs : list ascii)
      (post res : list string) :
  Forall Aux.no_value_flag cs ->
  Aux.decluster_from prev (Aux.cluster cs :: post) res
  = Aux.decluster_from (Aux.cluster cs) post (res ++ Aux.separate cs).
Proof.
  intros Hall. cbn [Aux.decluster_from].
  change (Aux.cluster cs) with (String "-" (string_of_list_ascii cs)) at 1.
  cbv iota. change (byteZ "-" =? 45) with true. cbn [negb orb].
  rewrite cluster_not_long by assumption.
  fold (Aux.cluster cs). rewrite cluster_not_terminator by assumption.
  rewrite explode_ascii by now apply no_value_flags_ascii.
  rewrite cluster_loop_no_value by assumption.
  now rewrite bind_ret_l.
Qed.

Lemma last_cons_default {A} (a : A) (l : list A) (d1 d2 : A) :
  last (a :: l) d1 = last (a :: l) d2.
Proof.
  revert a. induction l as [|b l IH]; intros a; [reflexivity|].
  change (last (a :: b :: l) d1) with (last (b :: l) d1).
  change (last (a :: b :: l) d2) with (last (b :: l) d2). apply IH.
Qed.

Lemma last_cons_prev {A} (a : A) (l : list A) (d : A) :
  last (a :: l) d = last l a.
Proof.
  destruct l as [|b l]; [reflexivity|].
  change (last (a :: b :: l) d) with (last (b :: l) d).
  apply last_cons_default.
Qed.

(** The same letters given one by one are passed along unchanged. *)
Lemma decluster_from_separate (cs : list ascii) :
  Forall Aux.no_value_flag cs ->
  forall (prev : string) (post res : list string),
    Aux.decluster_from prev (Aux.separate cs ++ post) res
    = Aux.decluster_from (last (Aux.separate cs) prev) post
                         (res ++ Aux.separate cs).
Proof.
  induction 1 as [|c cs Hc Hcs IH]; intros prev post res.
  - simpl. now rewrite app_nil_r.
  - change (Aux.separate (c :: cs) ++ post)
      with (Aux.cluster [c] :: (Aux.separate cs ++ post)).
    rewrite decluster_from_cluster by (constructor; [assumption|constructor]).
    rewrite IH. rewrite <- app_assoc. f_equal.
    change (Aux.separate (c :: cs)) with (Aux.cluster [c] :: Aux.separate cs).
    destruct (Aux.separate cs) as [|s l]; [reflexivity|].
    change (last (Aux.cluster [c] :: s :: l) prev) with (last (s :: l) prev).
    apply last_cons_default.
Qed.

(** The argument before the current one matters at a [--] only. *)
Lemma decluster_from_prev (p1 p2 : string) (post res : list string) :
  hd_error post <> Some "--" ->
  Aux.decluster_from p1 post res = Aux.decluster_from p2 post res.
Proof.
  destruct post as [|v post]; [reflexivity|]. simpl hd_error. intros Hv.
  cbn [Aux.decluster_from]. destruct v as [|c0 v1]; [reflexivity|].
  repeat case_if; try reflexivity.
  apply String.eqb_eq in Heqb0. congruence.
Qed.

(** Where no [--] comes first, the arguments before a place do not change
    what happens at that place. *)
Lemma decluster_from_prefix (pre : list string) :
  Forall (fun v => v <> "--") pre ->
  forall (X Y : list string),
    (forall prev res, Aux.decluster_from prev X res
                      = Aux.decluster_from prev Y res) ->
    forall prev res,
      Aux.decluster_from prev (pre ++ X) res
      = Aux.decluster_from prev (pre ++ Y) res.
Proof.
  induction 1 as [|v pre Hv _ IH]; intros X Y HXY prev res; [apply HXY|].
  cbn [app Aux.decluster_from]. destruct v as [|c0 v1]; [reflexivity|].
  repeat case_if.
  - now apply IH.
  - apply String.eqb_eq in Heqb0. contradiction.
  - unfold bind.
    destruct (Golf.cluster_loop _ _ _ _) as [ev [res'| |]]; try reflexivity.
    now rewrite (IH X Y HXY).
Qed.

(** In flag position and not right before a [--], a cluster of boolean
    flags and its letters given separately are declustered alike. *)
Lemma decluster_cluster_in_context (argv0 : string) (pre post : list string)
      (cs : list ascii) :
  Forall Aux.no_value_flag cs ->
  Forall (fun v => v <> "--") pre ->
  hd_error post <> Some "--" ->
  Golf.decluster (argv0 :: pre ++ Aux.cluster cs :: post)
  = Golf.decluster (argv0 :: pre ++ Aux.separate cs ++ post).
Proof.
  intros Hcs Hpre Hpost. rewrite !decluster_from_argv0.
  apply decluster_from_prefix; [assumption|]. intros prev res.
  rewrite decluster_from_cluster, decluster_from_separate by assumption.
  now apply decluster_from_prev.
Qed.

(** *** A cluster that ends in a flag with a value (as -lane does) *)

Lemma cluster_loop_last (cs : list ascii) :
  Forall Aux.no_value_flag cs ->
  forall (v : string) (c : ascii) (i : Z) (res : list string),
    (i + Z.of_nat (List.length cs) <? GoInt.sub (GoInt.slen v) 2) = false ->
    Golf.cluster_loop v i (map Aux.letter (cs ++ [c])) res
    = ret (res ++ Aux.separate (cs ++ [c])).
Proof.
  induction 1 as [|b cs Hb _ IH]; intros v c i res Hi.
  - cbn [app map Golf.cluster_loop List.length] in *.
    rewrite Z.add_0_r in Hi. rewrite Hi. reflexivity.
  - cbn [app map Golf.cluster_loop]. red in Hb. rewrite Hb, andb_false_r.
    rewrite IH.
    + unfold Aux.separate. cbn [map]. now rewrite <- app_assoc.
    + rewrite <- Hi. f_equal. cbn [List.length]. lia.
Qed.

Lemma cluster_with_last_not_long (cs : list ascii) (c : ascii) :
  Forall Aux.no_value_flag cs ->
  Golf.member Golf.longFlags (string_of_list_ascii (cs ++ [c])) = false.
Proof.
  intros Hall.
  destruct (Golf.member Golf.longFlags (string_of_list_ascii (cs ++ [c])))
    eqn:E; [exfalso|reflexivity].
  unfold Golf.member in E.
  change Golf.longFlags with ["goVer"; "help"; "BEGIN"; "END"] in E.
  cbn [existsb] in E.
  repeat (apply orb_prop in E; destruct E as [E|E]); try discriminate;
    apply String.eqb_eq in E;
    apply (f_equal list_ascii_of_string) in E;
    rewrite list_ascii_of_string_of_list_ascii in E;
    destruct cs as [|x1 [|x2 [|x3 [|x4 [|x5 cs]]]]];
    try discriminate E;
    try (destruct cs; discriminate E);
    injection E; intros; subst;
    repeat match goal with
           | H : Forall _ (_ :: _) |- _ => inversion H; subst; clear H
           end;
    match goal with
    | H : Aux.no_value_flag "o" |- _ => vm_compute in H; discriminate
    | H : Aux.no_value_flag "e" |- _ => vm_compute in H; discriminate
    | H : Aux.no_value_flag "B" |- _ => vm_compute in H; discriminate
    | H : Aux.no_value_flag "E" |- _ => vm_compute in H; discriminate
    end.
Qed.

Lemma decluster_from_cluster_last (prev : string) (cs : list ascii)
      (c : ascii) (post res : list string) :
  Forall Aux.no_value_flag cs ->
  (byteZ c <? Utf8.RuneSelf) = true ->
  c <> "-"%char ->
  GoInt.slen (Aux.cluster (cs ++ [c])) <= GoInt.maxInt ->
  Aux.decluster_from prev (Aux.cluster (cs ++ [c]) :: post) res
  = Aux.decluster_from (Aux.cluster (cs ++ [c])) post
                       (res ++ Aux.separate (cs ++ [c])).
Proof.
  intros Hall Hc Hdash Hfits. cbn [Aux.decluster_from].
  change (Aux.cluster (cs ++ [c]))
    with (String "-" (string_of_list_ascii (cs ++ [c]))) at 1.
  cbv iota. change (byteZ "-" =? 45) with true. cbn [negb orb].
  rewrite cluster_with_last_not_long by assumption.
  fold (Aux.cluster (cs ++ [c])).
  assert ((Aux.cluster (cs ++ [c]) =? "--")%string = false) as ->.
  { apply String.eqb_neq. unfold Aux.cluster. intros [= E].
    destruct cs as [|b [|b' cs]]; try discriminate.
    injection E as ->. congruence. }
  rewrite explode_ascii.
  - rewrite cluster_loop_last; [now rewrite bind_ret_l|assumption|].
    unfold GoInt.sub, GoInt.slen, Aux.cluster in *.
    cbn [String.length] in *. rewrite length_string_of_list_ascii in *.
    rewrite length_app in *. cbn [List.length] in *.
    rewrite wrap_id.
    + apply Z.ltb_ge. lia.
    + unfold GoInt.in_range, GoInt.minInt, GoInt.maxInt in *. lia.
  - apply Forall_app. split; [now apply no_value_flags_ascii|].
    constructor; [assumption|constructor].
Qed.

Lemma decluster_from_separate_last (cs : list ascii) (c : ascii)
      (prev : string) (post res : list string) :
  Forall Aux.no_value_flag cs ->
  (byteZ c <? Utf8.RuneSelf) = true ->
  c <> "-"%char ->
  Aux.decluster_from prev (Aux.separate (cs ++ [c]) ++ post) res
  = Aux.decluster_from (Aux.cluster [c]) post
                       (res ++ Aux.separate (cs ++ [c])).
Proof.
  intros Hall Hc Hdash. unfold Aux.separate at 1. rewrite map_app.
  fold (Aux.separate cs). rewrite <- app_assoc.
  rewrite decluster_from_separate by assumption.
  change (map (fun c0 => "-" +++ Aux.letter c0) [c] ++ post)
    with (Aux.cluster ([] ++ [c]) :: post).
  rewrite decluster_from_cluster_last;
    [|apply Forall_nil|assumption|assumption
     |unfold GoInt.maxInt, GoInt.slen; simpl; lia].
  cbn [app]. rewrite <- app_assoc. unfold Aux.separate.
  now rewrite map_app.
Qed.

(** All letters but the last are boolean flags; the last is any ASCII
    letter, for instance a flag that takes its value from the next
    argument. *)
Lemma decluster_cluster_with_last_in_context (argv0 : string)
      (pre post : list string) (cs : list ascii) (c : ascii) :
  Forall Aux.no_value_flag cs ->
  (byteZ c <? Utf8.RuneSelf) = true ->
  c <> "-"%char ->
  GoInt.slen (Aux.cluster (cs ++ [c])) <= GoInt.maxInt ->
  Forall (fun v => v <> "--") pre ->
  hd_error post <> Some "--" ->
  Golf.decluster (argv0 :: pre ++ Aux.cluster (cs ++ [c]) :: post)
  = Golf.decluster (argv0 :: pre ++ Aux.separate (cs ++ [c]) ++ post).
Proof.
  intros Hcs Hc Hdash Hfits Hpre Hpost. rewrite !decluster_from_argv0.
  apply decluster_from_prefix; [assumption|]. intros prev res.
  rewrite decluster_from_cluster_last, decluster_from_separate_last
    by assumption.
  now apply decluster_from_prev.
Qed.

(** Everything [main] does up to the [Prog] record depends on the
    arguments through [decluster] only. *)
Lemma main_flags_decluster (src : string) (Args1 Args2 : list string) :
  Golf.decluster Args1 = Golf.decluster Args2 ->
  Golf.main_flags src Args1 = Golf.main_flags src Args2.
Proof. unfold Golf.main_flags. now intros ->. Qed.

(** C5. For every flag cluster made of one-letter flags that take no
    value, declustering and parsing the cluster gives the same result
    (the same record, or the same failure) as declustering and parsing
    its letters given as separate flags in the same order. This holds for
    the cluster alone and, more generally, for the cluster among other
    arguments, as long as it stands where flags are read (no [--] before
    it) and is not itself followed by [--]. *)
Theorem C5_cluster_equiv_separate (src argv0 : string) (cs : list ascii) :
  Forall Aux.no_value_flag cs ->
  Golf.main_flags src [argv0; Aux.cluster cs]
  = Golf.main_flags src (argv0 :: Aux.separate cs)
  /\ (forall pre post : list string,
         Forall (fun v => v <> "--") pre ->
         hd_error post <> Some "--" ->
         Golf.main_flags src (argv0 :: pre ++ Aux.cluster cs :: post)
         = Golf.main_flags src (argv0 :: pre ++ Aux.separate cs ++ post)).
Proof.
  intros Hcs.
  assert (forall pre post : list string,
             Forall (fun v => v <> "--") pre ->
             hd_error post <> Some "--" ->
             Golf.main_flags src (argv0 :: pre ++ Aux.cluster cs :: post)
             = Golf.main_flags src (argv0 :: pre ++ Aux.separate cs ++ post))
    as Hctx.
  { intros pre post Hpre Hpost. apply main_flags_decluster.
    now apply decluster_cluster_in_context. }
  split; [|exact Hctx].
  specialize (Hctx [] [] (Forall_nil _)). simpl in Hctx.
  rewrite app_nil_r in Hctx. apply Hctx. discriminate.
Qed.

Lemma C5_cluster_equiv_separate_witness :
  Forall Aux.no_value_flag ["l"; "a"; "n"]%char
  /\ Golf.main_flags "" ["golf"; "-lan"]
     = Golf.main_flags "" ["golf"; "-l"; "-a"; "-n"]
  /\ exists p, result (Golf.main_flags "" ["golf"; "-lan"]) = Ret p
               /\ Golf.FlgL (fst p) = true /\ Golf.FlgA (fst p) = true.
Proof.
  assert (Forall Aux.no_value_flag ["l"; "a"; "n"]%char) as H
    by (repeat constructor).
  split; [exact H|].
  split; [exact (proj1 (C5_cluster_equiv_separate "" "golf" _ H))|].
  eexists. vm_compute. repeat split.
Defined.

(** What the loop does at a [--]: when the arguments before it are
    declustered to [res], the new argument vector is [res], then the
    argument that stood before [--] once more, then [--] and what follows
    it. *)
Lemma decluster_from_terminator (pre : list string) :
  Forall (fun v => v <> "--") pre ->
  forall (prev : string) (post res res' : list string),
    Aux.decluster_from prev pre res = ret res' ->
    Aux.decluster_from prev (pre ++ "--" :: post) res
    = ret (res' ++ last pre prev :: "--" :: post).
Proof.
  induction 1 as [|v pre Hv _ IH]; intros prev post res res' Hres.
  - simpl in Hres. injection Hres as <-. reflexivity.
  - cbn [app Aux.decluster_from] in *. destruct v as [|c0 v1]; [discriminate|].
    repeat case_if.
    + rewrite (IH _ post _ _ Hres). now rewrite last_cons_prev.
    + apply String.eqb_eq in Heqb0. contradiction.
    + unfold bind in *.
      destruct (Golf.cluster_loop _ _ _ _) as [ev [r| |]]; try discriminate.
      destruct (Aux.decluster_from (String c0 v1) pre r) as [ev' r'] eqn:E.
      injection Hres as Hev ->. apply app_eq_nil in Hev as [-> ->].
      rewrite (IH _ post _ _ E). now rewrite last_cons_prev.
Qed.

Lemma decluster_terminator (argv0 : string) (pre post res : list string) :
  Forall (fun v => v <> "--") pre ->
  Golf.decluster (argv0 :: pre) = ret res ->
  Golf.decluster (argv0 :: pre ++ "--" :: post)
  = ret (res ++ last pre argv0 :: "--" :: post).
Proof.
  intros Hpre. rewrite !decluster_from_argv0.
  now apply decluster_from_terminator.
Qed.

(** C4, at an input where the code departs from it. With the arguments
    -e code -- f, the argument before [--] is appended a second time:
    the new argument vector is not the old one, and the arguments that
    reach the generated program are code, [--] and f instead of f. *)
Theorem C4_decluster_terminator_duplicates :
  Golf.decluster ["golf"; "-e"; "code"; "--"; "f"]
  = ret ["golf"; "-e"; "code"; "code"; "--"; "f"]
  /\ (exists p, result (Golf.main_flags "" ["golf"; "-e"; "code"; "--"; "f"])
                = Ret p
                /\ Golf.RawArgs (fst p) = ["code"; "--"; "f"])
  /\ Golf.decluster ["golf"; "--"; "f"] = ret ["golf"; "golf"; "--"; "f"].
Proof.
  split; [reflexivity|]. split; [|reflexivity].
  eexists. vm_compute. split; reflexivity.
Qed.

(** C10, at an input where the code departs from it: an empty argument.
    The test of its first byte is out of range and the program panics
    before any flag is parsed. The last line is the invocation the
    package documentation gives for pipe mode with an empty snippet. *)
Theorem C10_decluster_empty_argument_panics :
  result (Golf.decluster ["golf"; ""])
  = Panic "index out of range [0] with length 0"
  /\ result (Golf.main_flags "" ["golf"; "-F"; ""; "-e"; "x"])
     = Panic "index out of range [0] with length 0"
  /\ result (Golf.decluster ["golf"; "-pe"; ""; "FILE1"; "FILE2"; "FILE3"])
     = Panic "index out of range [0] with length 0".
Proof. repeat split; reflexivity. Qed.

(** Every argument vector with an empty argument in flag position makes
    [decluster] panic or exit: it never returns. *)
Lemma decluster_from_empty_argument (pre : list string) :
  Forall (fun v => v <> "--") pre ->
  forall (prev : string) (post res : list string),
    is_fatal (result (Aux.decluster_from prev (pre ++ "" :: post) res))
    = true.
Proof.
  induction 1 as [|v pre Hv _ IH]; intros prev post res; [reflexivity|].
  cbn [app Aux.decluster_from]. destruct v as [|c0 v1]; [reflexivity|].
  repeat case_if.
  - apply IH.
  - apply String.eqb_eq in Heqb0. contradiction.
  - unfold bind.
    destruct (Golf.cluster_loop _ _ _ _) as [ev [r| |]]; try reflexivity.
    specialize (IH (String c0 v1) post r).
    destruct (Aux.decluster_from _ _ _) as [ev' r']. exact IH.
Qed.

(** ** Flag parsing and the implications of [main] (C8) *)

(** A round that sees a flag has looked it up and called its [Set]. *)
Lemma parseOne_Seen {V} (formal : list (Flag.Flag V)) (s : string)
      (next : option string) (vs vs' : V) (name : string) (used : bool) :
  Flag.parseOne V formal s next vs = Flag.Seen V vs' name used ->
  exists flag value,
    Flag.lookup V formal name = Some flag
    /\ Flag.SetValue flag value vs = inl vs'.
Proof.
  unfold Flag.parseOne.
  destruct (Flag.split_value _) as [nm value].
  repeat case_if; try discriminate;
    (destruct (Flag.lookup V formal nm) as [flag|] eqn:El; [|discriminate]);
    destruct (Flag.IsBoolFlag flag); destruct value as [value|];
      try destruct next as [nxt|]; try discriminate;
    match goal with
    | |- context [Flag.SetValue flag ?x vs] =>
      destruct (Flag.SetValue flag x vs) eqn:Es
    end; try discriminate; intros [= <- <- _]; eauto.
Qed.

(** Among golf's flags, only F writes the separator. *)
Lemma SetValue_keeps_flgF (name value : string) (flag : Flag.Flag Golf.FlagVars)
      (vs vs' : Golf.FlagVars) :
  Flag.lookup Golf.FlagVars Golf.formal name = Some flag ->
  Flag.SetValue flag value vs = inl vs' ->
  name <> "F" ->
  Golf.flgF vs' = Golf.flgF vs.
Proof.
  intros Hl Hs Hn. unfold Golf.formal in Hl.
  cbn [Flag.lookup Flag.Name Golf.stringFlag Golf.boolFlag Golf.stringsFlag]
    in Hl.
  repeat match type of Hl with
         | context [if ?b then _ else _] => destruct b eqn:?
         end;
    try discriminate;
    injection Hl as <-;
    cbn [Flag.SetValue Golf.stringFlag Golf.boolFlag Golf.stringsFlag] in Hs;
    try (unfold Flag.boolValue in Hs;
         destruct (Strconv.ParseBool value); [|discriminate]);
    try unfold Flag.stringValue in Hs;
    try unfold Golf.append_modules in Hs;
    try unfold Golf.append_beginSrc in Hs;
    try unfold Golf.append_endSrc in Hs;
    try (injection Hs as <-; reflexivity).
  match goal with
  | H : ("F" =? name)%string = true |- _ =>
    apply String.eqb_eq in H; congruence
  end.
Qed.

Lemma member_record_actual (name x : string) (act : list string) :
  Golf.member (Flag.record_actual name act) x = false ->
  Golf.member act x = false /\ name <> x.
Proof.
  unfold Flag.record_actual, Golf.member.
  destruct (existsb (String.eqb name) act) eqn:E.
  - intros H. split; [assumption|]. intros ->.
    apply existsb_exists in E as [y [Hy Hxy]].
    apply String.eqb_eq in Hxy. subst y.
    assert (existsb (String.eqb x) act = true) as C.
    { apply existsb_exists. exists x. split; [assumption|apply String.eqb_refl]. }
    congruence.
  - cbn [existsb]. intros H. apply orb_false_elim in H as [H1 H2].
    split; [assumption|]. apply String.eqb_neq in H1. congruence.
Qed.

Lemma parseOne_separator (s : string) (next : option string)
      (vs vs' : Golf.FlagVars) (name : string) (used : bool)
      (act : list string) :
  Flag.parseOne Golf.FlagVars Golf.formal s next vs
  = Flag.Seen Golf.FlagVars vs' name used ->
  Aux.separator_untouched vs act ->
  Aux.separator_untouched vs' (Flag.record_actual name act).
Proof.
  intros Hp Hinv Hm.
  apply parseOne_Seen in Hp as (flag & value & Hl & Hs).
  apply member_record_actual in Hm as [Hm Hn].
  rewrite (SetValue_keeps_flgF _ _ _ _ _ Hl Hs Hn). now apply Hinv.
Qed.

Lemma fail_is_fatal {A} (argv0 : string) (err : error) (a : A) :
  result (Flag.fail argv0 err) <> Ret a.
Proof. destruct err; discriminate. Qed.

Lemma Parse_separator (argv0 : string) (n : nat) :
  forall (arguments : list string) (vs : Golf.FlagVars) (act : list string)
         (parsed : Flag.Parsed Golf.FlagVars),
    (List.length arguments <= n)%nat ->
    result (Flag.Parse Golf.FlagVars Golf.formal argv0 arguments vs act)
    = Ret parsed ->
    Aux.separator_untouched vs act ->
    Aux.separator_untouched (Flag.vars parsed) (Flag.actual parsed).
Proof.
  induction n as [|n IH]; intros arguments vs act parsed Hlen Hres Hinv.
  - destruct arguments; [|simpl in Hlen; lia].
    injection Hres as <-. exact Hinv.
  - destruct arguments as [|s rest]; [injection Hres as <-; exact Hinv|].
    cbn [Flag.Parse] in Hres. simpl in Hlen.
    destruct (Flag.parseOne _ _ s (hd_error rest) vs)
      as [| |vs' name used|err] eqn:Ep.
    + injection Hres as <-. exact Hinv.
    + injection Hres as <-. exact Hinv.
    + pose proof (parseOne_separator _ _ _ _ _ _ act Ep Hinv) as Hinv'.
      destruct used; [destruct rest as [|nxt rest']|].
      * eapply IH; [|exact Hres|exact Hinv']. simpl. lia.
      * eapply IH; [|exact Hres|exact Hinv']. simpl in *. lia.
      * eapply IH; [|exact Hres|exact Hinv']. lia.
    + now apply fail_is_fatal in Hres.
Qed.

(** Sorting keeps the elements. *)
Lemma In_insert_sorted (x y : string) (l : list string) :
  In x (insert_sorted y l) <-> x = y \/ In x l.
Proof.
  induction l as [|z l IH]; simpl; [intuition|].
  destruct (String.leb y z); simpl; [intuition|].
  rewrite IH. intuition.
Qed.

Lemma In_sort_Strings (x : string) (l : list string) :
  In x (sort_Strings l) <-> In x l.
Proof.
  induction l as [|y l IH]; simpl; [reflexivity|].
  rewrite In_insert_sorted, IH. intuition.
Qed.

(** The visit of the set flags touches flgA only, and sets it when F is
    among them. *)
Lemma visit_F_fold (l : list string) :
  forall v : Golf.FlagVars,
    let v' := fold_left
                (fun v name => if (name =? "F")%string
                               then Golf.set_flgA true v else v) l v in
    Golf.flgF v' = Golf.flgF v
    /\ Golf.flgN v' = Golf.flgN v
    /\ Golf.flgP v' = Golf.flgP v
    /\ Golf.inplace v' = Golf.inplace v
    /\ Golf.inplaceBak v' = Golf.inplaceBak v
    /\ (Golf.flgA v = true \/ In "F" l -> Golf.flgA v' = true).
Proof.
  induction l as [|x l IH]; intros v; cbn [fold_left].
  - cbv zeta. repeat split. intros [H|[]]. exact H.
  - destruct (String.eqb_spec x "F") as [->|Hx].
    + destruct (IH (Golf.set_flgA true v)) as (H1 & H2 & H3 & H4 & H5 & H6).
      cbv zeta. repeat split; try assumption. intros _. apply H6. now left.
    + destruct (IH v) as (H1 & H2 & H3 & H4 & H5 & H6).
      cbv zeta. repeat split; try assumption.
      intros [H|[H|H]]; [auto|congruence|auto].
Qed.

Lemma member_In (l : list string) (x : string) :
  Golf.member l x = true <-> In x l.
Proof.
  unfold Golf.member. rewrite existsb_exists. split.
  - intros [y [Hy Hxy]]. apply String.eqb_eq in Hxy. now subst.
  - intros H. exists x. split; [assumption|apply String.eqb_refl].
Qed.

(** C8. Whenever flag processing hands a [Prog] record to the
    synthesis, the record satisfies the four implications: a separator
    other than the default implies auto-split; auto-split implies line
    mode; pipe mode implies line mode; a non-empty backup pattern implies
    in-place mode. *)
Theorem C8_implications (src : string) (Args : list string)
        (p : Golf.Prog) (gv : string) :
  result (Golf.main_flags src Args) = Ret (p, gv) ->
  (Golf.FlgF p <> " " -> Golf.FlgA p = true)
  /\ (Golf.FlgA p = true -> Golf.FlgN p = true)
  /\ (Golf.FlgP p = true -> Golf.FlgN p = true)
  /\ (Golf.InPlaceBak p <> "" -> Golf.InPlace p = true).
Proof.
  unfold Golf.main_flags. intros H.
  apply bind_result_ret in H as (Args' & _ & H).
  apply bind_result_ret in H as (parsed & Hparse & H).
  destruct (Golf.help (Flag.vars parsed)); [discriminate|].
  injection H as <- _.
  cbn [Golf.FlgF Golf.FlgA Golf.FlgN Golf.FlgP Golf.InPlace Golf.InPlaceBak].
  assert (Aux.separator_untouched (Flag.vars parsed) (Flag.actual parsed))
    as Hinv.
  { eapply Parse_separator; [apply Nat.le_refl|exact Hparse|].
    intros _. reflexivity. }
  destruct (visit_F_fold (sort_Strings (Flag.actual parsed))
                         (Flag.vars parsed))
    as (HF & HN & HP & Hi & HI & HA).
  fold (Golf.visit_F (Flag.actual parsed) (Flag.vars parsed)) in *.
  set (v := Golf.visit_F (Flag.actual parsed) (Flag.vars parsed)) in *.
  cbn [Golf.set_inplace Golf.set_flgN Golf.flgF Golf.flgA Golf.flgN
       Golf.flgP Golf.inplace Golf.inplaceBak].
  repeat split.
  - intros Hsep. apply HA. right. apply In_sort_Strings, member_In.
    destruct (Golf.member (Flag.actual parsed) "F") eqn:E; [reflexivity|].
    exfalso. apply Hsep. rewrite HF. now apply Hinv.
  - intros ->. now rewrite orb_true_r.
  - intros ->. now rewrite orb_true_r.
  - intros Hbak. apply orb_true_iff. right. apply Nat.ltb_lt.
    destruct (Golf.inplaceBak v); [congruence|simpl; lia].
Qed.

Lemma C8_implications_witness :
  exists p gv,
    result (Golf.main_flags ""
              ["golf"; "-F"; ":"; "-I"; ".bak"; "-e"; "Print(Field(1))"; "f"])
    = Ret (p, gv)
    /\ Golf.FlgF p = ":" /\ Golf.InPlaceBak p = ".bak"
    /\ Golf.FlgA p = true /\ Golf.FlgN p = true /\ Golf.InPlace p = true.
Proof.
  eexists. eexists.
  assert (forall p gv,
             result (Golf.main_flags ""
                       ["golf"; "-F"; ":"; "-I"; ".bak"; "-e";
                        "Print(Field(1))"; "f"]) = Ret (p, gv) ->
             Golf.FlgF p = ":" -> Golf.InPlaceBak p = ".bak" ->
             Golf.FlgA p = true /\ Golf.FlgN p = true
             /\ Golf.InPlace p = true) as H.
  { intros p gv Hr HF HI.
    destruct (C8_implications _ _ _ _ Hr) as (H1 & H2 & _ & H4).
    assert (Golf.FlgA p = true) as HA by (apply H1; rewrite HF; discriminate).
    repeat split; [exact HA|now apply H2|].
    apply H4. rewrite HI. discriminate. }
  split; [vm_compute; reflexivity|].
  split; [reflexivity|]. split; [reflexivity|].
  apply (H _ _ eq_refl eq_refl eq_refl).
Defined.

(** ** The driver (C3) *)

Lemma result_bind {A B} (m : Eff A) (f : A -> Eff B) :
  result (bind m f)
  = match result m with
    | Ret a => result (f a)
    | Exit c => Exit c
    | Panic msg => Panic msg
    end.
Proof.
  destruct m as [ev [a|c|msg]]; simpl; try reflexivity.
  now destruct (f a).
Qed.

Lemma result_Warn (xs : list Value) : result (Prelude.Warn xs) = Ret tt.
Proof.
  unfold Prelude.Warn.
  destruct xs as [|[s| | | |] [|y ys]]; reflexivity.
Qed.

Lemma result_emit (e : Event) : result (emit e) = Ret tt.
Proof. reflexivity. Qed.

Lemma result_ret {A} (a : A) : result (ret a) = Ret a.
Proof. reflexivity. Qed.

(** [do] answers nil exactly when the command exits with status zero. *)
Lemma do_Exited (os : OS) (c : string) (args : list string) (code : Z)
      (output : string) :
  exec_Command os c args = Exited code output ->
  Golf.do os c args = if code =? 0 then None else Some (ExitError code).
Proof.
  unfold Golf.do. intros ->. cbn [Golf.cmd_Run Golf.ExitCode].
  destruct (Z.eqb_spec code 0); reflexivity.
Qed.

(** Simplification of the result of a sequence of driver steps. *)
Ltac driver_step :=
  repeat (rewrite ?result_bind, ?result_Warn, ?result_emit, ?result_ret;
          cbv beta iota).

(** Whatever happens, [run] hands back 0 or 1. *)
Lemma run_in_zero_or_one (os : OS) (p : Golf.Prog)
      (goVersion tmpdir : string) :
  result (Golf.run_in os p goVersion tmpdir) = Ret 0
  \/ result (Golf.run_in os p goVersion tmpdir) = Ret 1.
Proof.
  unfold Golf.run_in.
  repeat match goal with
         | |- context [match ?x with _ => _ end] =>
           lazymatch x with
           | result _ => fail
           | _ => destruct x; driver_step; auto
           end
         end.
Qed.

Lemma run_zero_or_one (os : OS) (p : Golf.Prog) (goVersion : string) :
  result (Golf.run os p goVersion) = Ret 0
  \/ result (Golf.run os p goVersion) = Ret 1.
Proof.
  unfold Golf.run.
  destruct (os_MkdirTemp os "" "golf-") as [tmp|err]; driver_step; auto.
  destruct (filepath_Abs os tmp) as [tmpdir|err]; driver_step; auto.
  assert (result (if Golf.Keep p
                  then emit (StderrPrintln [VString tmpdir])
                  else ret tt) = Ret tt) as -> by now destruct (Golf.Keep p).
  cbv beta iota. driver_step.
  assert (result (if Golf.Keep p then ret tt
                  else match os_RemoveAll os tmpdir with
                       | Some err =>
                         Prelude.Warn
                           [VString ("golf: rmall tmp: %v" +++ nl); VError err]
                       | None => ret tt
                       end) = Ret tt) as Hclean.
  { destruct (Golf.Keep p); [reflexivity|].
    destruct (os_RemoveAll os tmpdir); [apply result_Warn|reflexivity]. }
  destruct (run_in_zero_or_one os p goVersion tmpdir) as [-> | ->];
    cbv beta iota; driver_step; rewrite Hclean; auto.
Qed.

(** The exit status of golf itself: whenever the flags are accepted and
    the template is rendered, golf exits with 0 or 1. *)
Lemma main_exit_status (os : OS) (execute : Golf.Prog -> string + error)
      (format_Source : string -> string + error)
      (src : string) (Args : list string) (pg : Golf.Prog * string)
      (p : Golf.Prog) :
  result (Golf.main_flags src Args) = Ret pg ->
  Golf.transform execute format_Source (fst pg) = inl p ->
  result (Golf.main os execute format_Source src Args) = Exit 0
  \/ result (Golf.main os execute format_Source src Args) = Exit 1.
Proof.
  intros Hflags Htr. unfold Golf.main.
  rewrite result_bind, Hflags, Htr, result_bind.
  destruct (run_zero_or_one os p (snd pg)) as [-> | ->]; auto.
Qed.

(** C3, as the code has it. When the run gets as far as starting the
    generated program and that program exits with status [code], [run]
    returns 0 if [code] is 0 and 1 otherwise; and whatever the run does,
    [run] returns 0 or 1. The child's status is reduced to success or
    failure, not handed on. *)
Theorem C3_run_reports_success_or_failure (os : OS) (p : Golf.Prog)
        (goVersion tmpdir origdir : string) (code : Z) (output : string) :
  Aux.reaches_execution os p tmpdir origdir ->
  exec_Command os (filepath_Join os tmpdir Golf.binname) (Golf.RawArgs p)
  = Exited code output ->
  result (Golf.run os p goVersion) = Ret (if code =? 0 then 0 else 1)
  /\ (result (Golf.run os p goVersion) = Ret 0
      \/ result (Golf.run os p goVersion) = Ret 1).
Proof.
  intros Hreach Hchild. split; [|apply run_zero_or_one].
  destruct Hreach as ((tmp & Hmk & Habs) & Hwd & Hcd & Hwr & Hgi & Htidy
                      & Hbuild & Hback).
  unfold Golf.run. rewrite Hmk, Habs.
  assert (result (Golf.run_in os p goVersion tmpdir)
          = Ret (if code =? 0 then 0 else 1)) as Hin.
  { unfold Golf.run_in. rewrite Hwd, Hcd, Hwr. driver_step.
    assert (result
              (if Golf.Goimports p
               then Prelude.Warn [VString ">>goimports"];;;
                    match Golf.doQ os "goimports" ["-w"; "."] with
                    | Some err =>
                      Prelude.Warn [VString ("golf: goimports: %v" +++ nl);
                                    VError err];;; ret false
                    | None => ret true
                    end
               else ret true) = Ret true) as ->.
    { destruct (Golf.Goimports p); [|reflexivity].
      rewrite (Hgi eq_refl). reflexivity. }
    cbv beta iota. cbn [negb].
    destruct (existsb (fun v => Strings.Contains v "/") (Golf.Imports p)).
    - destruct (Htidy eq_refl) as [-> ->]. driver_step. cbn [negb].
      rewrite Hbuild, Hback, (do_Exited _ _ _ _ _ Hchild).
      destruct (code =? 0); driver_step; reflexivity.
    - destruct (os_WriteFile os "go.mod" _); driver_step; cbn [negb];
        rewrite Hbuild, Hback, (do_Exited _ _ _ _ _ Hchild);
        destruct (code =? 0); driver_step; reflexivity. }
  driver_step.
  assert (result (if Golf.Keep p
                  then emit (StderrPrintln [VString tmpdir])
                  else ret tt) = Ret tt) as -> by now destruct (Golf.Keep p).
  cbv beta iota. driver_step. rewrite Hin. cbv beta iota. driver_step.
  destruct (Golf.Keep p); [reflexivity|].
  destruct (os_RemoveAll os tmpdir); [rewrite result_Warn|]; reflexivity.
Qed.

Lemma sample_reaches_execution :
  Aux.reaches_execution sample_os sample_prog "/tmp/golf-1" "/home/gopher".
Proof.
  unfold Aux.reaches_execution.
  split; [exists "/tmp/golf-1"; split; reflexivity|].
  repeat split; try reflexivity; discriminate.
Defined.

Lemma C3_run_reports_success_or_failure_witness :
  Aux.reaches_execution sample_os sample_prog "/tmp/golf-1" "/home/gopher"
  /\ result (Golf.run sample_os sample_prog "1.17") = Ret 1.
Proof.
  split; [exact sample_reaches_execution|].
  exact (proj1 (C3_run_reports_success_or_failure
                  sample_os sample_prog "1.17" "/tmp/golf-1" "/home/gopher"
                  2 "" sample_reaches_execution eq_refl)).
Defined.

(** C3 as stated fails: on a machine where every step succeeds and the
    generated program exits with status 2, [run] returns 1. *)
Lemma C3_exit_status_not_propagated :
  exec_Command sample_os
               (filepath_Join sample_os "/tmp/golf-1" Golf.binname)
               (Golf.RawArgs sample_prog) = Exited 2 ""
  /\ result (Golf.run sample_os sample_prog "1.17") = Ret 1
  /\ ~ Spec.exit_status_propagated.
Proof.
  split; [reflexivity|]. split; [reflexivity|].
  intros H.
  specialize (H sample_os sample_prog "1.17" "/tmp/golf-1" "/home/gopher"
                2 "" sample_reaches_execution eq_refl).
  discriminate H.
Qed.

(** ** The scaffold at a file boundary (C2) *)

Section ScaffoldFacts.

Import Prelude Scaffold.

Variable fs : FS.

Lemma flush_returns (st : State) :
  exists ev st', _golfFlushP st = (ev, Ret st')
                 /\ Filename (globals st') = Filename (globals st)
                 /\ GolfInPlace (globals st') = GolfInPlace (globals st)
                 /\ GolfInPlaceBak (globals st') = GolfInPlaceBak (globals st).
Proof.
  unfold _golfFlushP. destruct (_golfPDirty st).
  - unfold Print, bind, emit, ret; cbn.
    destruct (GolfFlgL (globals st)); cbn; eauto 6.
  - unfold ret. eauto 6.
Qed.

Lemma close_returns (st : State) :
  exists ev st', _golfCloseOut fs st = (ev, Ret st')
                 /\ Filename (globals st') = Filename (globals st)
                 /\ GolfInPlace (globals st') = GolfInPlace (globals st)
                 /\ GolfInPlaceBak (globals st') = GolfInPlaceBak (globals st).
Proof.
  unfold _golfCloseOut. destruct (handle_eqb _ _).
  - unfold ret. eauto 6.
  - destruct (file_Close fs (CurOut (globals st))) as [err|].
    + unfold Warn, bind, emit, ret. cbn. eauto 6.
    + unfold bind, emit, ret. cbn. eauto 6.
Qed.

(** The state in which the input is opened: the pending line was
    flushed and the previous output closed. *)
Lemma open_file_head (st : State) (name : string) :
  exists st',
    Filename (globals st') = name
    /\ GolfInPlace (globals st') = GolfInPlace (globals st)
    /\ GolfInPlaceBak (globals st') = GolfInPlaceBak (globals st)
    /\ forall B (k : State -> Eff B),
        result (st1 <- _golfFlushP
                         {| globals := with_Filename name (globals st);
                            _golfPDirty := _golfPDirty st |} ;;
                st2 <- _golfCloseOut fs st1 ;; k st2)
        = result (k st').
Proof.
  destruct (flush_returns {| globals := with_Filename name (globals st);
                             _golfPDirty := _golfPDirty st |})
    as (ev1 & st1 & E1 & F1 & I1 & B1).
  destruct (close_returns st1) as (ev2 & st2 & E2 & F2 & I2 & B2).
  exists st2. cbn in F1, I1, B1.
  repeat split; try congruence.
  intros B k. rewrite result_bind, E1. cbn [result snd].
  rewrite result_bind, E2. reflexivity.
Qed.

(** A failure to open the input is fatal. *)
Lemma open_failure_fatal (st : State) (name : string) (input : Input)
      (e : error) :
  os_Open fs name = (input, Some e) ->
  result (open_file fs st name) = Exit 1.
Proof.
  intros Hopen. unfold open_file.
  destruct (open_file_head st name) as (st' & HF & _ & _ & Hk).
  rewrite Hk. cbv zeta. rewrite HF, Hopen.
  rewrite result_bind. reflexivity.
Qed.

(** Without a backup pattern, a failure to unlink the input is fatal. *)
Lemma remove_failure_fatal (st : State) (name : string) (input : Input)
      (e : error) :
  GolfInPlace (globals st) = true ->
  GolfInPlaceBak (globals st) = "" ->
  os_Open fs name = (input, None) ->
  os_Remove fs name = Some e ->
  result (open_file fs st name) = Exit 1.
Proof.
  intros Hin Hbak Hopen Hrm. unfold open_file.
  destruct (open_file_head st name) as (st' & HF & HI & HB & Hk).
  rewrite Hk. cbv zeta. rewrite HF, Hopen, HI, Hin, HB, Hbak.
  cbn [String.eqb]. rewrite Hrm. reflexivity.
Qed.

(** A failure to create the output is fatal, once the step before it
    has let the program through. *)
Lemma create_failure_fatal (st : State) (name : string) (input : Input)
      (out : Handle) (e : error) :
  GolfInPlace (globals st) = true ->
  os_Open fs name = (input, None) ->
  (GolfInPlaceBak (globals st) = "" -> os_Remove fs name = None) ->
  os_Create fs name = (out, Some e) ->
  result (open_file fs st name) = Exit 1.
Proof.
  intros Hin Hopen Hrm Hcreate. unfold open_file.
  destruct (open_file_head st name) as (st' & HF & HI & HB & Hk).
  rewrite Hk. cbv zeta. rewrite HF, Hopen, HI, Hin, HB.
  destruct (String.eqb_spec (GolfInPlaceBak (globals st)) "") as [Hb|Hb].
  - rewrite (Hrm Hb), Hcreate. reflexivity.
  - rewrite Hcreate. reflexivity.
Qed.

(** With a backup pattern, the answer of the rename is not looked at:
    whether it fails or not, the program goes on to create the output
    and to read the file. *)
Lemma rename_failure_ignored (st : State) (name : string) (input : Input)
      (out : Handle) :
  GolfInPlace (globals st) = true ->
  GolfInPlaceBak (globals st) <> "" ->
  os_Open fs name = (input, None) ->
  os_Create fs name = (out, None) ->
  exists st',
    result (open_file fs st name) = Ret (st', input)
    /\ CurOut (globals st') = out.
Proof.
  intros Hin Hbak Hopen Hcreate. unfold open_file.
  destruct (open_file_head st name) as (st' & HF & HI & HB & Hk).
  rewrite Hk. cbv zeta. rewrite HF, Hopen, HI, Hin, HB.
  destruct (String.eqb_spec (GolfInPlaceBak (globals st)) "") as [Hb|Hb];
    [contradiction|].
  rewrite Hcreate. cbn. eauto.
Qed.

End ScaffoldFacts.

(** C2, at an input where the code departs from it: in-place mode with a
    backup pattern, on a file system where the rename to the backup name
    fails. The generated program does not exit: it creates the output
    under the original name, which empties the file it has just opened,
    finds no line to read, closes the output and ends normally. *)
Theorem C2_rename_failure_not_fatal :
  let st := {| Scaffold.globals := Scaffold.init sample_inplace_prog;
               Scaffold._golfPDirty := false |} in
  Scaffold.os_Rename sample_fs "f" (Prelude.BackupName "f" "missing/*")
  = Some (PathError "rename" "f" "no such file or directory")
  /\ (exists st',
         Scaffold.open_file sample_fs st "f"
         = ([], Ret (st', {| Scaffold.lines := [];
                             Scaffold.scanErr := None |}))
         /\ Prelude.CurOut (Scaffold.globals st') = FileOut "f")
  /\ (exists st',
         Scaffold.line_mode sample_fs no_regexp sample_inplace_prog
                            empty_snippet
                            (Scaffold.init sample_inplace_prog) ["f"]
         = ([OutClose (FileOut "f")], Ret st')).
Proof.
  cbv zeta. split; [reflexivity|].
  split; eexists; [split|]; vm_compute; reflexivity.
Qed.

(** ** GSplit (C7) *)

(** *** The default separator *)

Lemma DecodeRune_width (s : string) :
  s <> "" -> (1 <= snd (Utf8.DecodeRuneInString s))%nat.
Proof.
  destruct s as [|c t]; [congruence|]. intros _.
  unfold Utf8.DecodeRuneInString.
  destruct (byteZ c <? Utf8.RuneSelf); [simpl; lia|].
  destruct (Utf8.first (byteZ c)) as [[[sz lo] hi]|]; [|simpl; lia].
  repeat case_if; simpl; lia.
Qed.

Lemma stake_nonempty (n : nat) (s : string) :
  (1 <= n)%nat -> s <> "" -> stake n s <> "".
Proof.
  destruct n; [lia|]. destruct s; [congruence|]. discriminate.
Qed.

Lemma runes_fuel_chunks (fuel : nat) (s : string) :
  Forall (fun rb => snd rb <> "") (Utf8.runes_fuel fuel s).
Proof.
  revert s. induction fuel as [|f IH]; intros s; [constructor|].
  cbn [Utf8.runes_fuel]. destruct s as [|c t]; [constructor|].
  pose proof (DecodeRune_width (String c t)) as Hw.
  destruct (Utf8.DecodeRuneInString (String c t)) as [r w].
  constructor; [|apply IH].
  apply stake_nonempty; [apply Hw|]; discriminate.
Qed.

(** The fuel of [runes] is enough: the chunks make up the whole string. *)
Lemma runes_fuel_whole (fuel : nat) (s : string) :
  (String.length s <= fuel)%nat ->
  Strings.Join (map snd (Utf8.runes_fuel fuel s)) "" = s.
Proof.
  revert s. induction fuel as [|f IH]; intros s Hlen.
  - destruct s; [reflexivity|simpl in Hlen; lia].
  - cbn [Utf8.runes_fuel]. destruct s as [|c t]; [reflexivity|].
    pose proof (DecodeRune_width (String c t)) as Hw.
    destruct (Utf8.DecodeRuneInString (String c t)) as [r w].
    cbn [map snd Strings.Join].
    assert (String.length (sdrop w (String c t)) <= f)%nat as Hrest.
    { assert (1 <= w)%nat by (apply Hw; discriminate).
      rewrite sdrop_length. cbn [String.length] in *. lia. }
    specialize (IH _ Hrest).
    destruct (map snd (Utf8.runes_fuel f (sdrop w (String c t)))) as [|x l] eqn:E.
    + simpl in IH. rewrite <- (stake_sdrop w (String c t)) at 2.
      rewrite <- IH. now rewrite append_nil_r.
    + rewrite IH. cbn [String.append]. apply stake_sdrop.
Qed.

Lemma explode_whole (s : string) : Strings.Join (Strings.explode s) "" = s.
Proof. apply runes_fuel_whole, Nat.le_refl. Qed.

Lemma pieces_cons (rs : list (Z * string)) :
  exists s t, Spec.pieces rs = s :: t.
Proof.
  destruct rs as [|[r b] rs]; simpl; [eauto|].
  destruct (Unicode.IsSpace r); [eauto|].
  destruct (Spec.pieces rs); eauto.
Qed.

Lemma nonempty_append (a b : string) :
  a <> "" -> Spec.nonempty (a +++ b) = true.
Proof. destruct a; [congruence|reflexivity]. Qed.

(** The loop of [FieldsFunc] against the pieces between whitespace. *)
Lemma fields_loop_pieces (rs : list (Z * string)) :
  Forall (fun rb => snd rb <> "") rs ->
  Strings.fields_loop Unicode.IsSpace None rs
  = filter Spec.nonempty (Spec.pieces rs)
  /\ forall w, w <> "" ->
       Strings.fields_loop Unicode.IsSpace (Some w) rs
       = match Spec.pieces rs with
         | s :: t => (w +++ s) :: filter Spec.nonempty t
         | [] => [w]
         end.
Proof.
  induction 1 as [|[r b] rs Hb _ [IH1 IH2]]; simpl in *.
  - split; [reflexivity|]. intros w _. now rewrite append_nil_r.
  - destruct (Unicode.IsSpace r).
    + split; [exact IH1|]. intros w _. now rewrite append_nil_r, IH1.
    + destruct (pieces_cons rs) as (s & t & E). rewrite E in *.
      split.
      * rewrite (IH2 b Hb). cbn [filter]. now rewrite nonempty_append.
      * intros w Hw. rewrite IH2 by (destruct w; [congruence|discriminate]).
        now rewrite append_assoc.
Qed.

Lemma Fields_whitespace_fields (input : string) :
  Strings.Fields input = Spec.whitespace_fields input.
Proof.
  unfold Strings.Fields, Strings.FieldsFunc, Spec.whitespace_fields.
  apply fields_loop_pieces. apply runes_fuel_chunks.
Qed.

(** *** A literal separator *)

Lemma prefix_nil (s : string) : String.prefix "" s = true.
Proof. now destruct s. Qed.

Lemma prefix_cons (a b : ascii) (p s : string) :
  String.prefix (String a p) (String b s)
  = if ascii_dec a b then String.prefix p s else false.
Proof. reflexivity. Qed.

Lemma prefix_decompose (p s : string) :
  String.prefix p s = true -> s = p +++ sdrop (String.length p) s.
Proof.
  revert s. induction p as [|a p IH]; intros s; [reflexivity|].
  destruct s as [|b s]; [discriminate|]. rewrite prefix_cons.
  destruct (ascii_dec a b) as [->|]; [|discriminate].
  intros H. simpl. f_equal. now apply IH.
Qed.

Lemma prefix_stake (p s : string) (n : nat) :
  String.prefix p (stake n s) = true -> String.prefix p s = true.
Proof.
  revert s n. induction p as [|a p IH]; intros s n;
    [intros _; apply prefix_nil|].
  destruct n, s as [|b s]; try discriminate. cbn [stake].
  rewrite !prefix_cons. destruct (ascii_dec a b); [apply IH|discriminate].
Qed.

Lemma sdrop_sdrop (a b : nat) (s : string) :
  sdrop a (sdrop b s) = sdrop (b + a) s.
Proof.
  revert s. induction b as [|b IH]; intros s; [reflexivity|].
  destruct s; [now destruct a|]. simpl. apply IH.
Qed.

Lemma sdrop_stake (k m : nat) (s : string) :
  sdrop k (stake m s) = stake (m - k) (sdrop k s).
Proof.
  revert m s. induction k as [|k IH]; intros m s.
  - now rewrite Nat.sub_0_r.
  - destruct m, s; try reflexivity; simpl.
    + now destruct (m - k)%nat.
    + apply IH.
Qed.

Lemma stake_length (m : nat) (s : string) :
  (m <= String.length s)%nat -> String.length (stake m s) = m.
Proof.
  revert s. induction m as [|m IH]; intros [|c s] H; simpl in *; try lia.
  rewrite IH; lia.
Qed.

(** [Index] finds the first place where [sep] starts. *)
Lemma Index_Some (sep s : string) (m : nat) :
  Strings.Index s sep = Some m ->
  String.prefix sep (sdrop m s) = true
  /\ (m <= String.length s)%nat
  /\ forall k, (k < m)%nat -> String.prefix sep (sdrop k s) = false.
Proof.
  revert m. induction s as [|c s IH]; intros m; cbn [Strings.Index].
  - destruct (String.prefix sep "") eqn:E; [|discriminate].
    intros [= <-]. repeat split; [assumption|lia|lia].
  - destruct (String.prefix sep (String c s)) eqn:E.
    + intros [= <-]. repeat split; [assumption|simpl; lia|lia].
    + destruct (Strings.Index s sep) as [i|]; [|discriminate].
      intros [= <-]. destruct (IH i eq_refl) as (H1 & H2 & H3).
      repeat split; [assumption|simpl; lia|].
      intros [|k] Hk; [exact E|]. apply H3. lia.
Qed.

Lemma Index_None (sep s : string) :
  Strings.Index s sep = None <->
  forall k, (k <= String.length s)%nat ->
            String.prefix sep (sdrop k s) = false.
Proof.
  induction s as [|c s IH]; cbn [Strings.Index].
  - destruct (String.prefix sep "") eqn:E.
    + split; [discriminate|]. intros H. specialize (H 0%nat (Nat.le_refl _)).
      cbn [sdrop] in H. congruence.
    + split; [|reflexivity]. intros _ [|k] Hk; [assumption|simpl in Hk; lia].
  - destruct (String.prefix sep (String c s)) eqn:E.
    + split; [discriminate|]. intros H. specialize (H 0%nat (Nat.le_0_l _)).
      cbn [sdrop] in H. congruence.
    + destruct (Strings.Index s sep) as [i|].
      * split; [discriminate|]. intros H. exfalso.
        assert (Some i = None) as C; [|discriminate].
        apply IH. intros k Hk. apply (H (S k)). simpl. lia.
      * split; [|reflexivity]. intros _ [|k] Hk; [assumption|].
        apply (proj1 IH eq_refl). simpl in Hk. lia.
Qed.

Lemma Index_decompose (sep s : string) (m : nat) :
  Strings.Index s sep = Some m ->
  s = stake m s +++ sep +++ sdrop (m + String.length sep) s.
Proof.
  intros H. apply Index_Some in H as (H & _ & _).
  apply prefix_decompose in H. rewrite sdrop_sdrop in H.
  rewrite <- H. symmetry. apply stake_sdrop.
Qed.

Lemma split_loop_not_nil (fuel : nat) (s sep : string) :
  Strings.split_loop fuel s sep <> [].
Proof.
  destruct fuel; cbn [Strings.split_loop]; [discriminate|].
  destruct (Strings.Index s sep); discriminate.
Qed.

(** The pieces put back together with the separator give the input. *)
Lemma split_loop_join (sep : string) (fuel : nat) (s : string) :
  Strings.Join (Strings.split_loop fuel s sep) sep = s.
Proof.
  revert s. induction fuel as [|f IH]; intros s; [reflexivity|].
  cbn [Strings.split_loop]. destruct (Strings.Index s sep) as [m|] eqn:E;
    [|reflexivity].
  cbn [Strings.Join].
  specialize (IH (sdrop (m + String.length sep) s)).
  destruct (Strings.split_loop f _ sep) as [|x l] eqn:El.
  - now apply split_loop_not_nil in El.
  - rewrite IH. symmetry. now apply Index_decompose.
Qed.

(** No piece holds the separator: the input is cut at every instance. *)
Lemma first_piece_free (sep s : string) (m : nat) :
  sep <> "" ->
  Strings.Index s sep = Some m ->
  Strings.Index (stake m s) sep = None.
Proof.
  intros Hsep H. apply Index_Some in H as (_ & Hm & Hmin).
  apply Index_None. intros k Hk. rewrite stake_length in Hk by assumption.
  rewrite sdrop_stake.
  destruct (Nat.eq_dec k m) as [->|Hne].
  - rewrite Nat.sub_diag. simpl. destruct sep; [congruence|reflexivity].
  - destruct (String.prefix sep (stake (m - k) (sdrop k s))) eqn:E;
      [|reflexivity].
    apply prefix_stake in E. rewrite Hmin in E by lia. discriminate.
Qed.

Lemma split_loop_pieces (sep : string) (fuel : nat) (s : string) :
  sep <> "" ->
  (String.length s <= fuel)%nat ->
  Forall (fun piece => Strings.Contains piece sep = false)
         (Strings.split_loop fuel s sep).
Proof.
  intros Hsep. revert s. unfold Strings.Contains.
  induction fuel as [|f IH]; intros s Hlen.
  - destruct s; [|simpl in Hlen; lia]. constructor; [|constructor].
    destruct sep; [congruence|reflexivity].
  - cbn [Strings.split_loop].
    destruct (Strings.Index s sep) as [m|] eqn:E.
    + constructor; [now rewrite (first_piece_free _ _ _ Hsep E)|].
      apply IH. rewrite sdrop_length.
      assert (1 <= String.length sep)%nat
        by (destruct sep; [congruence|simpl; lia]).
      lia.
    + constructor; [now rewrite E|constructor].
Qed.

(** [strings.Split] cuts at the separator and at nothing else. *)
Lemma Split_join (s sep : string) :
  Strings.Join (Strings.Split s sep) sep = s.
Proof.
  unfold Strings.Split. destruct (String.eqb_spec sep "") as [->|_].
  - apply explode_whole.
  - apply split_loop_join.
Qed.

Lemma Split_pieces (s sep : string) :
  sep <> "" ->
  Forall (fun piece => Strings.Contains piece sep = false)
         (Strings.Split s sep).
Proof.
  intros Hsep. unfold Strings.Split.
  destruct (String.eqb_spec sep ""); [contradiction|].
  now apply split_loop_pieces.
Qed.

(** *** A separator between slashes *)

Lemma byteZ_slash (c : ascii) : byteZ c = 47 -> c = "/"%char.
Proof.
  unfold byteZ. intros H. apply (Nat2Z.inj _ 47%nat) in H.
  rewrite <- (ascii_nat_embedding c), H. reflexivity.
Qed.

Lemma sbyte_slash (s : string) (i : nat) :
  (sbyte s i =? 47) = true -> String.get i s = Some "/"%char.
Proof.
  unfold sbyte. destruct (String.get i s) as [c|]; [|discriminate].
  intros H. apply Z.eqb_eq, byteZ_slash in H. now subst.
Qed.

Lemma get_append_last (a b : string) (c : ascii) :
  String.get (String.length a) (a +++ String c b) = Some c.
Proof. induction a; simpl; auto. Qed.

Lemma last_char (t : string) (c : ascii) :
  String.get (String.length t - 1) t = Some c ->
  t = stake (String.length t - 1) t +++ String c "".
Proof.
  induction t as [|a t IH]; [discriminate|].
  destruct t as [|b t]; [simpl; now intros [= ->]|].
  assert (String.length (String a (String b t)) - 1
          = S (String.length (String b t) - 1))%nat as ->
    by (cbn [String.length]; lia).
  cbn [String.get stake String.append]. intros H. f_equal. now apply IH.
Qed.

(** The test of [GSplit] holds exactly for the separators of the form
    /pat/, and [inner] is then pat. *)
Lemma slashes_test (pat : string) :
  let sep := "/" +++ pat +++ "/" in
  (1 <? String.length sep)%nat && (sbyte sep 0 =? 47)
  && (sbyte sep (String.length sep - 1) =? 47) = true
  /\ Prelude.inner sep = pat
  /\ (sep =? " ")%string = false.
Proof.
  cbv zeta. change ("/" +++ pat +++ "/") with (String "/" (pat +++ "/")).
  assert (String.length (String "/" (pat +++ "/")) = S (S (String.length pat)))
    as Hlen by (simpl; rewrite length_append; simpl; lia).
  split; [|split].
  - rewrite Hlen. cbn [Nat.ltb Nat.leb Nat.sub andb].
    change (sbyte (String "/" (pat +++ "/")) 0) with 47.
    unfold sbyte. cbn [String.get].
    now rewrite get_append_last.
  - unfold Prelude.inner. rewrite Hlen. cbn [Nat.sub sdrop].
    rewrite Nat.sub_0_r. apply stake_append.
  - reflexivity.
Qed.

Lemma test_slashes (sep : string) :
  (1 <? String.length sep)%nat && (sbyte sep 0 =? 47)
  && (sbyte sep (String.length sep - 1) =? 47) = true ->
  Spec.wrapped_in_slashes sep.
Proof.
  intros H. apply andb_prop in H as [H Hlast].
  apply andb_prop in H as [Hlen Hfirst].
  apply Nat.ltb_lt in Hlen. apply sbyte_slash in Hfirst, Hlast.
  destruct sep as [|c t]; [discriminate|]. injection Hfirst as ->.
  destruct t as [|b t]; [simpl in Hlen; lia|].
  assert (String.length (String "/" (String b t)) - 1
          = S (String.length (String b t) - 1))%nat as E
    by (cbn [String.length]; lia).
  rewrite E in Hlast. clear E Hlen. remember (String b t) as u.
  cbn [String.get] in Hlast. apply last_char in Hlast.
  exists (stake (String.length u - 1) u).
  change (String "/" u = String "/" (stake (String.length u - 1) u +++ "/")).
  now rewrite <- Hlast.
Qed.

(** C7. For every input, [GSplit] follows the three-way policy. With the
    separator of one space the result is the input cut at whitespace,
    empty pieces dropped. With a separator /pat/ whose pattern compiles,
    the result is what the compiled expression's [Split] gives, without
    limit. With any other separator the result is [strings.Split] on it:
    the pieces joined with the separator give back the input, and (the
    separator not being empty) no piece contains the separator. The three
    examples of the specification come out as stated, the third for every
    engine that splits a1b2c by [0-9] the way Go's does. *)
Theorem C7_GSplit_policy (re : RegexpEngine) (sep input : string) :
  Prelude.GSplit re " " input = ret (Spec.whitespace_fields input)
  /\ (forall pat r,
         Compile re pat = inl r ->
         Prelude.GSplit re ("/" +++ pat +++ "/") input
         = ret (ReSplit re r input (-1)))
  /\ (sep <> " " -> ~ Spec.wrapped_in_slashes sep ->
      Prelude.GSplit re sep input = ret (Strings.Split input sep)
      /\ Strings.Join (Strings.Split input sep) sep = input
      /\ (sep <> "" ->
          Forall (fun piece => Strings.Contains piece sep = false)
                 (Strings.Split input sep)))
  /\ Prelude.GSplit re " " ("a  b" +++ tab +++ "c") = ret ["a"; "b"; "c"]
  /\ Prelude.GSplit re ":" "a:b:c" = ret ["a"; "b"; "c"]
  /\ (forall r,
         Compile re "[0-9]" = inl r ->
         ReSplit re r "a1b2c" (-1) = ["a"; "b"; "c"] ->
         Prelude.GSplit re "/[0-9]/" "a1b2c" = ret ["a"; "b"; "c"]).
Proof.
  assert (forall pat r inp,
             Compile re pat = inl r ->
             Prelude.GSplit re ("/" +++ pat +++ "/") inp
             = ret (ReSplit re r inp (-1))) as Hre.
  { intros pat r inp Hc. unfold Prelude.GSplit.
    destruct (slashes_test pat) as (Ht & Hi & Hs). cbv zeta in Ht, Hi, Hs.
    rewrite Hs, Ht, Hi, Hc. reflexivity. }
  split; [|split; [|split; [|split; [|split]]]].
  - unfold Prelude.GSplit. cbn [String.eqb Ascii.eqb Bool.eqb].
    now rewrite Fields_whitespace_fields.
  - intros pat r. apply Hre.
  - intros Hsp Hwrap. split; [|split].
    + unfold Prelude.GSplit.
      destruct (String.eqb_spec sep " "); [contradiction|].
      case_if; [|reflexivity].
      exfalso. apply Hwrap. now apply test_slashes.
    + apply Split_join.
    + apply Split_pieces.
  - reflexivity.
  - reflexivity.
  - intros r Hc Hs. rewrite <- Hs. now apply (Hre "[0-9]").
Qed.

Lemma C7_GSplit_policy_witness :
  Prelude.GSplit digit_engine ":" "a:b:c" = ret ["a"; "b"; "c"]
  /\ Strings.Join (Strings.Split "a:b:c" ":") ":" = "a:b:c"
  /\ Prelude.GSplit digit_engine "/[0-9]/" "a1b2c" = ret ["a"; "b"; "c"].
Proof.
  destruct (C7_GSplit_policy digit_engine ":" "a:b:c")
    as (_ & _ & Hlit & _ & _ & Hre).
  assert (":" <> " ") as H1 by discriminate.
  assert (~ Spec.wrapped_in_slashes ":") as H2
    by (intros [pat E]; discriminate E).
  destruct (Hlit H1 H2) as (Hsplit & Hjoin & _).
  split; [exact Hsplit|]. split; [exact Hjoin|].
  exact (Hre tt eq_refl eq_refl).
Defined.

(** On a malformed string whose error is a syntax error, [GAtoi] does
    return zero. *)
Lemma GAtoi_syntax_zero (g : Prelude.Globals) (s : string) fn num :
  snd (Strconv.Atoi s) = Some (NumError fn num ErrSyntax) ->
  result (Prelude.GAtoi g s) = Ret 0.
Proof.
  intros H. rewrite GAtoi_returns. cbn [result snd]. f_equal.
  destruct (Strconv.Atoi s) as [v e] eqn:E. cbn [snd] in H. subst e.
  cbn [fst]. eapply Atoi_syntax_zero. exact E.
Qed.

(** The cluster of the package documentation: -lane with its snippet and
    a file is read as -l -a -n -e with the same snippet and file. *)
Example cluster_lane :
  Golf.main_flags "" ["golf"; "-lane"; "Print(Field(1))"; "f"]
  = Golf.main_flags "" ["golf"; "-l"; "-a"; "-n"; "-e"; "Print(Field(1))"; "f"].
Proof.
  apply main_flags_decluster.
  apply (decluster_cluster_with_last_in_context
           "golf" [] ["Print(Field(1))"; "f"] ["l"; "a"; "n"]%char "e"%char).
  - repeat constructor.
  - reflexivity.
  - discriminate.
  - unfold GoInt.maxInt, GoInt.slen. simpl. lia.
  - constructor.
  - discriminate.
Qed.

(* ================================================================== *)
(** * Further properties of the code *)

(** ** dedupe and the import list *)

Lemma ascii_compare_refl (a : ascii) : Ascii.compare a a = Eq.
Proof. unfold Ascii.compare. apply N.compare_refl. Qed.

Lemma ascii_compare_lt_trans (a b c : ascii) :
  Ascii.compare a b = Lt -> Ascii.compare b c = Lt -> Ascii.compare a c = Lt.
Proof.
  unfold Ascii.compare. rewrite !N.compare_lt_iff. apply N.lt_trans.
Qed.

Lemma string_compare_le_trans (s1 : string) :
  forall s2 s3,
    String.compare s1 s2 <> Gt -> String.compare s2 s3 <> Gt ->
    String.compare s1 s3 <> Gt.
Proof.
  induction s1 as [|a s1 IH]; intros [|b s2] [|c s3]; simpl; try congruence.
  destruct (Ascii.compare a b) eqn:Eab; destruct (Ascii.compare b c) eqn:Ebc;
    try congruence.
  - apply Ascii.compare_eq_iff in Eab, Ebc. subst.
    rewrite ascii_compare_refl. apply IH.
  - apply Ascii.compare_eq_iff in Eab. subst. rewrite Ebc. congruence.
  - apply Ascii.compare_eq_iff in Ebc. subst. rewrite Eab. congruence.
  - rewrite (ascii_compare_lt_trans _ _ _ Eab Ebc). congruence.
Qed.

Lemma leb_trans (a b c : string) :
  String.leb a b = true -> String.leb b c = true -> String.leb a c = true.
Proof.
  unfold String.leb. intros Hab Hbc.
  pose proof (string_compare_le_trans a b c) as H.
  destruct (String.compare a b); destruct (String.compare b c);
    destruct (String.compare a c); try reflexivity; try discriminate;
    exfalso; apply H; congruence.
Qed.

Lemma strictly_before_trans (a b c : string) :
  strictly_before a b -> strictly_before b c -> strictly_before a c.
Proof.
  intros [Hab Nab] [Hbc Nbc]. split; [eapply leb_trans; eassumption|].
  intros ->. apply Nab. now apply String.leb_antisym.
Qed.

(** *** [sort.Strings] *)

Lemma insert_sorted_sorted (x : string) (l : list string) :
  Sorted (fun a b => String.leb a b = true) l ->
  Sorted (fun a b => String.leb a b = true) (insert_sorted x l).
Proof.
  induction 1 as [|y l Hs IH Hhd]; simpl; [repeat constructor|].
  destruct (String.leb x y) eqn:E.
  - repeat constructor; assumption.
  - constructor; [assumption|].
    assert (String.leb y x = true) as Hyx
        by (destruct (String.leb_total x y); congruence).
    destruct l as [|z l]; simpl; [now repeat constructor|].
    destruct (String.leb x z); constructor; [assumption|].
    now inversion Hhd.
Qed.

Lemma sort_Strings_sorted (l : list string) :
  Sorted (fun a b => String.leb a b = true) (sort_Strings l).
Proof.
  induction l; simpl; [constructor|now apply insert_sorted_sorted].
Qed.

(** *** The compaction loop *)

Lemma firstn_length_app {A} (a b : list A) :
  firstn (List.length a) (a ++ b) = a.
Proof. induction a; simpl; [now destruct b|congruence]. Qed.

Lemma skipn_S_length_app {A} (a b : list A) :
  skipn (S (List.length a)) (a ++ b) = tl b.
Proof. induction a; simpl; [now destruct b|assumption]. Qed.

Lemma nth_length_app {A} (a b : list A) (x d : A) :
  nth (List.length a) (a ++ x :: b) d = x.
Proof. induction a; simpl; auto. Qed.

(** The loop of [dedupe] on the slice [out ++ junk ++ rest]: [out] is
    what was kept so far, [rest] what is still to be read, and [prev] the
    element read last. *)
Lemma dedupe_loop_spec (rest : list string) :
  forall (out junk : list string) (prev : option string)
         (s : list string) (w r : nat),
    s = out ++ junk ++ rest ->
    w = List.length out ->
    r = (List.length out + List.length junk)%nat ->
    (prev = None -> r = 0%nat) ->
    (forall p, prev = Some p -> (0 < r)%nat /\ nth (r - 1) s "" = p) ->
    firstn (snd (Golf.dedupe_loop s w r (List.length rest)))
           (fst (Golf.dedupe_loop s w r (List.length rest)))
    = out ++ drop_repeats prev rest.
Proof.
  induction rest as [|cur rest IH]; intros out junk prev s w r Hs Hw Hr Hn Hp.
  - subst. simpl. rewrite !app_nil_r. apply firstn_length_app.
  - cbn [List.length Golf.dedupe_loop].
    assert (nth r s "" = cur) as Hcur.
    { subst s r. rewrite app_assoc, <- length_app. apply nth_length_app. }
    rewrite Hcur.
    assert (forall junk' s',
               s' = (out ++ [cur]) ++ junk' ++ rest ->
               S r = (List.length (out ++ [cur]) + List.length junk')%nat ->
               nth (S r - 1) s' "" = cur ->
               firstn (snd (Golf.dedupe_loop s' (S w) (S r) (List.length rest)))
                      (fst (Golf.dedupe_loop s' (S w) (S r) (List.length rest)))
               = out ++ cur :: drop_repeats (Some cur) rest) as Hkeep.
    { intros junk' s' Hs' Hr' Hnth.
      rewrite (IH (out ++ [cur]) junk' (Some cur) s' (S w) (S r));
        try assumption.
      - now rewrite <- app_assoc.
      - subst w. rewrite length_app. simpl. lia.
      - discriminate.
      - intros p [= <-]. split; [lia|assumption]. }
    assert (firstn w s ++ cur :: skipn (S w) s
            = (out ++ [cur]) ++ tl (junk ++ [cur]) ++ rest) as Hwrite.
    { subst s w. rewrite firstn_length_app, skipn_S_length_app.
      rewrite <- app_assoc. cbn [app]. f_equal. f_equal.
      destruct junk as [|j js]; cbn [app tl]; [reflexivity|].
      now rewrite <- app_assoc. }
    assert (S r = (List.length (out ++ [cur])
                   + List.length (tl (junk ++ [cur])))%nat) as Hlen.
    { subst r. rewrite length_app. cbn [List.length].
      destruct junk; cbn [app tl List.length]; [lia|].
      rewrite length_app. cbn [List.length]. lia. }
    assert (nth (S r - 1) ((out ++ [cur]) ++ tl (junk ++ [cur]) ++ rest) ""
            = cur) as Hnth.
    { replace (S r - 1)%nat with r by lia. subst r.
      destruct junk as [|j js]; cbn [app tl List.length].
      - rewrite Nat.add_0_r, <- app_assoc. apply nth_length_app.
      - rewrite <- !app_assoc. cbn [app].
        replace (List.length out + S (List.length js))%nat
          with (List.length (out ++ cur :: js))
          by (rewrite length_app; reflexivity).
        replace (out ++ cur :: js ++ cur :: rest)
          with ((out ++ cur :: js) ++ cur :: rest)
          by (now rewrite <- app_assoc).
        apply nth_length_app. }
    destruct prev as [p|].
    + destruct (Hp p eq_refl) as [Hpos Hprev].
      apply Nat.ltb_lt in Hpos. rewrite Hpos, Hprev. cbn [andb drop_repeats].
      destruct (String.eqb_spec cur p) as [->|Hne].
      * rewrite (IH out (junk ++ [p]) (Some p) s w (S r)); try assumption.
        -- reflexivity.
        -- subst s. now rewrite <- app_assoc.
        -- subst r. rewrite length_app. simpl. lia.
        -- discriminate.
        -- intros q [= <-]. split; [lia|].
           replace (S r - 1)%nat with r by lia. exact Hcur.
      * rewrite Hwrite.
        apply (Hkeep (tl (junk ++ [cur]))); [reflexivity|exact Hlen|exact Hnth].
    + rewrite (Hn eq_refl) in *. cbn [Nat.ltb Nat.leb andb drop_repeats].
      rewrite Hwrite.
      apply (Hkeep (tl (junk ++ [cur]))); [reflexivity|exact Hlen|exact Hnth].
Qed.

Lemma dedupe_drop_repeats (l : list string) :
  Golf.dedupe l = drop_repeats None (sort_Strings l).
Proof.
  unfold Golf.dedupe.
  pose proof (dedupe_loop_spec (sort_Strings l) [] [] None
                               (sort_Strings l) 0 0 eq_refl eq_refl eq_refl
                               (fun _ => eq_refl)) as H.
  destruct (Golf.dedupe_loop _ _ _ _) as [s' w]. apply H. discriminate.
Qed.

(** *** What the compaction keeps *)

Lemma drop_repeats_In (l : list string) :
  forall prev x, In x (drop_repeats prev l) -> In x l.
Proof.
  induction l as [|y t IH]; intros prev x; [intros []|].
  cbn [drop_repeats]. destruct prev as [p|].
  - destruct (y =? p)%string.
    + intros H. right. eapply IH. exact H.
    + intros [->|H]; [now left|right; eapply IH; exact H].
  - intros [->|H]; [now left|right; eapply IH; exact H].
Qed.

Lemma In_drop_repeats (l : list string) :
  forall prev x, In x l -> In x (drop_repeats prev l) \/ prev = Some x.
Proof.
  induction l as [|y t IH]; intros prev x; [intros []|].
  cbn [drop_repeats]. intros [->|Hin].
  - destruct prev as [p|]; [|left; now left].
    destruct (String.eqb_spec x p) as [->|_]; [now right|left; now left].
  - destruct (IH (Some y) x Hin) as [H|[= ->]].
    + left. destruct prev as [p|]; [|now right].
      destruct (y =? p)%string; [assumption|now right].
    + destruct prev as [p|]; [|left; now left].
      destruct (String.eqb_spec x p) as [->|_]; [now right|left; now left].
Qed.

Lemma drop_repeats_sorted (l : list string) :
  forall prev,
    StronglySorted (fun a b => String.leb a b = true) l ->
    (forall p, prev = Some p -> Forall (fun b => String.leb p b = true) l) ->
    StronglySorted strictly_before (drop_repeats prev l)
    /\ (forall p, prev = Some p ->
                  Forall (strictly_before p) (drop_repeats prev l)).
Proof.
  induction l as [|x t IH]; intros prev Hs Hp.
  - split; [constructor|]. intros; constructor.
  - inversion Hs as [|? ? Hst Hxt]; subst.
    destruct (IH (Some x) Hst) as [IHs IHp];
      [intros p [= <-]; assumption|].
    specialize (IHp x eq_refl).
    cbn [drop_repeats]. destruct prev as [p|].
    + specialize (Hp p eq_refl). inversion Hp as [|? ? Hpx Hpt]; subst.
      destruct (String.eqb_spec x p) as [->|Hne].
      * split; [assumption|]. now intros q [= <-].
      * assert (strictly_before p x) as Hlt by (split; congruence).
        split; [now constructor|].
        intros q [= <-]. constructor; [assumption|].
        eapply Forall_impl; [|exact IHp].
        intros e He. eapply strictly_before_trans; eassumption.
    + split; [now constructor|]. discriminate.
Qed.

Lemma strictly_sorted_NoDup (l : list string) :
  StronglySorted strictly_before l -> NoDup l.
Proof.
  induction 1 as [|x l _ IH Hx]; constructor; [|assumption].
  intros Hin. rewrite Forall_forall in Hx. destruct (Hx x Hin) as [_ Hne].
  now apply Hne.
Qed.

Lemma leb_transitive :
  Relations_1.Transitive (fun a b => String.leb a b = true).
Proof. intros a b c. apply leb_trans. Qed.

Lemma dedupe_sorted (l : list string) :
  StronglySorted strictly_before (Golf.dedupe l).
Proof.
  rewrite dedupe_drop_repeats.
  apply drop_repeats_sorted; [|discriminate].
  apply Sorted_StronglySorted; [exact leb_transitive|].
  apply sort_Strings_sorted.
Qed.

Lemma dedupe_In (l : list string) (x : string) :
  In x (Golf.dedupe l) <-> In x l.
Proof.
  rewrite dedupe_drop_repeats, <- (In_sort_Strings x l). split.
  - apply drop_repeats_In.
  - intros H. destruct (In_drop_repeats _ None x H) as [H'|H'];
      [assumption|discriminate].
Qed.

(** X1. [dedupe] returns its argument's elements, each once, in
    increasing order. *)
Theorem dedupe_sorted_set (l : list string) :
  StronglySorted strictly_before (Golf.dedupe l)
  /\ NoDup (Golf.dedupe l)
  /\ forall x, In x (Golf.dedupe l) <-> In x l.
Proof.
  split; [apply dedupe_sorted|].
  split; [apply strictly_sorted_NoDup, dedupe_sorted|].
  intros x. apply dedupe_In.
Qed.

Lemma imports_before_dedupe (n : bool) (mods : list string) :
  let imps := ["io"; "os"; "regexp"; "strconv"; "strings"; "fmt"] in
  let imps := if n then imps ++ ["bufio"] else imps in
  let imps := if (0 <? List.length mods)%nat then imps ++ mods else imps in
  forall x, In x imps
            <-> In x baseline_imports \/ (n = true /\ x = "bufio")
                \/ In x mods.
Proof.
  cbv zeta. intros x. unfold baseline_imports.
  destruct n; destruct mods as [|m ms];
    cbn [List.length Nat.ltb Nat.leb]; rewrite ?in_app_iff;
    cbn [In]; intuition congruence.
Qed.

(** The visit that turns -F into -a leaves the accumulated lists alone. *)
Lemma visit_F_keeps (l : list string) :
  forall v : Golf.FlagVars,
    let v' := fold_left
                (fun v name => if (name =? "F")%string
                               then Golf.set_flgA true v else v) l v in
    Golf.modules v' = Golf.modules v
    /\ Golf.beginSrc v' = Golf.beginSrc v
    /\ Golf.endSrc v' = Golf.endSrc v
    /\ Golf.rawSrc v' = Golf.rawSrc v.
Proof.
  induction l as [|x l IH]; intros v; cbn [fold_left]; [now cbv zeta|].
  destruct (x =? "F")%string.
  - destruct (IH (Golf.set_flgA true v)) as (H1 & H2 & H3 & H4).
    cbv zeta. now rewrite H1, H2, H3, H4.
  - apply IH.
Qed.

(** *** Where the values of -M come from *)

Lemma byteZ_inj_nat (c : ascii) (n : nat) :
  byteZ c = Z.of_nat n -> c = ascii_of_nat n.
Proof.
  unfold byteZ. intros H. apply Nat2Z.inj in H.
  now rewrite <- (ascii_nat_embedding c), H.
Qed.

Lemma get_decompose (s : string) :
  forall (k : nat) (c : ascii),
    String.get k s = Some c ->
    s = stake k s +++ String c (sdrop (S k) s).
Proof.
  induction s as [|a s IH]; intros [|k] c; cbn [String.get]; try discriminate.
  - now intros [= ->].
  - intros H. cbn [stake sdrop String.append]. f_equal. now apply IH.
Qed.

(** The scan for the equals sign cuts the argument where it finds one. *)
Lemma cut_equals_spec (nm : string) (i : nat) :
  forall (n : string) (v : option string),
    Flag.cut_equals nm i = (n, v) ->
    (v = None /\ n = nm)
    \/ exists value, v = Some value /\ nm = n +++ "=" +++ value.
Proof.
  induction i as [|i IH]; intros n v; cbn [Flag.cut_equals]; cbv zeta.
  - intros [= <- <-]. now left.
  - destruct (Z.eqb_spec (sbyte nm (String.length nm - S i)) 61) as [E|_];
      [|apply IH].
    intros [= <- <-]. right. eexists. split; [reflexivity|].
    unfold sbyte in E.
    destruct (String.get (String.length nm - S i) nm) as [c|] eqn:G;
      [|discriminate].
    apply (byteZ_inj_nat c 61) in E. subst c.
    exact (get_decompose _ _ _ G).
Qed.

(** The tail of [parseOne], from the name behind the dashes on. *)
Lemma parseOne_tail {V} (formal : list (Flag.Flag V)) (s name0 : string)
      (next : option string) (vs vs' : V) (name : string) (used : bool) :
  (if (String.length name0 =? 0)%nat || (sbyte name0 0 =? 45)
      || (sbyte name0 0 =? 61)
   then Flag.Failed V (Errorf "bad flag syntax: %s" [VString s])
   else
     let (name, value) := Flag.split_value name0 in
     match Flag.lookup V formal name with
     | None =>
       if (name =? "help")%string || (name =? "h")%string
       then Flag.Failed V ErrHelp
       else Flag.Failed V (Errorf "flag provided but not defined: -%s"
                                  [VString name])
     | Some flag =>
       if Flag.IsBoolFlag flag then
         match value with
         | Some value =>
           match Flag.SetValue flag value vs with
           | inr err =>
             Flag.Failed V (Errorf "invalid boolean value %q for -%s: %v"
                                   [VString value; VString name; VError err])
           | inl vars' => Flag.Seen V vars' name false
           end
         | None =>
           match Flag.SetValue flag "true" vs with
           | inr err =>
             Flag.Failed V (Errorf "invalid boolean flag %s: %v"
                                   [VString name; VError err])
           | inl vars' => Flag.Seen V vars' name false
           end
         end
       else
         let (value, usedNext) :=
           match value, next with
           | Some value, _ => (Some value, false)
           | None, Some nxt => (Some nxt, true)
           | None, None => (None, false)
           end in
         match value with
         | None =>
           Flag.Failed V (Errorf "flag needs an argument: -%s" [VString name])
         | Some value =>
           match Flag.SetValue flag value vs with
           | inr err =>
             Flag.Failed V (Errorf "invalid value %q for flag -%s: %v"
                                   [VString value; VString name; VError err])
           | inl vars' => Flag.Seen V vars' name usedNext
           end
         end
     end) = Flag.Seen V vs' name used ->
  exists flag value,
    Flag.lookup V formal name = Some flag
    /\ Flag.SetValue flag value vs = inl vs'
    /\ ((used = false /\ name0 = name +++ "=" +++ value)
        \/ (used = false /\ Flag.IsBoolFlag flag = true /\ name0 = name)
        \/ (used = true /\ Flag.IsBoolFlag flag = false
            /\ next = Some value /\ name0 = name)).
Proof.
  destruct ((String.length name0 =? 0)%nat || (sbyte name0 0 =? 45)
            || (sbyte name0 0 =? 61)); [discriminate|].
  unfold Flag.split_value.
  destruct (Flag.cut_equals name0 (String.length name0 - 1)) as [nm value]
    eqn:Ecut.
  apply cut_equals_spec in Ecut.
  destruct (Flag.lookup V formal nm) as [flag|] eqn:El;
    [|destruct ((nm =? "help")%string || (nm =? "h")%string); discriminate].
  destruct (Flag.IsBoolFlag flag) eqn:Eb.
  - destruct value as [value|].
    + destruct (Flag.SetValue flag value vs) as [vars'|err] eqn:Es;
        [|discriminate].
      intros [= <- <- <-]. exists flag, value.
      destruct Ecut as [[Hv _]|(val & [= <-] & ->)]; [discriminate|].
      repeat split; auto.
    + destruct (Flag.SetValue flag "true" vs) as [vars'|err] eqn:Es;
        [|discriminate].
      intros [= <- <- <-]. exists flag, "true".
      destruct Ecut as [[_ ->]|(val & Hv & _)]; [|discriminate].
      repeat split; auto.
  - destruct value as [value|]; [|destruct next as [nxt|]];
      try discriminate.
    + destruct (Flag.SetValue flag value vs) as [vars'|err] eqn:Es;
        [|discriminate].
      intros [= <- <- <-]. exists flag, value.
      destruct Ecut as [[Hv _]|(val & [= <-] & ->)]; [discriminate|].
      repeat split; auto.
    + destruct (Flag.SetValue flag nxt vs) as [vars'|err] eqn:Es;
        [|discriminate].
      intros [= <- <- <-]. exists flag, nxt.
      destruct Ecut as [[_ ->]|(val & Hv & _)]; [|discriminate].
      repeat split; auto 6.
Qed.

Lemma parseOne_read_as {V} (formal : list (Flag.Flag V)) (s : string)
      (next : option string) (vs vs' : V) (name : string) (used : bool) :
  Flag.parseOne V formal s next vs = Flag.Seen V vs' name used ->
  exists flag value,
    Flag.lookup V formal name = Some flag
    /\ Flag.SetValue flag value vs = inl vs'
    /\ read_as s next flag name value used.
Proof.
  unfold Flag.parseOne.
  destruct s as [|c0 [|c1 t]]; try discriminate.
  change (sbyte (String c0 (String c1 t)) 0) with (byteZ c0).
  change (sbyte (String c0 (String c1 t)) 1) with (byteZ c1).
  cbn [String.length Nat.ltb Nat.leb orb].
  destruct (Z.eqb_spec (byteZ c0) 45) as [E0|]; [|discriminate].
  apply (byteZ_inj_nat c0 45) in E0. subst c0. cbn [negb].
  destruct (Z.eqb_spec (byteZ c1) 45) as [E1|_].
  - apply (byteZ_inj_nat c1 45) in E1. subst c1. cbv zeta. cbn [andb].
    match goal with
    | |- context [if ?b then Flag.Terminator V else _] =>
      destruct b; [discriminate|]
    end.
    change (sdrop 2 (String "-" (String "-" t))) with t.
    intros H. apply parseOne_tail in H as (flag & value & Hl & Hs & Hr).
    exists flag, value. split; [exact Hl|]. split; [exact Hs|].
    exists "--". split; [now right|].
    destruct Hr as [(-> & Hn)|[(-> & Hb & Hn)|(-> & Hb & Hx & Hn)]];
      cbn [sdrop] in Hn; rewrite Hn; auto 6.
  - cbv zeta. cbn [andb].
    change (sdrop 1 (String "-" (String c1 t))) with (String c1 t).
    intros H. apply parseOne_tail in H as (flag & value & Hl & Hs & Hr).
    exists flag, value. split; [exact Hl|]. split; [exact Hs|].
    exists "-". split; [now left|].
    destruct Hr as [(-> & Hn)|[(-> & Hb & Hn)|(-> & Hb & Hx & Hn)]];
      cbn [sdrop] in Hn; rewrite Hn; auto 6.
Qed.

(** Among golf's flags, only M writes the module list, by appending its
    value. *)
Lemma SetValue_modules (name value : string)
      (flag : Flag.Flag Golf.FlagVars) (vs vs' : Golf.FlagVars) :
  Flag.lookup Golf.FlagVars Golf.formal name = Some flag ->
  Flag.SetValue flag value vs = inl vs' ->
  Golf.modules vs' = Golf.modules vs
  \/ (name = "M" /\ Flag.IsBoolFlag flag = false
      /\ Golf.modules vs' = Golf.modules vs ++ [value]).
Proof.
  intros Hl Hs. unfold Golf.formal in Hl.
  cbn [Flag.lookup Flag.Name Golf.stringFlag Golf.boolFlag Golf.stringsFlag]
    in Hl.
  repeat match type of Hl with
         | context [if ?b then _ else _] => destruct b eqn:?
         end;
    try discriminate;
    injection Hl as <-;
    cbn [Flag.SetValue Golf.stringFlag Golf.boolFlag Golf.stringsFlag] in Hs;
    try (unfold Flag.boolValue in Hs;
         destruct (Strconv.ParseBool value); [|discriminate]);
    try unfold Flag.stringValue in Hs;
    try unfold Golf.append_modules in Hs;
    try unfold Golf.append_beginSrc in Hs;
    try unfold Golf.append_endSrc in Hs;
    try (injection Hs as <-; left; reflexivity).
  right.
  match goal with
  | H : ("M" =? name)%string = true |- _ => apply String.eqb_eq in H
  end.
  injection Hs as <-. auto.
Qed.

Lemma given_with_M_cons (s x : string) (args : list string) :
  given_with_M args x -> given_with_M (s :: args) x.
Proof.
  intros [(pre & post & ->)|[(pre & post & ->)|[H|H]]].
  - left. now exists (s :: pre), post.
  - right. left. now exists (s :: pre), post.
  - right. right. left. now right.
  - right. right. right. now right.
Qed.

(** One round of [parseOne] adds to the module list only a value given
    with the flag M. *)
Lemma parseOne_modules (s : string) (rest : list string)
      (vs vs' : Golf.FlagVars) (name : string) (used : bool) (x : string) :
  Flag.parseOne Golf.FlagVars Golf.formal s (hd_error rest) vs
  = Flag.Seen Golf.FlagVars vs' name used ->
  In x (Golf.modules vs') ->
  In x (Golf.modules vs)
  \/ (given_with_M (s :: rest) x
      /\ (used = true -> exists rest', rest = x :: rest')).
Proof.
  intros Hp Hx.
  apply parseOne_read_as in Hp as (flag & value & Hl & Hs & Hr).
  destruct (SetValue_modules _ _ _ _ _ Hl Hs) as [E|(-> & Hb & E)];
    rewrite E in Hx; [now left|].
  apply in_app_or in Hx as [Hx|[<-|[]]]; [now left|]. right.
  destruct Hr as (dashes & Hd & [(-> & ->)|[(_ & Hb' & _)|(_ & _ & Hn & ->)]]).
  - split; [|discriminate].
    destruct Hd as [->| ->];
      [right; right; left; now left|right; right; right; now left].
  - congruence.
  - destruct rest as [|r rest']; [discriminate|]. injection Hn as ->.
    split; [|now exists rest'].
    destruct Hd as [->| ->]; [left|right; left]; now exists [], rest'.
Qed.

(** [Parse] adds to the module list only values given with the flag M. *)
Lemma Parse_modules (argv0 : string) (n : nat) :
  forall (arguments : list string) (vs : Golf.FlagVars) (act : list string)
         (parsed : Flag.Parsed Golf.FlagVars) (x : string),
    (List.length arguments <= n)%nat ->
    result (Flag.Parse Golf.FlagVars Golf.formal argv0 arguments vs act)
    = Ret parsed ->
    In x (Golf.modules (Flag.vars parsed)) ->
    In x (Golf.modules vs) \/ given_with_M arguments x.
Proof.
  induction n as [|n IH]; intros arguments vs act parsed x Hlen Hres Hx.
  - destruct arguments; [|simpl in Hlen; lia].
    injection Hres as <-. now left.
  - destruct arguments as [|s rest]; [injection Hres as <-; now left|].
    cbn [Flag.Parse] in Hres. simpl in Hlen.
    destruct (Flag.parseOne _ _ s (hd_error rest) vs)
      as [| |vs' name used|err] eqn:Ep.
    + injection Hres as <-. now left.
    + injection Hres as <-. now left.
    + assert (In x (Golf.modules vs') -> In x (Golf.modules vs)
                                        \/ given_with_M (s :: rest) x) as Hstep.
      { intros Hx'. destruct (parseOne_modules _ _ _ _ _ _ _ Ep Hx')
          as [H|[H _]]; auto. }
      destruct used; [destruct rest as [|nxt rest']|].
      * destruct (IH [] _ _ _ x ltac:(simpl; lia) Hres Hx) as [H|H];
          [now apply Hstep|].
        right. now apply given_with_M_cons.
      * destruct (IH rest' _ _ _ x ltac:(simpl in *; lia) Hres Hx) as [H|H];
          [now apply Hstep|].
        right. now apply given_with_M_cons, given_with_M_cons.
      * destruct (IH rest _ _ _ x ltac:(lia) Hres Hx) as [H|H];
          [now apply Hstep|].
        right. now apply given_with_M_cons.
    + now apply fail_is_fatal in Hres.
Qed.

(** X2. The import list of every [Prog] record that [main] builds is
    increasing and free of duplicates; it holds the six baseline packages,
    bufio whenever line mode is on, and beyond these only values given
    with the flag M: each further package stands, in the arguments as
    [decluster] leaves them, after an argument -M or --M, or behind the
    equals sign of an argument -M=x or --M=x. *)
Theorem main_imports (src : string) (Args : list string) (p : Golf.Prog)
        (gv : string) :
  result (Golf.main_flags src Args) = Ret (p, gv) ->
  StronglySorted strictly_before (Golf.Imports p)
  /\ NoDup (Golf.Imports p)
  /\ (forall x, In x baseline_imports -> In x (Golf.Imports p))
  /\ (Golf.FlgN p = true -> In "bufio" (Golf.Imports p))
  /\ exists Args',
      result (Golf.decluster Args) = Ret Args'
      /\ forall x, In x (Golf.Imports p) ->
                   In x baseline_imports
                   \/ (Golf.FlgN p = true /\ x = "bufio")
                   \/ given_with_M (tl Args') x.
Proof.
  unfold Golf.main_flags. intros H.
  apply bind_result_ret in H as (Args' & Hdec & H).
  apply bind_result_ret in H as (parsed & Hparse & H).
  destruct (Golf.help (Flag.vars parsed)); [discriminate|].
  injection H as <- _.
  cbn [Golf.Imports Golf.FlgN Golf.flgN Golf.modules Golf.set_inplace
       Golf.set_flgN].
  cbv zeta.
  destruct (visit_F_keeps (sort_Strings (Flag.actual parsed))
                          (Flag.vars parsed)) as (KM & _).
  fold (Golf.visit_F (Flag.actual parsed) (Flag.vars parsed)) in KM.
  assert (forall x,
             In x (Golf.modules (Golf.visit_F (Flag.actual parsed)
                                              (Flag.vars parsed))) ->
             given_with_M (tl Args') x) as Hmods.
  { intros x Hx. rewrite KM in Hx.
    destruct (Parse_modules _ _ _ _ _ _ x (Nat.le_refl _) Hparse Hx)
      as [[]|Hg]. exact Hg. }
  set (v := Golf.visit_F (Flag.actual parsed) (Flag.vars parsed)) in *.
  revert Hmods.
  generalize (Golf.modules v) as mods.
  generalize (Golf.flgN v || Golf.flgP v || Golf.flgA v) as n.
  intros n mods Hmods.
  match goal with
  | |- context [Golf.dedupe ?l] =>
    pose proof (dedupe_sorted l) as Hs;
      pose proof (strictly_sorted_NoDup _ Hs) as Hn;
      pose proof (dedupe_In l) as Hin;
      pose proof (imports_before_dedupe n mods) as Himps
  end.
  cbv zeta in Himps.
  split; [exact Hs|]. split; [exact Hn|]. split; [|split].
  - intros x Hx. apply Hin, Himps. now left.
  - intros HN. apply Hin, Himps. right. left. now split.
  - exists Args'. split; [exact Hdec|]. intros x Hx.
    apply Hin, Himps in Hx. destruct Hx as [Hx|[Hx|Hx]]; auto.
Qed.

Lemma main_imports_witness :
  exists p gv,
    result (Golf.main_flags ""
              ["golf"; "-M"; "math"; "-M"; "fmt"; "-M"; "math"; "-n"; "-e"; "x"])
    = Ret (p, gv)
    /\ Golf.Imports p
       = ["bufio"; "fmt"; "io"; "math"; "os"; "regexp"; "strconv"; "strings"]
    /\ NoDup (Golf.Imports p).
Proof.
  eexists. eexists. split; [vm_compute; reflexivity|]. split; [reflexivity|].
  refine (proj1 (proj2 (main_imports ""
            ["golf"; "-M"; "math"; "-M"; "fmt"; "-M"; "math"; "-n"; "-e"; "x"]
            _ _ _))).
  vm_compute. reflexivity.
Defined.

(** ** decluster on arguments without a cluster *)

Lemma decluster_from_plain (prev v : string) (post res : list string) :
  plain v ->
  Aux.decluster_from prev (v :: post) res
  = Aux.decluster_from v post (res ++ [v]).
Proof.
  intros (c & t & -> & Hc). cbn [Aux.decluster_from].
  destruct (Z.eqb_spec (byteZ c) 45); [contradiction|reflexivity].
Qed.

Lemma decluster_from_long (prev name : string) (post res : list string) :
  Golf.member Golf.longFlags name = true ->
  Aux.decluster_from prev (("-" +++ name) :: post) res
  = Aux.decluster_from ("-" +++ name) post (res ++ ["-" +++ name]).
Proof.
  intros H. cbn [Aux.decluster_from String.append]. rewrite H.
  now rewrite orb_true_r.
Qed.

Lemma decluster_from_unclustered (args : list string) :
  Forall unclustered args ->
  forall prev res,
    Aux.decluster_from prev args res = ret (res ++ args).
Proof.
  induction 1 as [|v args Hv _ IH]; intros prev res.
  - simpl. now rewrite app_nil_r.
  - replace (res ++ v :: args) with ((res ++ [v]) ++ args)
      by (now rewrite <- app_assoc).
    destruct Hv as [Hp|[(name & -> & Hl)|(c & -> & Hc & Hd)]].
    + rewrite decluster_from_plain by assumption. apply IH.
    + rewrite decluster_from_long by assumption. apply IH.
    + change (Aux.cluster [c]) with (Aux.cluster ([] ++ [c])) at 1.
      rewrite decluster_from_cluster_last;
        [apply IH|apply Forall_nil|assumption|assumption
         |unfold GoInt.maxInt, GoInt.slen; simpl; lia].
Qed.

(** X3. An argument vector in which no argument is a cluster (every
    argument is plain, a long flag, or a dash with one ASCII letter) comes
    out of [decluster] unchanged, without any diagnostic. *)
Theorem decluster_unclustered (argv0 : string) (args : list string) :
  Forall unclustered args ->
  Golf.decluster (argv0 :: args) = ret (argv0 :: args).
Proof.
  intros H. rewrite decluster_from_argv0.
  now rewrite decluster_from_unclustered.
Qed.

Lemma decluster_unclustered_witness :
  Golf.decluster ["golf"; "-n"; "-BEGIN"; "x := 0"; "-e"; "x++"; "f"]
  = ret ["golf"; "-n"; "-BEGIN"; "x := 0"; "-e"; "x++"; "f"].
Proof.
  apply decluster_unclustered.
  assert (forall c t, byteZ c <> 45 -> unclustered (String c t)) as Hplain
      by (intros c t Hc; left; exists c, t; auto).
  apply Forall_cons;
    [right; right; exists "n"%char; repeat split; discriminate|].
  apply Forall_cons; [right; left; now exists "BEGIN"|].
  apply Forall_cons; [apply Hplain; discriminate|].
  apply Forall_cons;
    [right; right; exists "e"%char; repeat split; discriminate|].
  apply Forall_cons; [apply Hplain; discriminate|].
  apply Forall_cons; [apply Hplain; discriminate|].
  apply Forall_nil.
Defined.

(** ** Flags whose values accumulate *)

Lemma parseOne_acc (k : AccFlag) (v : string) (vs : Golf.FlagVars) :
  Flag.parseOne Golf.FlagVars Golf.formal ("-" +++ acc_name k) (Some v) vs
  = Flag.Seen Golf.FlagVars (acc_apply vs (k, v)) (acc_name k) true.
Proof. destruct k; reflexivity. Qed.

Lemma parseOne_plain (f : string) (next : option string)
      (vs : Golf.FlagVars) :
  plain f ->
  Flag.parseOne Golf.FlagVars Golf.formal f next vs
  = Flag.NotAFlag Golf.FlagVars.
Proof.
  intros (c & t & -> & Hc). unfold Flag.parseOne.
  change (sbyte (String c t) 0) with (byteZ c).
  destruct (Z.eqb_spec (byteZ c) 45); [contradiction|].
  now rewrite orb_true_r.
Qed.

(** [Parse] reads the accumulating flags with their values and stops at
    the first plain argument. *)
Lemma Parse_acc (argv0 : string) (files : list string) :
  Forall plain files ->
  forall (items : list (AccFlag * string)) (vs : Golf.FlagVars)
         (act : list string),
  exists act',
    Flag.Parse Golf.FlagVars Golf.formal argv0 (acc_args items ++ files)
               vs act
    = ret {| Flag.vars := fold_left acc_apply items vs;
             Flag.actual := act';
             Flag.args := files |}.
Proof.
  intros Hfiles. induction items as [|[k v] items IH]; intros vs act.
  - exists act. cbn [acc_args flat_map app fold_left].
    destruct Hfiles as [|f files Hf _]; [reflexivity|].
    cbn [Flag.Parse]. now rewrite parseOne_plain.
  - destruct (IH (acc_apply vs (k, v))
                 (Flag.record_actual (acc_name k) act)) as [act' E].
    exists act'. cbn [acc_args flat_map app fold_left fst snd].
    cbn [Flag.Parse hd_error]. rewrite parseOne_acc. exact E.
Qed.

Lemma fold_acc_apply (items : list (AccFlag * string)) :
  forall vs : Golf.FlagVars,
    let vs' := fold_left acc_apply items vs in
    Golf.modules vs' = Golf.modules vs ++ values_of is_module items
    /\ Golf.beginSrc vs' = Golf.beginSrc vs ++ values_of is_begin items
    /\ Golf.endSrc vs' = Golf.endSrc vs ++ values_of is_end items
    /\ Golf.help vs' = Golf.help vs.
Proof.
  induction items as [|[k v] items IH]; intros vs; cbn [fold_left].
  - cbv zeta. unfold values_of. simpl. now rewrite !app_nil_r.
  - destruct (IH (acc_apply vs (k, v))) as (HM & Hb & HE & Hh).
    cbv zeta. rewrite HM, Hb, HE, Hh. unfold values_of.
    destruct k; cbn; rewrite <- ?app_assoc; repeat split; reflexivity.
Qed.

Lemma acc_args_unclustered (items : list (AccFlag * string))
      (files : list string) :
  Forall plain (map snd items) ->
  Forall plain files ->
  Forall unclustered (acc_args items ++ files).
Proof.
  intros Hitems Hfiles. apply Forall_app. split.
  - induction items as [|[k v] items IH]; [constructor|].
    inversion Hitems as [|? ? Hv Hrest]; subst.
    cbn [acc_args flat_map app fst snd]. constructor; [|constructor].
    + destruct k; cbn [acc_name].
      * right. right. exists "M"%char. repeat split. discriminate.
      * right. right. exists "b"%char. repeat split. discriminate.
      * right. left. now exists "BEGIN".
      * right. right. exists "E"%char. repeat split. discriminate.
      * right. left. now exists "END".
    + now left.
    + now apply IH.
  - eapply Forall_impl; [|exact Hfiles]. intros f Hf. now left.
Qed.

(** X4. On a command line made of accumulating flags with plain values,
    followed by plain arguments, nothing is lost or reordered: the begin
    blocks are the values of -b and -BEGIN in the order given, the end
    blocks those of -E and -END, every -M value is imported, and the
    plain arguments are the ones handed to the generated program. *)
Theorem accumulating_flags (src argv0 : string)
        (items : list (AccFlag * string)) (files : list string) :
  Forall plain (map snd items) ->
  Forall plain files ->
  exists p gv,
    Golf.main_flags src (argv0 :: acc_args items ++ files) = ret (p, gv)
    /\ Golf.BeginSrc p = values_of is_begin items
    /\ Golf.EndSrc p = values_of is_end items
    /\ Golf.RawArgs p = files
    /\ forall m, In m (values_of is_module items) -> In m (Golf.Imports p).
Proof.
  intros Hitems Hfiles. unfold Golf.main_flags.
  rewrite decluster_from_argv0, decluster_from_unclustered
    by now apply acc_args_unclustered.
  rewrite bind_ret_l. cbn [app hd tl].
  destruct (Parse_acc argv0 files Hfiles items Golf.defaults []) as [act E].
  rewrite E, bind_ret_l. cbn [Flag.vars Flag.actual Flag.args].
  destruct (fold_acc_apply items Golf.defaults) as (HM & Hb & HE & Hh).
  cbv zeta in HM, Hb, HE, Hh. rewrite Hh. cbn [Golf.help Golf.defaults].
  set (vs := fold_left acc_apply items Golf.defaults) in *.
  destruct (visit_F_keeps (sort_Strings act) vs) as (KM & Kb & KE & _).
  fold (Golf.visit_F act vs) in KM, Kb, KE.
  eexists. eexists. split; [reflexivity|].
  cbn [Golf.BeginSrc Golf.EndSrc Golf.RawArgs Golf.Imports Golf.beginSrc
       Golf.endSrc Golf.modules Golf.flgN Golf.set_inplace Golf.set_flgN].
  rewrite Kb, KE, Hb, HE. repeat split; try reflexivity.
  intros m Hm. cbv zeta.
  match goal with
  | |- In m (Golf.dedupe ?l) => apply (dedupe_In l)
  end.
  apply imports_before_dedupe. right. right. rewrite KM, HM. exact Hm.
Qed.

Lemma accumulating_flags_witness :
  exists p gv,
    Golf.main_flags ""
      ["golf"; "-b"; "i := 0"; "-BEGIN"; "i = 10"; "-END"; "i *= 2";
       "-E"; "Print(i)"; "f"] = ret (p, gv)
    /\ Golf.BeginSrc p = ["i := 0"; "i = 10"]
    /\ Golf.EndSrc p = ["i *= 2"; "Print(i)"]
    /\ Golf.RawArgs p = ["f"].
Proof.
  assert (forall c t, byteZ c <> 45 -> plain (String c t)) as Hplain
      by (intros c t Hc; exists c, t; auto).
  destruct (accumulating_flags "" "golf"
              [(Accb, "i := 0"); (AccBEGIN, "i = 10"); (AccEND, "i *= 2");
               (AccE, "Print(i)")] ["f"])
    as (p & gv & E & Hb & He & Hr & _).
  - repeat constructor; apply Hplain; discriminate.
  - repeat constructor; apply Hplain; discriminate.
  - exists p, gv. auto.
Defined.

(** ** A flag with a value inside a cluster *)

Lemma decluster_from_unclustered_app (args : list string) :
  Forall unclustered args ->
  forall prev X res,
    Aux.decluster_from prev (args ++ X) res
    = Aux.decluster_from (last args prev) X (res ++ args).
Proof.
  induction 1 as [|v args Hv _ IH]; intros prev X res.
  - simpl. now rewrite app_nil_r.
  - replace (res ++ v :: args) with ((res ++ [v]) ++ args)
      by (now rewrite <- app_assoc).
    rewrite last_cons_prev. cbn [app].
    destruct Hv as [Hp|[(name & -> & Hl)|(c & -> & Hc & Hd)]].
    + rewrite decluster_from_plain by assumption. apply IH.
    + rewrite decluster_from_long by assumption. apply IH.
    + change (Aux.cluster [c]) with (Aux.cluster ([] ++ [c])) at 1.
      rewrite decluster_from_cluster_last;
        [apply IH|apply Forall_nil|assumption|assumption
         |unfold GoInt.maxInt, GoInt.slen; simpl; lia].
Qed.

Lemma cluster_loop_reject (cs1 : list ascii) :
  Forall Aux.no_value_flag cs1 ->
  forall (v : string) (c : ascii) (cs2 : list ascii) (i : Z)
         (res : list string),
    (i + Z.of_nat (List.length cs1) <? GoInt.sub (GoInt.slen v) 2) = true ->
    Golf.member Golf.shortBoolFlags (Aux.letter c) = false ->
    Golf.cluster_loop v i (map Aux.letter (cs1 ++ c :: cs2)) res
    = ([StderrPrintf ("-%s cannot be used inside a flag cluster" +++ nl)
                     [VString (Aux.letter c)];
        StderrPrintDefaults], Exit 1).
Proof.
  induction 1 as [|b cs1 Hb _ IH]; intros v c cs2 i res Hi Hc.
  - cbn [app map Golf.cluster_loop List.length] in *.
    rewrite Z.add_0_r in Hi. rewrite Hi, Hc. reflexivity.
  - cbn [app map Golf.cluster_loop]. red in Hb. rewrite Hb, andb_false_r.
    apply IH; [|assumption].
    rewrite <- Hi. f_equal. cbn [List.length]. lia.
Qed.

(** X5. A cluster in which a letter that is not a boolean flag stands
    before the last position is refused: golf warns that the letter
    cannot be used inside a cluster, prints the flag defaults and exits
    with status 1. The arguments before it hold no cluster, those after
    it are not looked at. *)
Theorem decluster_rejects_value_flag_inside (argv0 : string)
        (pre post : list string) (cs1 cs2 : list ascii) (c : ascii) :
  Forall unclustered pre ->
  Forall Aux.no_value_flag cs1 ->
  Golf.member Golf.shortBoolFlags (Aux.letter c) = false ->
  cs2 <> [] ->
  Forall (fun a => (byteZ a <? Utf8.RuneSelf) = true) (c :: cs2) ->
  Golf.member Golf.longFlags (string_of_list_ascii (cs1 ++ c :: cs2)) = false ->
  GoInt.slen (Aux.cluster (cs1 ++ c :: cs2)) <= GoInt.maxInt ->
  Golf.decluster (argv0 :: pre ++ Aux.cluster (cs1 ++ c :: cs2) :: post)
  = ([StderrPrintf ("-%s cannot be used inside a flag cluster" +++ nl)
                   [VString (Aux.letter c)];
      StderrPrintDefaults], Exit 1).
Proof.
  intros Hpre Hcs1 Hc Hcs2 Hascii Hlong Hfits.
  rewrite decluster_from_argv0, decluster_from_unclustered_app by assumption.
  cbn [Aux.decluster_from].
  change (Aux.cluster (cs1 ++ c :: cs2))
    with (String "-" (string_of_list_ascii (cs1 ++ c :: cs2))) at 1.
  cbv iota. change (byteZ "-" =? 45) with true. cbn [negb orb].
  rewrite Hlong. fold (Aux.cluster (cs1 ++ c :: cs2)).
  assert ((Aux.cluster (cs1 ++ c :: cs2) =? "--")%string = false) as ->.
  { apply String.eqb_neq. unfold Aux.cluster. intros [= E].
    apply (f_equal String.length) in E.
    rewrite length_string_of_list_ascii, length_app in E.
    destruct cs2; [congruence|]. simpl in E. lia. }
  rewrite explode_ascii
    by (apply Forall_app; split; [now apply no_value_flags_ascii|assumption]).
  rewrite cluster_loop_reject; [reflexivity|assumption| |assumption].
  unfold GoInt.sub, GoInt.slen, Aux.cluster in *.
  cbn [String.length] in *. rewrite length_string_of_list_ascii in *.
  rewrite length_app in *. cbn [List.length] in *.
  destruct cs2 as [|a cs2]; [congruence|]. cbn [List.length] in *.
  rewrite wrap_id.
  - apply Z.ltb_lt. lia.
  - unfold GoInt.in_range, GoInt.minInt, GoInt.maxInt in *. lia.
Qed.

Lemma decluster_rejects_value_flag_inside_witness :
  Golf.decluster ["golf"; "-n"; "-lea"; "code"; "f"]
  = ([StderrPrintf ("-%s cannot be used inside a flag cluster" +++ nl)
                   [VString "e"];
      StderrPrintDefaults], Exit 1).
Proof.
  apply (decluster_rejects_value_flag_inside
           "golf" ["-n"] ["code"; "f"] ["l"%char] ["a"%char] "e"%char).
  - apply Forall_cons; [|apply Forall_nil].
    right. right. exists "n"%char. repeat split. discriminate.
  - repeat constructor.
  - reflexivity.
  - discriminate.
  - repeat constructor.
  - reflexivity.
  - unfold GoInt.maxInt, GoInt.slen. simpl. lia.
Defined.

(** ** The driver: what the exit status of [run] tells *)

Lemma result_keep_note (p : Golf.Prog) (tmpdir : string) :
  result (if Golf.Keep p then emit (StderrPrintln [VString tmpdir])
          else ret tt) = Ret tt.
Proof. now destruct (Golf.Keep p). Qed.

Lemma result_cleanup (os : OS) (p : Golf.Prog) (tmpdir : string) :
  result (if Golf.Keep p then ret tt
          else match os_RemoveAll os tmpdir with
               | Some err =>
                 Prelude.Warn
                   [VString ("golf: rmall tmp: %v" +++ nl); VError err]
               | None => ret tt
               end) = Ret tt.
Proof.
  destruct (Golf.Keep p); [reflexivity|].
  destruct (os_RemoveAll os tmpdir); [apply result_Warn|reflexivity].
Qed.

(** Once the scratch directory exists, [run] returns what its body
    returns: the deferred removal has no say. *)
Lemma run_result (os : OS) (p : Golf.Prog) (goVersion tmp tmpdir : string) :
  os_MkdirTemp os "" "golf-" = inl tmp ->
  filepath_Abs os tmp = inl tmpdir ->
  result (Golf.run os p goVersion)
  = result (Golf.run_in os p goVersion tmpdir).
Proof.
  intros Hmk Habs. unfold Golf.run. rewrite Hmk, Habs.
  rewrite result_bind, result_keep_note. cbv beta iota.
  rewrite result_bind.
  destruct (run_in_zero_or_one os p goVersion tmpdir) as [E|E]; rewrite E;
    cbv beta iota; rewrite result_bind, result_cleanup; reflexivity.
Qed.

(** X6. Whether the removal of the scratch directory succeeds or fails
    makes no difference to what [run] returns. *)
Theorem run_ignores_removal_failure (os : OS) (p : Golf.Prog)
        (goVersion : string) (f : string -> option error) :
  result (Golf.run (with_RemoveAll f os) p goVersion)
  = result (Golf.run os p goVersion).
Proof.
  destruct (os_MkdirTemp os "" "golf-") as [tmp|err] eqn:Hmk.
  - destruct (filepath_Abs os tmp) as [tmpdir|err] eqn:Habs.
    + rewrite (run_result (with_RemoveAll f os) p goVersion tmp tmpdir),
              (run_result os p goVersion tmp tmpdir) by assumption.
      reflexivity.
    + unfold Golf.run. cbn [os_MkdirTemp filepath_Abs with_RemoveAll].
      rewrite Hmk, Habs. reflexivity.
  - unfold Golf.run. cbn [os_MkdirTemp with_RemoveAll].
    rewrite Hmk. reflexivity.
Qed.

Lemma do_None (os : OS) (c : string) (args : list string) :
  Golf.do os c args = None ->
  exists output, exec_Command os c args = Exited 0 output.
Proof.
  unfold Golf.do.
  destruct (exec_Command os c args) as [err|code output];
    cbn [Golf.cmd_Run Golf.ExitCode]; [discriminate|].
  destruct (Z.eqb_spec code 0) as [->|]; [|discriminate].
  intros _. now exists output.
Qed.

(** The steps of [run_in] from the module file on, behind a status of
    zero. *)
Lemma run_in_zero_tail (os : OS) (p : Golf.Prog)
      (goVersion tmpdir origdir : string) (P : Prop) :
  (forall output,
      (existsb (fun v => Strings.Contains v "/") (Golf.Imports p) = true ->
       Golf.doQ os "go" ["mod"; "init"; "example.com/golf"] = None
       /\ Golf.doQ os "go" ["mod"; "tidy"] = None) ->
      Golf.do os "go" ["build"; "-o"; Golf.binname; "."] = None ->
      os_Chdir os origdir = None ->
      exec_Command os (filepath_Join os tmpdir Golf.binname) (Golf.RawArgs p)
      = Exited 0 output -> P) ->
  result
    (tidied <-
       (if existsb (fun v => Strings.Contains v "/") (Golf.Imports p) then
          match Golf.doQ os "go" ["mod"; "init"; "example.com/golf"] with
          | Some err =>
            emit (StderrPrintf ("golf: mod init: %v" +++ nl) [VError err]) ;;;
            ret false
          | None =>
            match Golf.doQ os "go" ["mod"; "tidy"] with
            | Some err =>
              emit (StderrPrintf ("golf: mod tidy: %v" +++ nl)
                                 [VError err]) ;;;
              ret false
            | None => ret true
            end
          end
        else
          let tidy := "module example.com/golf" +++ nl +++ nl +++ "go "
                      +++ goVersion +++ nl in
          match os_WriteFile os "go.mod" tidy with
          | Some err =>
            emit (StderrPrintf ("golf: writing mod file: %v" +++ nl)
                               [VError err]) ;;;
            ret true
          | None => ret true
          end) ;;
     if negb tidied then ret 1 else
     match Golf.do os "go" ["build"; "-o"; Golf.binname; "."] with
     | Some err =>
       (if negb (Golf.is_ErrGolf err)
        then Prelude.Warn [VString "golf: %v"; VError err] else ret tt) ;;;
       ret 1
     | None =>
     match os_Chdir os origdir with
     | Some err =>
       Prelude.Warn [VString "golf: returning to original dir: %v";
                     VError err] ;;;
       ret 1
     | None =>
     match Golf.do os (filepath_Join os tmpdir Golf.binname) (Golf.RawArgs p) with
     | Some err =>
       (if negb (Golf.is_ErrGolf err)
        then Prelude.Warn [VString "golf: %v"; VError err] else ret tt) ;;;
       ret 1
     | None => ret 0
     end end end) = Ret 0 -> P.
Proof.
  intros HP. rewrite result_bind.
  assert (forall e : error,
             result ((if negb (Golf.is_ErrGolf e)
                      then Prelude.Warn [VString "golf: %v"; VError e]
                      else ret tt) ;;; ret 1) <> Ret 0) as Hfail.
  { intros e. rewrite result_bind.
    destruct (Golf.is_ErrGolf e); cbn [negb]; rewrite ?result_Warn;
      discriminate. }
  assert (result
            (match Golf.do os "go" ["build"; "-o"; Golf.binname; "."] with
             | Some err =>
               (if negb (Golf.is_ErrGolf err)
                then Prelude.Warn [VString "golf: %v"; VError err]
                else ret tt) ;;; ret 1
             | None =>
               match os_Chdir os origdir with
               | Some err =>
                 Prelude.Warn [VString "golf: returning to original dir: %v";
                               VError err] ;;; ret 1
               | None =>
                 match Golf.do os (filepath_Join os tmpdir Golf.binname)
                               (Golf.RawArgs p) with
                 | Some err =>
                   (if negb (Golf.is_ErrGolf err)
                    then Prelude.Warn [VString "golf: %v"; VError err]
                    else ret tt) ;;; ret 1
                 | None => ret 0
                 end
               end
             end) = Ret 0 ->
          exists output,
            Golf.do os "go" ["build"; "-o"; Golf.binname; "."] = None
            /\ os_Chdir os origdir = None
            /\ exec_Command os (filepath_Join os tmpdir Golf.binname)
                            (Golf.RawArgs p) = Exited 0 output) as Hrest.
  { destruct (Golf.do os "go" _) as [e|]; [intros H; now apply Hfail in H|].
    destruct (os_Chdir os origdir); [driver_step; discriminate|].
    destruct (Golf.do os (filepath_Join os tmpdir Golf.binname) _) as [e|] eqn:Hd;
      [intros H; now apply Hfail in H|].
    intros _. apply do_None in Hd as [output Hd]. eauto. }
  destruct (existsb _ (Golf.Imports p)).
  - destruct (Golf.doQ os "go" ["mod"; "init"; "example.com/golf"]);
      [driver_step; discriminate|].
    destruct (Golf.doQ os "go" ["mod"; "tidy"]);
      [driver_step; discriminate|].
    cbn [result ret snd negb]. intros H.
    destruct (Hrest H) as (output & H1 & H2 & H3). eapply HP; eauto.
  - cbv zeta.
    destruct (os_WriteFile os "go.mod" _); driver_step; cbn [negb];
      intros H; destruct (Hrest H) as (output & H1 & H2 & H3);
      (eapply HP; eauto; discriminate).
Qed.

(** The steps of [run_in] behind a status of zero. *)
Lemma run_in_zero (os : OS) (p : Golf.Prog) (goVersion tmpdir : string) :
  result (Golf.run_in os p goVersion tmpdir) = Ret 0 ->
  exists origdir output,
    os_Getwd os = inl origdir
    /\ os_Chdir os tmpdir = None
    /\ os_WriteFile os (filepath_Join os tmpdir "golfe.go") (Golf.Src p) = None
    /\ (Golf.Goimports p = true -> Golf.doQ os "goimports" ["-w"; "."] = None)
    /\ (existsb (fun v => Strings.Contains v "/") (Golf.Imports p) = true ->
        Golf.doQ os "go" ["mod"; "init"; "example.com/golf"] = None
        /\ Golf.doQ os "go" ["mod"; "tidy"] = None)
    /\ Golf.do os "go" ["build"; "-o"; Golf.binname; "."] = None
    /\ os_Chdir os origdir = None
    /\ exec_Command os (filepath_Join os tmpdir Golf.binname) (Golf.RawArgs p)
       = Exited 0 output.
Proof.
  unfold Golf.run_in.
  destruct (os_Getwd os) as [origdir|err]; [|driver_step; discriminate].
  destruct (os_Chdir os tmpdir); [driver_step; discriminate|].
  destruct (os_WriteFile os _ (Golf.Src p)); [driver_step; discriminate|].
  rewrite result_bind.
  destruct (Golf.Goimports p) eqn:Hg.
  - rewrite result_bind, result_Warn. cbv beta iota.
    destruct (Golf.doQ os "goimports" ["-w"; "."]) eqn:Hq;
      [driver_step; discriminate|].
    cbn [result ret snd negb]. intros H. revert H. apply run_in_zero_tail.
    intros output H1 H2 H3 H4. exists origdir, output.
    repeat split; auto; now apply H1.
  - cbn [result ret snd negb]. intros H. revert H.
    apply run_in_zero_tail.
    intros output H1 H2 H3 H4. exists origdir, output.
    repeat split; auto; try discriminate; now apply H1.
Qed.

(** X7. [run] returns 0 only if every step succeeded: the scratch
    directory, the source file, the optional goimports pass, the module
    step and the build, and the generated program itself exited with
    status 0. *)
Theorem run_zero_means_success (os : OS) (p : Golf.Prog)
        (goVersion : string) :
  result (Golf.run os p goVersion) = Ret 0 ->
  exists tmpdir origdir output,
    Aux.reaches_execution os p tmpdir origdir
    /\ exec_Command os (filepath_Join os tmpdir Golf.binname) (Golf.RawArgs p)
       = Exited 0 output.
Proof.
  intros H.
  destruct (os_MkdirTemp os "" "golf-") as [tmp|err] eqn:Hmk;
    [|unfold Golf.run in H; rewrite Hmk in H; revert H; driver_step;
      discriminate].
  destruct (filepath_Abs os tmp) as [tmpdir|err] eqn:Habs;
    [|unfold Golf.run in H; rewrite Hmk, Habs in H; revert H; driver_step;
      discriminate].
  rewrite (run_result os p goVersion tmp tmpdir Hmk Habs) in H.
  apply run_in_zero in H
    as (origdir & output & Hwd & Hcd & Hwr & Hgi & Htidy & Hb & Hback & Hch).
  exists tmpdir, origdir, output. split; [|exact Hch].
  unfold Aux.reaches_execution. repeat split; eauto; now apply Htidy.
Qed.

Lemma run_zero_means_success_witness :
  let os := with_RemoveAll (fun _ => None)
              {| os_MkdirTemp := os_MkdirTemp sample_os;
                 filepath_Abs := filepath_Abs sample_os;
                 filepath_Join := filepath_Join sample_os;
                 os_Getwd := os_Getwd sample_os;
                 os_Chdir := os_Chdir sample_os;
                 os_WriteFile := os_WriteFile sample_os;
                 os_RemoveAll := os_RemoveAll sample_os;
                 exec_Command := fun _ _ => Exited 0 "" |} in
  result (Golf.run os sample_prog "1.17") = Ret 0
  /\ exists tmpdir origdir output,
      Aux.reaches_execution os sample_prog tmpdir origdir
      /\ exec_Command os (filepath_Join os tmpdir Golf.binname)
                      (Golf.RawArgs sample_prog) = Exited 0 output.
Proof.
  cbv zeta. split; [reflexivity|].
  apply run_zero_means_success with (goVersion := "1.17"). reflexivity.
Defined.

Lemma events_bind {A B} (m : Eff A) (f : A -> Eff B) :
  events (bind m f)
  = events m ++ match result m with
                | Ret a => events (f a)
                | _ => []
                end.
Proof.
  destruct m as [ev [a|c|msg]]; simpl; try now rewrite app_nil_r.
  now destruct (f a).
Qed.

(** An event of the continuation is an event of the sequence. *)
Lemma In_events_bind {A B} (m : Eff A) (f : A -> Eff B) (a : A) (e : Event) :
  result m = Ret a -> In e (events (f a)) -> In e (events (bind m f)).
Proof.
  intros Hm He. rewrite events_bind, Hm. apply in_or_app. now right.
Qed.

(** X8. When the run gets as far as starting the generated program and
    that program exits with a non-zero status, golf reports the status on
    stderr (the diagnostic golf: %v with the exit error) before it
    returns 1: the failure of the child is never passed over in silence. *)
Theorem run_reports_child_failure (os : OS) (p : Golf.Prog)
        (goVersion tmpdir origdir : string) (code : Z) (output : string) :
  Aux.reaches_execution os p tmpdir origdir ->
  exec_Command os (filepath_Join os tmpdir Golf.binname) (Golf.RawArgs p)
  = Exited code output ->
  code <> 0 ->
  In (StderrPrintf ("golf: %v" +++ nl) [VError (ExitError code)])
     (events (Golf.run os p goVersion)).
Proof.
  intros Hreach Hchild Hcode.
  destruct Hreach as ((tmp & Hmk & Habs) & Hwd & Hcd & Hwr & Hgi & Htidy
                      & Hbuild & Hback).
  unfold Golf.run. rewrite Hmk, Habs.
  eapply In_events_bind; [apply result_keep_note|].
  rewrite events_bind. apply in_or_app. left.
  unfold Golf.run_in. rewrite Hwd, Hcd, Hwr.
  eapply In_events_bind.
  { instantiate (1 := true). destruct (Golf.Goimports p); [|reflexivity].
    rewrite (Hgi eq_refl). reflexivity. }
  cbn [negb].
  eapply In_events_bind.
  { instantiate (1 := true).
    destruct (existsb _ (Golf.Imports p)).
    - destruct (Htidy eq_refl) as [-> ->]. reflexivity.
    - cbv zeta. destruct (os_WriteFile os "go.mod" _); reflexivity. }
  cbn [negb]. rewrite Hbuild, Hback, (do_Exited _ _ _ _ _ Hchild).
  destruct (Z.eqb_spec code 0); [contradiction|].
  cbn [Golf.is_ErrGolf negb]. left. reflexivity.
Qed.

Lemma run_reports_child_failure_witness :
  In (StderrPrintf ("golf: %v" +++ nl) [VError (ExitError 2)])
     (events (Golf.run sample_os sample_prog "1.17")).
Proof.
  apply (run_reports_child_failure sample_os sample_prog "1.17"
           "/tmp/golf-1" "/home/gopher" 2 "" sample_reaches_execution
           eq_refl).
  discriminate.
Defined.

(* ------------------------------------------------------------------ *)
(** ** The scaffold under a snippet that only observes *)

Lemma bind_Ret {A B} (ev : list Event) (a : A) (f : A -> Eff B) :
  bind (ev, Ret a) f = (ev ++ events (f a), result (f a)).
Proof. unfold bind, events, result. now destruct (f a). Qed.

Lemma bind_nil {A B} (a : A) (f : A -> Eff B) : bind ([], Ret a) f = f a.
Proof. apply bind_ret_l. Qed.

Lemma bind_Ret_eq {A B} (ev ev' : list Event) (a : A) (f : A -> Eff B)
      (r : Result B) :
  f a = (ev', r) -> bind (ev, Ret a) f = (ev ++ ev', r).
Proof. intros H. unfold bind. now rewrite H. Qed.

Section ObservedRun.

Import Prelude Scaffold.

Variable fs : FS.
Variable re : RegexpEngine.
Variable p : Golf.Prog.
Variable obs : Globals -> list Event.
Variable inpl : bool.
Variable bak : string.
Variable split : string -> list string.
Variable content : string -> list string.

Hypothesis Hsplit : splits_with re p split.

Lemma flush_eq (st : State) :
  _golfFlushP st
  = (pending st, Ret {| globals := globals st; _golfPDirty := false |}).
Proof.
  destruct st as [g d]. unfold _golfFlushP, pending, print_event, Print.
  cbn [globals _golfPDirty].
  destruct d; [|reflexivity].
  destruct (GolfFlgL g); reflexivity.
Qed.

Lemma close_run (name : string) (k : Z) (line : string)
      (fields : list string) (h : Handle) (d : bool) :
  closable fs h ->
  _golfCloseOut fs {| globals := run_globals p inpl bak name k line fields h;
                      _golfPDirty := d |}
  = (closing h,
     Ret {| globals := run_globals p inpl bak name k line fields Stdout;
            _golfPDirty := d |}).
Proof.
  intros Hc. unfold _golfCloseOut. cbn [globals CurOut run_globals].
  destruct h as [|out].
  - reflexivity.
  - destruct Hc as [Hc|Hc]; [discriminate|].
    cbn [handle_eqb]. rewrite Hc. reflexivity.
Qed.

Lemma open_run (name0 name : string) (k0 : Z) (line0 : string)
      (fields0 : list string) (h0 : Handle) (d : bool) (input : Input) :
  closable fs h0 ->
  os_Open fs name = (input, None) ->
  (inpl = true ->
   (bak = "" -> os_Remove fs name = None)
   /\ os_Create fs name = (FileOut name, None)) ->
  open_file fs {| globals := run_globals p inpl bak name0 k0 line0 fields0 h0;
                  _golfPDirty := d |} name
  = (pending {| globals := run_globals p inpl bak name0 k0 line0 fields0 h0;
                _golfPDirty := d |} ++ closing h0,
     Ret ({| globals := run_globals p inpl bak name 0 line0 fields0
                                    (destination inpl name);
             _golfPDirty := false |}, input)).
Proof.
  intros Hc Hopen Hrepl. unfold open_file.
  rewrite flush_eq, bind_Ret. cbn [globals].
  change (with_Filename name (run_globals p inpl bak name0 k0 line0 fields0 h0))
    with (run_globals p inpl bak name k0 line0 fields0 h0).
  rewrite (close_run _ _ _ _ _ _ Hc), bind_Ret.
  cbn [globals Filename GolfInPlace GolfInPlaceBak run_globals].
  rewrite Hopen.
  assert (Hp : pending {| globals := run_globals p inpl bak name k0 line0
                                                 fields0 h0;
                          _golfPDirty := d |}
               = pending {| globals := run_globals p inpl bak name0 k0 line0
                                                   fields0 h0;
                            _golfPDirty := d |}) by reflexivity.
  destruct inpl eqn:Hin.
  - destruct (Hrepl eq_refl) as [Hrm Hcreate].
    destruct (String.eqb_spec bak "") as [Hb|Hb].
    + rewrite (Hrm Hb), Hcreate. cbn. rewrite !app_nil_r. reflexivity.
    + rewrite Hcreate. cbn. rewrite !app_nil_r. reflexivity.
  - cbn. rewrite !app_nil_r. reflexivity.
Qed.

Lemma line_loop_run (name : string) (h : Handle) (ls : list string) :
  forall (k0 : Z) (line0 : string) (fields0 : list string) (d : bool),
    0 <= k0 ->
    k0 + Z.of_nat (List.length ls) <= GoInt.maxInt ->
    (Golf.FlgA p = false -> fields0 = []) ->
    exists evs k' line' fields' d',
      line_loop re p (observer obs) ls
                {| globals := run_globals p inpl bak name k0 line0 fields0 h;
                   _golfPDirty := d |}
      = (evs,
         Ret ({| globals := run_globals p inpl bak name k' line' fields' h;
                 _golfPDirty := d' |}, FallThrough))
      /\ (Golf.FlgA p = false -> fields' = [])
      /\ d' = match ls with [] => d | _ :: _ => Golf.FlgP p end
      /\ evs ++ pending {| globals := run_globals p inpl bak name k' line'
                                                  fields' h;
                           _golfPDirty := d' |}
         = pending {| globals := run_globals p inpl bak name k0 line0
                                             fields0 h;
                      _golfPDirty := d |}
           ++ line_events p inpl bak split obs name h (k0 + 1) ls.
Proof.
  induction ls as [|l ls IH]; intros k0 line0 fields0 d Hk0 Hlen Hf0.
  - exists [], k0, line0, fields0, d. split; [reflexivity|]. split; [exact Hf0|].
    split; [reflexivity|].
    cbn [line_events]. now rewrite app_nil_r.
  - cbn [List.length] in Hlen.
    assert (Hadd : GoInt.add k0 1 = k0 + 1).
    { unfold GoInt.add. apply wrap_id.
      unfold GoInt.in_range, GoInt.minInt, GoInt.maxInt in *. lia. }
    set (fields1 := if Golf.FlgA p then split (shown p l) else []).
    assert (Hf1 : Golf.FlgA p = false -> fields1 = [])
      by (intros HA; subst fields1; now rewrite HA).
    destruct (IH (k0 + 1) (shown p l) fields1 (Golf.FlgP p))
      as (evs & k' & line' & fields' & d' & Hrun & Hf' & Hd' & Hev);
      [lia|lia|exact Hf1|].
    exists (pending {| globals := run_globals p inpl bak name k0 line0
                                              fields0 h;
                       _golfPDirty := d |}
            ++ obs (at_line p inpl bak split name h (k0 + 1) l) ++ evs),
      k', line', fields', d'.
    split; [|split; [exact Hf'|split; [now destruct ls|]]].
    + cbn [line_loop]. rewrite flush_eq. apply bind_Ret_eq.
      cbn [globals LineNum run_globals]. rewrite Hadd.
      change (with_Line (if negb (Golf.FlgL p) then l +++ nl else l)
                (with_LineNum (k0 + 1)
                   (run_globals p inpl bak name k0 line0 fields0 h)))
        with (run_globals p inpl bak name (k0 + 1) (shown p l) fields0 h).
      assert (Hg : (if Golf.FlgA p
                    then fields <- GSplit re
                           (IFS (run_globals p inpl bak name (k0 + 1)
                                             (shown p l) fields0 h))
                           (Line (run_globals p inpl bak name (k0 + 1)
                                              (shown p l) fields0 h)) ;;
                         ret (with_Fields fields
                                (run_globals p inpl bak name (k0 + 1)
                                             (shown p l) fields0 h))
                    else ret (run_globals p inpl bak name (k0 + 1)
                                          (shown p l) fields0 h))
                   = ret (run_globals p inpl bak name (k0 + 1) (shown p l)
                                      fields1 h)).
      { subst fields1. destruct (Golf.FlgA p) eqn:HA.
        - cbn [IFS Line run_globals]. rewrite (Hsplit HA), bind_ret_l.
          reflexivity.
        - now rewrite (Hf0 eq_refl). }
      rewrite Hg, bind_ret_l. unfold observer. apply bind_Ret_eq.
      cbn [fst snd]. exact Hrun.
    + rewrite <- !app_assoc, Hev. cbn [line_events]. reflexivity.
Qed.

Lemma file_body_run (name0 name : string) (k0 : Z) (line0 : string)
      (fields0 : list string) (h0 : Handle) (d : bool) (ls : list string)
      (serr : option error) :
  closable fs h0 ->
  (Golf.FlgA p = false -> fields0 = []) ->
  os_Open fs name = ({| lines := ls; scanErr := serr |}, None) ->
  Z.of_nat (List.length ls) <= GoInt.maxInt ->
  (inpl = true ->
   (bak = "" -> os_Remove fs name = None)
   /\ os_Create fs name = (FileOut name, None)) ->
  exists evs k' line' fields' d',
    (Golf.FlgA p = false -> fields' = [])
    /\ d' = match ls with [] => false | _ :: _ => Golf.FlgP p end
    /\ evs ++ pending {| globals := run_globals p inpl bak name k' line'
                                                fields' (destination inpl name);
                         _golfPDirty := d' |}
       = line_events p inpl bak split obs name (destination inpl name) 1 ls
    /\ file_body fs re p (observer obs)
                 {| globals := run_globals p inpl bak name0 k0 line0 fields0 h0;
                    _golfPDirty := d |} name
       = (pending {| globals := run_globals p inpl bak name0 k0 line0
                                            fields0 h0;
                     _golfPDirty := d |}
          ++ closing h0 ++ evs ++ scan_diag name serr,
          match serr with
          | Some _ => Exit 1
          | None =>
            Ret ({| globals := run_globals p inpl bak name k' line' fields'
                                           (destination inpl name);
                    _golfPDirty := d' |}, ContinueFile)
          end).
Proof.
  intros Hc Hf0 Hopen Hlen Hrepl.
  destruct (line_loop_run name (destination inpl name) ls 0 line0 fields0 false)
    as (evs & k' & line' & fields' & d' & Hrun & Hf' & Hd' & Hev);
    [lia|lia|exact Hf0|].
  exists evs, k', line', fields', d'.
  split; [exact Hf'|]. split; [exact Hd'|]. split; [exact Hev|].
  unfold file_body. rewrite (open_run _ _ _ _ _ _ _ _ Hc Hopen Hrepl).
  rewrite app_assoc. apply bind_Ret_eq. cbn [fst snd lines scanErr].
  rewrite Hrun. rewrite bind_Ret. cbn [fst snd globals Filename run_globals].
  destruct serr as [err|]; reflexivity.
Qed.

Lemma file_loop_run (names : list string) :
  readable fs content names ->
  (inpl = true -> replaceable fs bak names) ->
  forall (name0 : string) (k0 : Z) (line0 : string) (fields0 : list string)
         (h0 : Handle) (d : bool),
    closable fs h0 ->
    (Golf.FlgA p = false -> fields0 = []) ->
    exists evs name' k' line' fields' h' d',
      file_loop fs re p (observer obs) names
                {| globals := run_globals p inpl bak name0 k0 line0 fields0 h0;
                   _golfPDirty := d |}
      = (evs, Ret {| globals := run_globals p inpl bak name' k' line' fields' h';
                     _golfPDirty := d' |})
      /\ closable fs h'
      /\ evs ++ pending {| globals := run_globals p inpl bak name' k' line'
                                                  fields' h';
                           _golfPDirty := d' |}
             ++ closing h'
         = pending {| globals := run_globals p inpl bak name0 k0 line0
                                             fields0 h0;
                      _golfPDirty := d |}
           ++ closing h0
           ++ run_events p inpl bak split obs content names.
Proof.
  induction names as [|name names IH];
    intros Hread Hrepl name0 k0 line0 fields0 h0 d Hc Hf0.
  - exists [], name0, k0, line0, fields0, h0, d.
    split; [reflexivity|]. split; [exact Hc|].
    cbn [run_events flat_map app]. now rewrite app_nil_r.
  - destruct (Hread name (or_introl eq_refl)) as [Hopen Hlen].
    assert (Hr1 : inpl = true ->
                  (bak = "" -> os_Remove fs name = None)
                  /\ os_Create fs name = (FileOut name, None)).
    { intros Hin. destruct (Hrepl Hin name (or_introl eq_refl))
        as (H1 & H2 & _). now split. }
    assert (Hc1 : closable fs (destination inpl name)).
    { unfold destination. destruct inpl; [|now left].
      right. now destruct (Hrepl eq_refl name (or_introl eq_refl))
        as (_ & _ & H3). }
    destruct (file_body_run name0 name k0 line0 fields0 h0 d (content name)
                            None Hc Hf0 Hopen Hlen Hr1)
      as (evs1 & k1 & line1 & fields1 & d1 & Hf1 & _ & Hev1 & Hbody).
    destruct (IH (fun n Hn => Hread n (or_intror Hn))
                 (fun Hin n Hn => Hrepl Hin n (or_intror Hn))
                 name k1 line1 fields1 (destination inpl name) d1 Hc1 Hf1)
      as (evs2 & name' & k' & line' & fields' & h' & d' & Hloop & Hc' & Hev2).
    exists ((pending {| globals := run_globals p inpl bak name0 k0 line0
                                               fields0 h0;
                        _golfPDirty := d |}
             ++ closing h0 ++ evs1) ++ evs2),
      name', k', line', fields', h', d'.
    split; [|split; [exact Hc'|]].
    + cbn [file_loop]. rewrite Hbody. cbn [scan_diag].
      rewrite app_nil_r, !app_assoc. apply bind_Ret_eq.
      cbn [fst snd]. exact Hloop.
    + rewrite <- !app_assoc, Hev2, !app_assoc.
      rewrite <- (app_assoc _ evs1), Hev1.
      cbn [run_events flat_map]. unfold file_events.
      now rewrite <- !app_assoc.
Qed.

(** The File loop and what follows it, from a state in which nothing
    is owed to the output. *)
Lemma line_mode_run (names : list string) :
  readable fs content names ->
  (inpl = true -> replaceable fs bak names) ->
  exists st,
    (st1 <- file_loop fs re p (observer obs) names
                      {| globals := run_globals p inpl bak "" 0 "" [] Stdout;
                         _golfPDirty := false |} ;;
     st2 <- _golfFlushP st1 ;;
     _golfCloseOut fs st2)
    = (run_events p inpl bak split obs content names, Ret st)
    /\ CurOut (globals st) = Stdout
    /\ _golfPDirty st = false.
Proof.
  intros Hread Hrepl.
  destruct (file_loop_run names Hread Hrepl "" 0 "" [] Stdout false)
    as (evs & name' & k' & line' & fields' & h' & d' & Hloop & Hc' & Hev);
    [now left|reflexivity|].
  cbn [pending _golfPDirty closing app] in Hev.
  eexists. split; [|split].
  - rewrite Hloop, <- Hev. apply bind_Ret_eq.
    rewrite flush_eq. apply bind_Ret_eq. cbn [globals].
    apply (close_run _ _ _ _ _ _ Hc').
  - reflexivity.
  - reflexivity.
Qed.

End ObservedRun.

Lemma init_run_globals (p : Golf.Prog) :
  Scaffold.init p
  = run_globals p (Golf.InPlace p) (Golf.InPlaceBak p) "" 0 "" [] Stdout.
Proof. reflexivity. Qed.

(** X9. Line mode under a snippet that only observes. With file
    arguments that can be read (and, for -i, replaced), the generated
    program presents every line of every file to the snippet, in order,
    with Filename the file, LineNum counting from 1 in each file, Line the
    text (with its newline unless -l), Fields its split in -a mode and
    CurOut the replacement of the file in in-place mode, standard output
    otherwise; in pipe mode each line is printed after the snippet has seen
    it, the last line of a file before its output is closed. The program
    returns with standard output as the current output. *)
Theorem line_mode_observed (fs : Scaffold.FS) (re : RegexpEngine)
        (p : Golf.Prog) (obs : Prelude.Globals -> list Event)
        (split : string -> list string) (content : string -> list string)
        (names : list string) :
  names <> [] ->
  splits_with re p split ->
  readable fs content names ->
  (Golf.InPlace p = true -> replaceable fs (Golf.InPlaceBak p) names) ->
  events (Scaffold.line_mode fs re p (observer obs) (Scaffold.init p) names)
  = run_events p (Golf.InPlace p) (Golf.InPlaceBak p) split obs content names
  /\ exists st,
      result (Scaffold.line_mode fs re p (observer obs) (Scaffold.init p)
                                 names) = Ret st
      /\ Prelude.CurOut (Scaffold.globals st) = Stdout.
Proof.
  intros Hne Hsplit Hread Hrepl.
  destruct (line_mode_run fs re p obs (Golf.InPlace p) (Golf.InPlaceBak p)
                          split content Hsplit names Hread Hrepl)
    as (st & Hrun & Hout & _).
  unfold Scaffold.line_mode. destruct names as [|name names]; [congruence|].
  cbn [List.length Nat.eqb]. rewrite init_run_globals, Hrun.
  split; [reflexivity|]. now exists st.
Qed.

Lemma line_mode_observed_witness :
  events (Scaffold.line_mode two_files_fs no_regexp sample_pipe_prog
                             (observer numbering)
                             (Scaffold.init sample_pipe_prog) ["a"; "b"])
  = [OutPrintln Stdout [VInt 1; VString "x y"];
     OutPrintln Stdout [VString "x y"];
     OutPrintln Stdout [VInt 2; VString "z"];
     OutPrintln Stdout [VString "z"];
     OutPrintln Stdout [VInt 1; VString "w"];
     OutPrintln Stdout [VString "w"]].
Proof.
  refine (proj1 (line_mode_observed two_files_fs no_regexp sample_pipe_prog
                   numbering Strings.Fields two_files ["a"; "b"] _ _ _ _)).
  - discriminate.
  - intros _ input. reflexivity.
  - intros name _. split; [reflexivity|].
    unfold two_files. destruct (name =? "a")%string; vm_compute; discriminate.
  - discriminate.
Defined.

(** X10. Without file arguments the generated program reads
    /dev/stdin and switches in-place editing off, whatever -i or -I asked
    for: the snippet sees GolfInPlace false, all output goes to standard
    output, and no file is unlinked, renamed or created (the answers of
    those calls have no say). *)
Theorem line_mode_stdin (fs : Scaffold.FS) (re : RegexpEngine)
        (p : Golf.Prog) (obs : Prelude.Globals -> list Event)
        (split : string -> list string) (content : string -> list string) :
  splits_with re p split ->
  readable fs content ["/dev/stdin"] ->
  events (Scaffold.line_mode fs re p (observer obs) (Scaffold.init p) [])
  = run_events p false "" split obs content ["/dev/stdin"]
  /\ exists st,
      result (Scaffold.line_mode fs re p (observer obs) (Scaffold.init p) [])
      = Ret st
      /\ Prelude.CurOut (Scaffold.globals st) = Stdout.
Proof.
  intros Hsplit Hread.
  destruct (line_mode_run fs re p obs false "" split content Hsplit
                          ["/dev/stdin"] Hread)
    as (st & Hrun & Hout & _); [discriminate|].
  unfold Scaffold.line_mode. cbn [List.length Nat.eqb].
  change (Scaffold.without_InPlace (Scaffold.init p))
    with (run_globals p false "" "" 0 "" [] Stdout).
  rewrite Hrun. split; [reflexivity|]. now exists st.
Qed.

Lemma line_mode_stdin_witness :
  events (Scaffold.line_mode two_files_fs no_regexp sample_inplace_prog
                             (observer numbering)
                             (Scaffold.init sample_inplace_prog) [])
  = [OutPrint Stdout [VInt 1; VString ("w" +++ nl)];
     OutPrint Stdout [VString ("w" +++ nl)]].
Proof.
  refine (proj1 (line_mode_stdin two_files_fs no_regexp sample_inplace_prog
                   numbering (fun _ => []) two_files _ _)).
  - discriminate.
  - intros name [<-|[]]. split; [reflexivity|]. vm_compute. discriminate.
Defined.

(** ** What pipe mode writes *)

Lemma written_app (h : Handle) (a b : list Event) :
  written h (a ++ b) = written h a +++ written h b.
Proof.
  induction a as [|e a IH]; [reflexivity|].
  cbn [app written]. now rewrite IH, append_assoc.
Qed.

Lemma unlines_app (a b : list string) :
  unlines (a ++ b) = unlines a +++ unlines b.
Proof.
  induction a as [|l a IH]; [reflexivity|].
  cbn [app unlines]. now rewrite IH, !append_assoc.
Qed.

Lemma written_closing (h h' : Handle) : written h (closing h') = "".
Proof. now destruct h'. Qed.

Lemma written_print (p : Golf.Prog) (inpl : bool) (bak name : string)
      (split : string -> list string) (h h' : Handle) (k : Z) (l : string) :
  written_by h (print_event (at_line p inpl bak split name h' k l))
  = if Scaffold.handle_eqb h' h then l +++ nl else "".
Proof.
  unfold print_event, at_line, shown.
  cbn [Prelude.GolfFlgL Prelude.CurOut Prelude.Line run_globals].
  destruct (Golf.FlgL p); reflexivity.
Qed.

Lemma written_line_events (p : Golf.Prog) (inpl : bool) (bak name : string)
      (split : string -> list string) (h h' : Handle) (ls : list string) :
  Golf.FlgP p = true ->
  forall k,
    written h (line_events p inpl bak split (fun _ => []) name h' k ls)
    = if Scaffold.handle_eqb h' h then unlines ls else "".
Proof.
  intros HP. induction ls as [|l ls IH]; intros k.
  - cbn [line_events written unlines]. now destruct (Scaffold.handle_eqb h' h).
  - cbn [line_events]. rewrite HP. cbn [app written unlines].
    rewrite written_print, IH.
    destruct (Scaffold.handle_eqb h' h); [|reflexivity].
    now rewrite append_assoc.
Qed.

Lemma written_run_events (p : Golf.Prog) (inpl : bool) (bak : string)
      (split : string -> list string) (content : string -> list string)
      (h : Handle) (names : list string) :
  Golf.FlgP p = true ->
  written h (run_events p inpl bak split (fun _ => []) content names)
  = unlines (content_for inpl h content names).
Proof.
  intros HP. induction names as [|name names IH]; [reflexivity|].
  unfold run_events, content_for in *. cbn [flat_map].
  rewrite written_app, unlines_app, IH. f_equal.
  unfold file_events.
  rewrite written_app, written_closing, append_nil_r.
  rewrite written_line_events by assumption.
  now destruct (Scaffold.handle_eqb (destination inpl name) h).
Qed.

(** X11. Pipe mode with a snippet that does nothing copies its input:
    what the generated program writes to an output is the lines of the
    files whose output goes there, in order, each followed by a newline,
    and this whether -l is given or not (the newline -l strips on input
    is the one it adds on output). Without -i every file goes to standard
    output, so the program concatenates its files; with -i each file goes
    to its own replacement and nothing to standard output. *)
Theorem pipe_mode_copies (fs : Scaffold.FS) (re : RegexpEngine)
        (p : Golf.Prog) (split : string -> list string)
        (content : string -> list string) (names : list string)
        (h : Handle) :
  Golf.FlgP p = true ->
  names <> [] ->
  splits_with re p split ->
  readable fs content names ->
  (Golf.InPlace p = true -> replaceable fs (Golf.InPlaceBak p) names) ->
  written h (events (Scaffold.line_mode fs re p empty_snippet
                                        (Scaffold.init p) names))
  = unlines (content_for (Golf.InPlace p) h content names).
Proof.
  intros HP Hne Hsplit Hread Hrepl.
  change empty_snippet with (observer (fun _ => [])).
  destruct (line_mode_run fs re p (fun _ => []) (Golf.InPlace p)
                          (Golf.InPlaceBak p) split content Hsplit names
                          Hread Hrepl)
    as (st & Hrun & _).
  unfold Scaffold.line_mode. destruct names as [|name names]; [congruence|].
  cbn [List.length Nat.eqb]. rewrite init_run_globals, Hrun.
  cbn [events fst]. now apply written_run_events.
Qed.

Lemma pipe_mode_copies_witness :
  written Stdout
          (events (Scaffold.line_mode two_files_fs no_regexp sample_pipe_prog
                                      empty_snippet
                                      (Scaffold.init sample_pipe_prog)
                                      ["a"; "b"]))
  = "x y" +++ nl +++ "z" +++ nl +++ "w" +++ nl.
Proof.
  refine (pipe_mode_copies two_files_fs no_regexp sample_pipe_prog
            Strings.Fields two_files ["a"; "b"] Stdout _ _ _ _ _).
  - reflexivity.
  - discriminate.
  - intros _ input. reflexivity.
  - intros name _. split; [reflexivity|].
    unfold two_files. destruct (name =? "a")%string; vm_compute; discriminate.
  - discriminate.
Defined.

(** ** A read error *)

Lemma removelast_snoc {A} (l : list A) (x : A) : removelast (l ++ [x]) = l.
Proof. apply removelast_last. Qed.

(** X12. A read error of the scanner is fatal, and found only when the
    lines before it have gone through the snippet: the program then
    prints the diagnostic with the file name and the error and exits
    with status 1, without looking at the files that follow. In pipe mode
    the last line read before the error is never printed: the exit comes
    before the flush that would have written it. *)
Theorem scan_error_fatal (fs : Scaffold.FS) (re : RegexpEngine)
        (p : Golf.Prog) (obs : Prelude.Globals -> list Event)
        (split : string -> list string) (name : string)
        (rest ls : list string) (err : error) :
  splits_with re p split ->
  Scaffold.os_Open fs name
  = ({| Scaffold.lines := ls; Scaffold.scanErr := Some err |}, None) ->
  Z.of_nat (List.length ls) <= GoInt.maxInt ->
  (Golf.InPlace p = true ->
   (Golf.InPlaceBak p = "" -> Scaffold.os_Remove fs name = None)
   /\ Scaffold.os_Create fs name = (FileOut name, None)) ->
  let seen :=
      line_events p (Golf.InPlace p) (Golf.InPlaceBak p) split obs name
                  (destination (Golf.InPlace p) name) 1 ls in
  Scaffold.line_mode fs re p (observer obs) (Scaffold.init p) (name :: rest)
  = ((if Golf.FlgP p then removelast seen else seen)
       ++ [StderrPrintf ("%s: %v" +++ nl) [VString name; VError err]],
     Exit 1).
Proof.
  intros Hsplit Hopen Hlen Hrepl seen.
  destruct (file_body_run fs re p obs (Golf.InPlace p) (Golf.InPlaceBak p)
                          split Hsplit "" name 0 "" [] Stdout false ls
                          (Some err))
    as (evs & k' & line' & fields' & d' & _ & Hd' & Hev & Hbody);
    [now left|reflexivity|exact Hopen|exact Hlen|exact Hrepl|].
  fold seen in Hev.
  unfold Scaffold.line_mode. cbn [List.length Nat.eqb].
  rewrite init_run_globals. cbn [Scaffold.file_loop].
  rewrite Hbody. cbn [pending Scaffold._golfPDirty closing app scan_diag bind].
  f_equal. f_equal.
  destruct ls as [|l ls'].
  - subst d'. cbn [pending Scaffold._golfPDirty] in Hev.
    rewrite app_nil_r in Hev. subst evs. subst seen. cbn [line_events].
    now destruct (Golf.FlgP p).
  - subst d'. unfold pending in Hev. cbn [Scaffold._golfPDirty] in Hev.
    destruct (Golf.FlgP p).
    + rewrite <- Hev. now rewrite removelast_snoc.
    + now rewrite app_nil_r in Hev.
Qed.

Lemma scan_error_fatal_witness :
  Scaffold.line_mode broken_fs no_regexp sample_pipe_prog
                     (observer (fun _ => []))
                     (Scaffold.init sample_pipe_prog) ["a"; "b"]
  = ([OutPrintln Stdout [VString "good"];
      StderrPrintf ("%s: %v" +++ nl)
                   [VString "a";
                    VError (Errorf "bufio.Scanner: token too long" [])]],
     Exit 1).
Proof.
  refine (scan_error_fatal broken_fs no_regexp sample_pipe_prog
            (fun _ => []) Strings.Fields "a" ["b"] ["good"; "last"]
            (Errorf "bufio.Scanner: token too long" []) _ _ _ _).
  - intros _ input. reflexivity.
  - reflexivity.
  - vm_compute. discriminate.
  - discriminate.
Defined.

(** ** How golf ends *)

Lemma exits_within_bind {A B} (codes : list Z) (m : Eff A)
      (f : A -> Eff B) :
  exits_within codes (result m) ->
  (forall a, exits_within codes (result (f a))) ->
  exits_within codes (result (bind m f)).
Proof.
  intros Hm Hf. rewrite result_bind.
  destruct (result m) as [a|c|msg]; [apply Hf|exact Hm|exact I].
Qed.

Lemma exits_within_incl {A} (codes codes' : list Z) (r : Result A) :
  incl codes codes' -> exits_within codes r -> exits_within codes' r.
Proof. intros Hi. destruct r; simpl; auto. Qed.

Lemma cluster_loop_exits (v : string) (vvs : list string) :
  forall (i : Z) (res : list string),
    exits_within [1] (result (Golf.cluster_loop v i vvs res))
    /\ no_panic (result (Golf.cluster_loop v i vvs res)).
Proof.
  induction vvs as [|vv vvs IH]; intros i res.
  - now split.
  - cbn [Golf.cluster_loop].
    destruct ((i <? GoInt.sub (GoInt.slen v) 2)
              && negb (Golf.member Golf.shortBoolFlags vv)).
    + rewrite !result_bind, result_Warn. cbn. auto.
    + apply IH.
Qed.

Lemma decluster_loop_exits (Args rest : list string) :
  forall (i : nat) (res : list string),
    exits_within [1] (result (Golf.decluster_loop Args i rest res)).
Proof.
  induction rest as [|v rest IH]; intros i res.
  - exact I.
  - cbn [Golf.decluster_loop]. destruct v as [|c0 v1]; [exact I|].
    destruct (negb (byteZ c0 =? 45) || Golf.member Golf.longFlags v1);
      [apply IH|].
    destruct (String c0 v1 =? "--")%string; [exact I|].
    apply exits_within_bind; [apply cluster_loop_exits|intros a; apply IH].
Qed.

Lemma decluster_exits (Args : list string) :
  exits_within [1] (result (Golf.decluster Args)).
Proof.
  destruct Args as [|argv0 rest]; [exact I|apply decluster_loop_exits].
Qed.

Lemma fail_exits {A} (argv0 : string) (err : error) :
  exits_within [0; 2] (result (@Flag.fail A argv0 err))
  /\ no_panic (result (@Flag.fail A argv0 err)).
Proof. destruct err; cbn; auto. Qed.

Lemma Parse_exits {V} (formal : list (Flag.Flag V)) (argv0 : string)
      (n : nat) :
  forall (arguments : list string) (vs : V) (act : list string),
    (List.length arguments <= n)%nat ->
    exits_within [0; 2]
                 (result (Flag.Parse V formal argv0 arguments vs act))
    /\ no_panic (result (Flag.Parse V formal argv0 arguments vs act)).
Proof.
  induction n as [|n IH]; intros arguments vs act Hlen.
  - destruct arguments; [now split|simpl in Hlen; lia].
  - destruct arguments as [|s rest]; [now split|].
    cbn [List.length] in Hlen. cbn [Flag.Parse].
    destruct (Flag.parseOne V formal s (hd_error rest) vs)
      as [| |vs' name usedNext|err]; try (now split).
    + destruct usedNext; [destruct rest as [|r rest']|];
        apply IH; cbn [List.length] in *; lia.
    + apply fail_exits.
Qed.

Lemma main_flags_exits (src : string) (Args : list string) :
  exits_within [0; 1; 2] (result (Golf.main_flags src Args)).
Proof.
  unfold Golf.main_flags.
  apply exits_within_bind.
  - eapply exits_within_incl; [|apply decluster_exits].
    intros x [<-|[]]; simpl; auto.
  - intros Args'. apply exits_within_bind.
    + eapply exits_within_incl; [|eapply Parse_exits; apply Nat.le_refl].
      intros x [<-|[<-|[]]]; simpl; auto.
    + intros parsed. destruct (Golf.help (Flag.vars parsed)).
      * rewrite !result_bind, result_Warn. cbn. auto.
      * exact I.
Qed.

(** X13. golf never returns from main: whatever the command line, the
    machine and the outcome of the template, it ends through os.Exit with
    status 0, 1 or 2, or in a run-time panic. *)
Theorem main_exit_codes (os : OS) (execute : Golf.Prog -> string + error)
        (format_Source : string -> string + error) (src : string)
        (Args : list string) :
  golf_status (result (Golf.main os execute format_Source src Args)).
Proof.
  unfold Golf.main. rewrite result_bind.
  pose proof (main_flags_exits src Args) as Hflags.
  destruct (result (Golf.main_flags src Args)) as [pg|c|msg].
  - destruct (Golf.transform execute format_Source (fst pg)) as [p|err].
    + rewrite result_bind.
      destruct (run_zero_or_one os p (snd pg)) as [-> | ->]; cbn; auto.
    + rewrite result_bind, result_Warn. cbn. auto.
  - cbn in *. intuition auto.
  - exact I.
Qed.

(** ** Failures at the first file *)

Lemma first_file_head (fs : Scaffold.FS) (re : RegexpEngine) (p : Golf.Prog)
      (snippet : Prelude.Globals -> Eff (Prelude.Globals * Scaffold.Control))
      (name : string) (rest : list string) (ev : list Event) (c : Z) :
  Scaffold.open_file fs {| Scaffold.globals := Scaffold.init p;
                           Scaffold._golfPDirty := false |} name
  = (ev, Exit c) ->
  Scaffold.line_mode fs re p snippet (Scaffold.init p) (name :: rest)
  = (ev, Exit c).
Proof.
  intros H. unfold Scaffold.line_mode. cbn [List.length Nat.eqb].
  cbn [Scaffold.file_loop]. unfold Scaffold.file_body. rewrite H.
  reflexivity.
Qed.

Lemma open_file_opened (fs : Scaffold.FS) (p : Golf.Prog) (name : string)
      (input : Scaffold.Input) (err : option error) :
  Scaffold.os_Open fs name = (input, err) ->
  Scaffold.open_file fs {| Scaffold.globals := Scaffold.init p;
                           Scaffold._golfPDirty := false |} name
  = ((match err with
      | Some e => Prelude.Die [VError e]
      | None => ret tt
      end) ;;;
     g <-
       (if Golf.InPlace p then
          (if (Golf.InPlaceBak p =? "")%string then
             match Scaffold.os_Remove fs name with
             | Some err =>
               Prelude.Die [VString "golf: can't remove input file: %v";
                            VError err]
             | None => ret tt
             end
           else
             match err with
             | Some e =>
               Prelude.Die [VString "golf: in-place backup: %v"; VError e]
             | None => ret tt
             end) ;;;
          let '(out, err) := Scaffold.os_Create fs name in
          match err with
          | Some e =>
            Prelude.Die [VString "golf: can't create output: %v"; VError e]
          | None =>
            ret (Scaffold.with_CurOut out
                   (run_globals p (Golf.InPlace p) (Golf.InPlaceBak p)
                                name 0 "" [] Stdout))
          end
        else ret (run_globals p (Golf.InPlace p) (Golf.InPlaceBak p)
                              name 0 "" [] Stdout)) ;;
     ret ({| Scaffold.globals := Scaffold.with_LineNum 0 g;
             Scaffold._golfPDirty := false |}, input)).
Proof.
  intros Hopen. unfold Scaffold.open_file.
  rewrite init_run_globals, flush_eq.
  cbn [pending Scaffold._golfPDirty]. rewrite bind_nil.
  cbn [Scaffold.globals].
  change (Scaffold.with_Filename name
            (run_globals p (Golf.InPlace p) (Golf.InPlaceBak p)
                         "" 0 "" [] Stdout))
    with (run_globals p (Golf.InPlace p) (Golf.InPlaceBak p)
                      name 0 "" [] Stdout).
  rewrite (close_run fs p _ _ _ _ _ _ _ _ (or_introl eq_refl)).
  cbn [closing]. rewrite bind_nil.
  cbn [Scaffold.globals Prelude.Filename Prelude.GolfInPlace
       Prelude.GolfInPlaceBak run_globals Scaffold._golfPDirty].
  rewrite Hopen. reflexivity.
Qed.

(** X14. A file that cannot be set up stops the generated program
    before any snippet code runs on it, whatever the snippet is: when the
    first file cannot be opened, or (in in-place mode) cannot be unlinked
    where no backup is asked for, or its replacement cannot be created,
    the program prints the one diagnostic of that step and exits with
    status 1; the files after it are not looked at. *)
Theorem first_file_setup_failure (fs : Scaffold.FS) (re : RegexpEngine)
        (p : Golf.Prog)
        (snippet : Prelude.Globals -> Eff (Prelude.Globals * Scaffold.Control))
        (name : string) (rest : list string) (input : Scaffold.Input)
        (e : error) :
  (Scaffold.os_Open fs name = (input, Some e) ->
   Scaffold.line_mode fs re p snippet (Scaffold.init p) (name :: rest)
   = ([StderrPrintln [VError e]], Exit 1))
  /\ (Scaffold.os_Open fs name = (input, None) ->
      Golf.InPlace p = true ->
      Golf.InPlaceBak p = "" ->
      Scaffold.os_Remove fs name = Some e ->
      Scaffold.line_mode fs re p snippet (Scaffold.init p) (name :: rest)
      = ([StderrPrintf ("golf: can't remove input file: %v" +++ nl)
                       [VError e]], Exit 1))
  /\ (forall out,
         Scaffold.os_Open fs name = (input, None) ->
         Golf.InPlace p = true ->
         (Golf.InPlaceBak p = "" -> Scaffold.os_Remove fs name = None) ->
         Scaffold.os_Create fs name = (out, Some e) ->
         Scaffold.line_mode fs re p snippet (Scaffold.init p) (name :: rest)
         = ([StderrPrintf ("golf: can't create output: %v" +++ nl)
                          [VError e]], Exit 1)).
Proof.
  split; [|split].
  - intros Hopen. apply first_file_head.
    rewrite (open_file_opened fs p name input (Some e) Hopen). reflexivity.
  - intros Hopen Hin Hbak Hrm. apply first_file_head.
    rewrite (open_file_opened fs p name input None Hopen).
    rewrite Hin, Hbak, Hrm. reflexivity.
  - intros out Hopen Hin Hrm Hcreate. apply first_file_head.
    rewrite (open_file_opened fs p name input None Hopen).
    rewrite Hin, Hcreate.
    destruct (String.eqb_spec (Golf.InPlaceBak p) "") as [Hb|Hb].
    + rewrite (Hrm Hb). reflexivity.
    + reflexivity.
Qed.

Lemma first_file_setup_failure_witness :
  Scaffold.line_mode empty_fs no_regexp sample_pipe_prog empty_snippet
                     (Scaffold.init sample_pipe_prog) ["a"; "b"]
  = ([StderrPrintln
        [VError (PathError "open" "a" "no such file or directory")]],
     Exit 1).
Proof.
  apply (proj1 (first_file_setup_failure
                  empty_fs no_regexp sample_pipe_prog empty_snippet "a" ["b"]
                  {| Scaffold.lines := []; Scaffold.scanErr := None |}
                  (PathError "open" "a" "no such file or directory"))).
  reflexivity.
Defined.

(** ** A separator that does not compile *)

Lemma GSplit_bad_pattern (re : RegexpEngine) (pat input : string)
      (err : error) :
  Compile re pat = inr err ->
  Prelude.GSplit re ("/" +++ pat +++ "/") input
  = ([StderrPrintf ("Invalid GSplit regexp separator (check -F flag): %v"
                      +++ nl) [VError err]], Exit 1).
Proof.
  intros Hc. unfold Prelude.GSplit.
  destruct (slashes_test pat) as (Ht & Hi & Hs). cbv zeta in Ht, Hi, Hs.
  rewrite Hs, Ht, Hi, Hc. reflexivity.
Qed.

(** X15. In -a mode with a separator /pat/ whose pattern does not
    compile, the generated program stops at the first line it reads,
    before any snippet code runs: it prints the diagnostic that names
    the -F flag and exits with status 1. The pattern is compiled when a
    line is split, not when the program starts. *)
Theorem bad_separator_fatal (fs : Scaffold.FS) (re : RegexpEngine)
        (p : Golf.Prog)
        (snippet : Prelude.Globals -> Eff (Prelude.Globals * Scaffold.Control))
        (name : string) (rest : list string) (l : string) (ls : list string)
        (serr : option error) (pat : string) (err : error) :
  Golf.FlgA p = true ->
  Golf.FlgF p = "/" +++ pat +++ "/" ->
  Compile re pat = inr err ->
  Scaffold.os_Open fs name
  = ({| Scaffold.lines := l :: ls; Scaffold.scanErr := serr |}, None) ->
  (Golf.InPlace p = true ->
   (Golf.InPlaceBak p = "" -> Scaffold.os_Remove fs name = None)
   /\ Scaffold.os_Create fs name = (FileOut name, None)) ->
  Scaffold.line_mode fs re p snippet (Scaffold.init p) (name :: rest)
  = ([StderrPrintf ("Invalid GSplit regexp separator (check -F flag): %v"
                      +++ nl) [VError err]], Exit 1).
Proof.
  intros HA HF Hc Hopen Hrepl.
  unfold Scaffold.line_mode. cbn [List.length Nat.eqb].
  cbn [Scaffold.file_loop]. unfold Scaffold.file_body.
  rewrite init_run_globals.
  rewrite (open_run fs p _ _ _ _ _ _ _ _ _ _ (or_introl eq_refl) Hopen Hrepl).
  cbn [pending Scaffold._golfPDirty closing app]. rewrite bind_nil.
  cbn [fst snd Scaffold.lines Scaffold.line_loop].
  rewrite flush_eq. cbn [pending Scaffold._golfPDirty]. rewrite bind_nil.
  cbn [Scaffold.globals]. rewrite HA.
  cbn [Prelude.IFS Prelude.Line Scaffold.with_Line Scaffold.with_LineNum
       run_globals].
  rewrite HF, (GSplit_bad_pattern re pat _ err Hc). reflexivity.
Qed.

Lemma bad_separator_fatal_witness :
  let p := {| Golf.RawArgs := ["a"]; Golf.BeginSrc := []; Golf.RawSrc := "";
              Golf.EndSrc := []; Golf.Src := ""; Golf.Imports := [];
              Golf.FlgN := true; Golf.FlgP := false; Golf.FlgL := false;
              Golf.FlgA := true; Golf.FlgF := "/(/"; Golf.InPlace := false;
              Golf.InPlaceBak := ""; Golf.Warnings := false;
              Golf.Goimports := false; Golf.Keep := false;
              Golf.Prelude := "" |} in
  Scaffold.line_mode two_files_fs no_regexp p empty_snippet (Scaffold.init p)
                     ["a"]
  = ([StderrPrintf ("Invalid GSplit regexp separator (check -F flag): %v"
                      +++ nl)
                   [VError (Errorf "error parsing regexp" [VString "("])]],
     Exit 1).
Proof.
  cbv zeta.
  refine (bad_separator_fatal two_files_fs no_regexp _ empty_snippet "a" []
            "x y" ["z"] None "(" _ _ _ _ _ _).
  - reflexivity.
  - reflexivity.
  - reflexivity.
  - reflexivity.
  - discriminate.
Defined.

(** ** The two ways of running a command *)

(** X16. [do] and [doQ] return the same error for every command: the
    error of running it, which for a command that ran and exited with a
    non-zero status is the exit error of that status. The branches that
    test the exit code once more are never taken: [do] never returns
    [errGolf], and the error of [doQ] never carries the output it
    captured. *)
Theorem do_and_doQ_agree (os : OS) (c : string) (args : list string) :
  Golf.do os c args = Golf.cmd_Run (exec_Command os c args)
  /\ Golf.doQ os c args = Golf.cmd_Run (exec_Command os c args)
  /\ (forall code output,
         exec_Command os c args = Exited code output ->
         code <> 0 ->
         Golf.do os c args = Some (ExitError code)
         /\ Golf.doQ os c args = Some (ExitError code)).
Proof.
  unfold Golf.do, Golf.doQ.
  destruct (exec_Command os c args) as [err|code output];
    cbn [Golf.cmd_Run Golf.ExitCode].
  - split; [reflexivity|]. split; [reflexivity|]. discriminate.
  - destruct (Z.eqb_spec code 0) as [->|Hne]; cbn [negb];
      (split; [reflexivity|]; split; [reflexivity|]);
      intros code' output' [= <- _] Hc; [congruence|now split].
Qed.

(** ** The source of the prelude *)

Lemma prefix_stake_ge (p s : string) (n : nat) :
  String.prefix p s = true ->
  (String.length p <= n)%nat ->
  String.prefix p (stake n s) = true.
Proof.
  revert s n. induction p as [|a p IH]; intros s n H Hn;
    [apply prefix_nil|].
  destruct s as [|b s]; [discriminate|].
  destruct n as [|n]; [cbn [String.length] in Hn; lia|].
  cbn [stake]. rewrite prefix_cons in *.
  destruct (ascii_dec a b); [|discriminate].
  apply IH; [assumption|cbn [String.length] in Hn; lia].
Qed.

(** The end marker does not begin inside the start marker. *)
Lemma markers_apart (t : string) (j : nat) :
  (j < String.length start_marker)%nat ->
  String.prefix end_marker (sdrop j (start_marker +++ t)) = false.
Proof.
  intros Hj.
  do 22 (destruct j as [|j]; [reflexivity|]).
  vm_compute in Hj. lia.
Qed.

Lemma Index_end_after_start (src : string) (a e : nat) :
  Strings.Index src start_marker = Some a ->
  Strings.Index src end_marker = Some e ->
  (a <= e)%nat ->
  (a + String.length start_marker <= e)%nat.
Proof.
  intros Ha He Hae.
  apply Index_Some in Ha as (Ha & _ & _).
  apply Index_Some in He as (He & _ & _).
  destruct (Nat.lt_ge_cases e (a + String.length start_marker)) as [Hlt|];
    [exfalso|assumption].
  apply prefix_decompose in Ha.
  replace e with (a + (e - a))%nat in He by lia.
  rewrite <- sdrop_sdrop, Ha, markers_apart in He by lia.
  discriminate.
Qed.

(** X17. Whatever [Source] returns is a contiguous part of the
    embedded file that begins with the start marker line and does not
    contain the end marker; what follows it in the file is the end marker,
    or nothing when the file has no end marker. It is returned without
    any diagnostic. *)
Theorem Source_returns (src s : string) :
  result (Source src) = Ret s ->
  Source src = ret s
  /\ Strings.HasPrefix s start_marker = true
  /\ Strings.Contains s end_marker = false
  /\ exists pre post,
      src = pre +++ s +++ post
      /\ (post = "" \/ Strings.HasPrefix post end_marker = true).
Proof.
  unfold Source, Strings.HasPrefix, Strings.Contains.
  destruct (Strings.Index src start_marker) as [a|] eqn:Ha;
    [|intros H; cbn in H; discriminate].
  pose proof (Index_Some _ _ _ Ha) as (Hpa & Hla & _).
  destruct (Strings.Index src end_marker) as [e|] eqn:He.
  - destruct (Nat.ltb_spec e a) as [Hlt|Hge]; [discriminate|].
    intros [= <-]. split; [reflexivity|].
    pose proof (Index_end_after_start _ _ _ Ha He Hge) as Hfar.
    pose proof (Index_Some _ _ _ He) as (Hpe & Hle & Hfirst).
    split; [apply prefix_stake_ge; [assumption|lia]|]. split.
    + destruct (Strings.Index (stake (e - a) (sdrop a src)) end_marker)
        as [k|] eqn:Hk; [exfalso|reflexivity].
      apply Index_Some in Hk as (Hk & Hlk & _).
      rewrite stake_length in Hlk by (rewrite sdrop_length; lia).
      rewrite sdrop_stake in Hk.
      destruct (Nat.eq_dec k (e - a)) as [->|Hne].
      * rewrite Nat.sub_diag in Hk. cbn [stake] in Hk. discriminate.
      * apply prefix_stake in Hk. rewrite sdrop_sdrop in Hk.
        rewrite Hfirst in Hk by lia. discriminate.
    + exists (stake a src), (sdrop e src). split; [|now right].
      rewrite <- (stake_sdrop a src) at 1. f_equal.
      rewrite <- (stake_sdrop (e - a) (sdrop a src)) at 1. f_equal.
      rewrite sdrop_sdrop. f_equal. lia.
  - intros [= <-]. split; [reflexivity|]. split; [assumption|]. split.
    + destruct (Strings.Index (sdrop a src) end_marker) as [k|] eqn:Hk;
        [exfalso|reflexivity].
      apply Index_Some in Hk as (Hk & Hlk & _).
      rewrite sdrop_length in Hlk. rewrite sdrop_sdrop in Hk.
      rewrite (proj1 (Index_None _ _) He) in Hk by lia. discriminate.
    + exists (stake a src), "". split; [|now left].
      now rewrite append_nil_r, stake_sdrop.
Qed.

Lemma Source_returns_witness :
  Source sample_prelude_file
  = ret (start_marker +++ "var Line string" +++ nl).
Proof.
  apply (Source_returns sample_prelude_file
                        (start_marker +++ "var Line string" +++ nl)).
  vm_compute. reflexivity.
Defined.

(** *** The first instance of a marker in a file of known layout *)

Lemma prefix_append_self (m r : string) : String.prefix m (m +++ r) = true.
Proof.
  induction m as [|a m IH]; [apply prefix_nil|].
  cbn [String.append]. rewrite prefix_cons.
  destruct (ascii_dec a a); [exact IH|congruence].
Qed.

Lemma sdrop_append_le (a b : string) :
  forall k : nat,
    (k <= String.length a)%nat -> sdrop k (a +++ b) = sdrop k a +++ b.
Proof.
  induction a as [|c a IH]; intros [|k] Hk; cbn [String.length] in Hk;
    try reflexivity; try lia.
  cbn [String.append sdrop]. apply IH. lia.
Qed.

Lemma prefix_append_long (m : string) :
  forall a b : string,
    String.prefix m (a +++ b) = true ->
    (String.length m <= String.length a)%nat ->
    String.prefix m a = true.
Proof.
  induction m as [|c m IH]; intros a b H Hlen; [apply prefix_nil|].
  destruct a as [|d a]; [cbn [String.length] in Hlen; lia|].
  cbn [String.append] in H. rewrite prefix_cons in *.
  destruct (ascii_dec c d); [|discriminate].
  apply (IH a b H). cbn [String.length] in Hlen. lia.
Qed.

(** The converse of [Index_Some]. *)
Lemma Index_first (m s : string) (k : nat) :
  String.prefix m (sdrop k s) = true ->
  (k <= String.length s)%nat ->
  (forall j, (j < k)%nat -> String.prefix m (sdrop j s) = false) ->
  Strings.Index s m = Some k.
Proof.
  intros Hk Hlen Hbefore.
  destruct (Strings.Index s m) as [k'|] eqn:E.
  - apply Index_Some in E as (Hk' & _ & Hfirst).
    destruct (Nat.lt_trichotomy k' k) as [Hlt|[->|Hgt]]; [|reflexivity|].
    + rewrite (Hbefore k' Hlt) in Hk'. discriminate.
    + rewrite (Hfirst k Hgt) in Hk. discriminate.
  - rewrite (proj1 (Index_None _ _) E k Hlen) in Hk. discriminate.
Qed.

(** Behind a text that does not hold it, an unbordered marker is found
    where it was put. *)
Lemma Index_at (m pre rest : string) :
  unbordered m ->
  Strings.Contains pre m = false ->
  Strings.Index (pre +++ m +++ rest) m = Some (String.length pre).
Proof.
  intros Hm Hpre. unfold Strings.Contains in Hpre.
  destruct (Strings.Index pre m) eqn:E; [discriminate|].
  apply Index_first.
  - rewrite sdrop_append. apply prefix_append_self.
  - rewrite length_append. lia.
  - intros j Hj.
    destruct (String.prefix m (sdrop j (pre +++ m +++ rest))) eqn:Hp;
      [exfalso|reflexivity].
    destruct (Nat.lt_ge_cases (String.length pre - j) (String.length m))
      as [Hshort|Hlong].
    + pose proof (prefix_decompose _ _ Hp) as Hd.
      assert (String.prefix m (sdrop (String.length pre - j)
                                     (sdrop j (pre +++ m +++ rest))) = true)
        as Hsecond.
      { rewrite sdrop_sdrop.
        replace (j + (String.length pre - j))%nat with (String.length pre)
          by lia.
        rewrite sdrop_append. apply prefix_append_self. }
      rewrite Hd, Hm in Hsecond by lia. discriminate.
    + rewrite sdrop_append_le in Hp by lia.
      apply prefix_append_long in Hp; [|rewrite sdrop_length; lia].
      rewrite (proj1 (Index_None _ _) E j) in Hp by lia. discriminate.
Qed.

Lemma start_marker_unbordered : unbordered start_marker.
Proof.
  intros t j [Hpos Hj]. destruct j as [|j]; [lia|].
  do 21 (destruct j as [|j]; [reflexivity|]).
  vm_compute in Hj. lia.
Qed.

Lemma end_marker_unbordered : unbordered end_marker.
Proof.
  intros t j [Hpos Hj]. destruct j as [|j]; [lia|].
  do 19 (destruct j as [|j]; [reflexivity|]).
  vm_compute in Hj. lia.
Qed.

(** X18. [Source] by the layout of the embedded file. For a file made
    of a text without the start marker, the start marker, a body, the end
    marker and any text after it, the end marker not occurring before
    that place, [Source] returns exactly the start marker and the body,
    whatever comes after the end marker. For such a file without end
    marker it returns the start marker and the whole rest. For a file in
    which the end marker comes first and the start marker later, it
    panics on the slice expression instead of reporting. *)
Theorem Source_by_layout (pre body post : string) :
  (Strings.Contains pre start_marker = false ->
   Strings.Contains (pre +++ start_marker +++ body) end_marker = false ->
   Source (pre +++ start_marker +++ body +++ end_marker +++ post)
   = ret (start_marker +++ body)
   /\ Source (pre +++ start_marker +++ body) = ret (start_marker +++ body))
  /\ (Strings.Contains pre end_marker = false ->
      Strings.Contains (pre +++ end_marker +++ body) start_marker = false ->
      exists msg,
        Source (pre +++ end_marker +++ body +++ start_marker +++ post)
        = ([], Panic msg)).
Proof.
  split.
  - intros Hpre Hbody.
    pose proof (Index_at start_marker pre (body +++ end_marker +++ post)
                         start_marker_unbordered Hpre) as Ha.
    pose proof (Index_at start_marker pre body start_marker_unbordered Hpre)
      as Ha'.
    pose proof (Index_at end_marker (pre +++ start_marker +++ body) post
                         end_marker_unbordered Hbody) as He.
    replace ((pre +++ start_marker +++ body) +++ end_marker +++ post)
      with (pre +++ start_marker +++ body +++ end_marker +++ post) in He
      by (now rewrite !append_assoc).
    split.
    + unfold Source. rewrite Ha, He.
      rewrite !length_append.
      replace (String.length pre
               + (String.length start_marker + String.length body)
               <? String.length pre)%nat with false
        by (symmetry; apply Nat.ltb_ge; lia).
      rewrite sdrop_append.
      replace (String.length pre
               + (String.length start_marker + String.length body)
               - String.length pre)%nat
        with (String.length (start_marker +++ body))
        by (rewrite length_append; lia).
      rewrite <- (append_assoc start_marker body), stake_append.
      reflexivity.
    + unfold Source. rewrite Ha'.
      unfold Strings.Contains in Hbody.
      destruct (Strings.Index (pre +++ start_marker +++ body) end_marker);
        [discriminate|].
      now rewrite sdrop_append.
  - intros Hpre Hbody.
    pose proof (Index_at end_marker pre (body +++ start_marker +++ post)
                         end_marker_unbordered Hpre) as He.
    pose proof (Index_at start_marker (pre +++ end_marker +++ body) post
                         start_marker_unbordered Hbody) as Ha.
    replace ((pre +++ end_marker +++ body) +++ start_marker +++ post)
      with (pre +++ end_marker +++ body +++ start_marker +++ post) in Ha
      by (now rewrite !append_assoc).
    unfold Source. rewrite Ha, He. rewrite !length_append.
    replace (String.length pre
             <? String.length pre
                + (String.length end_marker + String.length body))%nat
      with true
      by (symmetry; apply Nat.ltb_lt; vm_compute (String.length end_marker);
          lia).
    now eexists.
Qed.

Lemma Source_by_layout_witness :
  Source sample_prelude_file = ret (start_marker +++ "var Line string" +++ nl)
  /\ exists msg, Source swapped_prelude_file = ([], Panic msg).
Proof.
  split.
  - refine (proj1 (proj1 (Source_by_layout
                            ("package prelude" +++ nl)
                            ("var Line string" +++ nl)
                            ("func Source() []byte" +++ nl)) _ _));
      vm_compute; reflexivity.
  - refine (proj2 (Source_by_layout "" ("var Line string" +++ nl) "") _ _);
      vm_compute; reflexivity.
Defined.

(** ** GAtoi on a line that keeps its newline *)

Lemma atoi_fast_loop_nl (s0 t : string) :
  forall n : Z,
    Strconv.atoi_fast_loop s0 n (t +++ nl)
    = (0, Some (Strconv.syntaxError "Atoi" s0)).
Proof.
  induction t as [|c t IH]; intros n.
  - reflexivity.
  - cbn [String.append Strconv.atoi_fast_loop]. cbv zeta.
    destruct ((byteZ c - 48) mod 256 >? 9); [reflexivity|apply IH].
Qed.

Lemma Atoi_nl (l : string) :
  (String.length l < 18)%nat ->
  Strconv.Atoi (l +++ nl)
  = (0, Some (Strconv.syntaxError "Atoi" (l +++ nl))).
Proof.
  intros Hlen. unfold Strconv.Atoi. cbv zeta.
  rewrite length_append. change (String.length nl) with 1%nat.
  replace ((0 <? String.length l + 1)%nat && (String.length l + 1 <? 19)%nat)
    with true
    by (symmetry; apply andb_true_intro; split; apply Nat.ltb_lt; lia).
  destruct l as [|c l]; [reflexivity|].
  cbn [String.append].
  destruct ((byteZ c =? 45) || (byteZ c =? 43)).
  - rewrite length_append. change (String.length nl) with 1%nat.
    replace (String.length l + 1 <? 1)%nat with false
      by (symmetry; apply Nat.ltb_ge; lia).
    cbn [andb]. now rewrite atoi_fast_loop_nl.
  - cbn [andb].
    change (String c (l +++ nl)) with (String c l +++ nl) at 2.
    now rewrite atoi_fast_loop_nl.
Qed.

(** X19. Without -l the current line keeps its newline, and [GAtoi]
    does not accept it: for every scanned line of fewer than 18 bytes,
    whatever its digits, GAtoi(Line) returns 0, with the syntax warning
    when warnings are on. *)
Theorem GAtoi_of_unchomped_line (p : Golf.Prog) (g : Prelude.Globals)
        (l : string) :
  Golf.FlgL p = false ->
  (String.length l < 18)%nat ->
  Prelude.GAtoi g (shown p l)
  = ((if Prelude.Warnings g
      then [StderrPrintln [VError (NumError "Atoi" (l +++ nl) ErrSyntax)]]
      else []),
     Ret 0).
Proof.
  intros HL Hlen. unfold shown. rewrite HL. cbn [negb].
  rewrite GAtoi_returns, Atoi_nl by assumption. reflexivity.
Qed.

Lemma GAtoi_of_unchomped_line_witness :
  Prelude.GAtoi (Scaffold.init sample_prog) ("42" +++ nl) = ([], Ret 0).
Proof.
  apply (GAtoi_of_unchomped_line sample_prog (Scaffold.init sample_prog) "42").
  - reflexivity.
  - vm_compute. lia.
Defined.

(** ** Warn *)

Lemma HasSuffix_nl (s : string) : Strings.HasSuffix (s +++ nl) nl = true.
Proof.
  unfold Strings.HasSuffix. rewrite length_append.
  change (String.length nl) with 1%nat.
  replace (String.length s + 1 - 1)%nat with (String.length s) by lia.
  rewrite sdrop_append, String.eqb_refl.
  replace (1 <=? String.length s + 1)%nat with true
    by (symmetry; apply Nat.leb_le; lia).
  reflexivity.
Qed.

(** X20. The newline of a format handed to [Warn]. When [Warn] is
    called with a format string and at least one operand, the format it
    passes to Fprintf ends in a newline, and it makes no difference
    whether the caller ended the format with one: for a format without
    the final newline, Warn with the newline added writes the same as
    Warn without it. (This is about the format; what Fprintf renders for
    the operands is package fmt's.) *)
Theorem Warn_newline_policy (s : string) (x : Value) (rest : list Value) :
  (exists format,
      Prelude.Warn (VString s :: x :: rest)
      = ([StderrPrintf format (x :: rest)], Ret tt)
      /\ Strings.HasSuffix format nl = true)
  /\ (Strings.HasSuffix s nl = false ->
      Prelude.Warn (VString (s +++ nl) :: x :: rest)
      = Prelude.Warn (VString s :: x :: rest)).
Proof.
  unfold Prelude.Warn. cbv zeta. split.
  - destruct (Strings.HasSuffix s nl) eqn:Hs; cbn [negb].
    + exists s. now split.
    + exists (s +++ nl). split; [reflexivity|apply HasSuffix_nl].
  - intros Hs. now rewrite HasSuffix_nl, Hs.
Qed.

Lemma Warn_newline_policy_witness :
  Prelude.Warn [VString ("golf: mkdir tmp: %v" +++ nl); VError ErrGolf]
  = Prelude.Warn [VString "golf: mkdir tmp: %v"; VError ErrGolf].
Proof.
  apply (proj2 (Warn_newline_policy "golf: mkdir tmp: %v" (VError ErrGolf) [])).
  reflexivity.
Defined.

Lemma do_and_doQ_agree_witness :
  Golf.do sample_os "/tmp/golf-1/golfing" [] = Some (ExitError 2)
  /\ Golf.doQ sample_os "/tmp/golf-1/golfing" [] = Some (ExitError 2).
Proof.
  refine (proj2 (proj2 (do_and_doQ_agree sample_os "/tmp/golf-1/golfing" []))
                2 "" _ _).
  - reflexivity.
  - discriminate.
Defined.
